(** * adventuregame: the Game Master hooks and the episode Scorer

    A shallow embedding of [games/adventuregame/master.py]: the hooks of
    [AdventureGameMaster] that decide validation and continuation, and
    [AdventureGameScorer.compute_scores], which reads an interaction log and
    emits per-turn and per-episode scores.

    Python values are rendered as follows.
    - [int] is [Z]; [str] is [string]; [bool] is [bool]; a [set] of goal
      identifiers is a [gset string].
    - [float] is the kernel's binary64 [float]; [np.nan] is [nan].
    - a [dict] that the code subscripts with computed keys is a
      [gmap string Z]; a subscript on an absent key raises [KeyError].
    - exceptions are values of [exn]; code that can raise lives in the
      state-and-exception monad [SE]. *)

From Stdlib Require Import ZArith String Ascii List PrimFloat Uint63.
From stdpp Require Import base option gmap strings list.

Open Scope string_scope.
Open Scope list_scope.
Open Scope Z_scope.

(** ** Exceptions and the state-and-exception monad *)

Inductive exn : Type :=
  | KeyError (key : string)
  | IndexError
  | ZeroDivisionError.

#[global] Instance exn_eq_dec : EqDecision exn.
Proof. solve_decision. Defined.

(** A computation over a mutable state [S]: it either raises, and the
    exception is all the caller sees, or returns a value and the new state. *)
Definition SE (S A : Type) : Type := S -> exn + (A * S).

Definition ret {S A} (a : A) : SE S A := fun s => inr (a, s).

Definition raise {S A} (e : exn) : SE S A := fun _ => inl e.

Definition bind {S A B} (m : SE S A) (k : A -> SE S B) : SE S B :=
  fun s => match m s with
           | inl e => inl e
           | inr (a, s') => k a s'
           end.

Definition get {S} : SE S S := fun s => inr (s, s).

Definition modify {S} (f : S -> S) : SE S unit := fun s => inr (tt, f s).

Declare Scope se_scope.
Delimit Scope se_scope with se.
Notation "x <- m ;; k" := (bind m (fun x => k))
  (at level 100, m at next level, right associativity) : se_scope.
Notation "m ;;; k" := (bind m (fun _ => k))
  (at level 100, right associativity) : se_scope.
Open Scope se_scope.

(** [for x in xs: body(x)] threading the loop-carried variables [a]. *)
Fixpoint for_each {S A X} (body : X -> A -> SE S A) (xs : list X) (a : A)
  : SE S A :=
  match xs with
  | [] => ret a
  | x :: rest => a' <- body x a ;; for_each body rest a'
  end.

(** [[f(x) for x in xs]] where [f] may raise. *)
Fixpoint comprehension {S X Y} (f : X -> SE S Y) (xs : list X)
  : SE S (list Y) :=
  match xs with
  | [] => ret []
  | x :: rest => y <- f x ;; ys <- comprehension f rest ;; ret (y :: ys)
  end.

(** [d[k]] on a dict. *)
Definition getitem {S} (d : gmap string Z) (k : string) : SE S Z :=
  match d !! k with
  | Some v => ret v
  | None => raise (KeyError k)
  end.

(** Python's built-in [sum] on a list of ints. *)
Definition sum (xs : list Z) : Z := fold_left Z.add xs 0.

(** ** Numbers *)

(** [float(z)] for an int of magnitude below [2^53], where the conversion
    is exact.  Beyond that the model rounds, and from [2^63] on it wraps,
    where Python does not: a statement about a quotient is made of logs
    whose numbers are in that range ([float_exact] below). *)
Definition float_of_Z (z : Z) : float :=
  match z with
  | Z0 => 0%float
  | Zpos _ => PrimFloat.of_uint63 (Uint63.of_Z z)
  | Zneg p => PrimFloat.opp (PrimFloat.of_uint63 (Uint63.of_Z (Zpos p)))
  end.

(** [a / b] on two ints: true division, which raises on a zero divisor.
    For operands below [2^53] in magnitude the correctly rounded quotient
    Python returns is the binary64 quotient of the converted operands.
    Python rounds the exact quotient of larger operands once and raises
    [OverflowError] when it is out of the range of a float; the model has
    neither, and is that of Python on the logs of [float_exact] below. *)
Definition truediv {S} (a b : Z) : SE S float :=
  if decide (b = 0) then raise ZeroDivisionError
  else ret (PrimFloat.div (float_of_Z a) (float_of_Z b)).

(** ** The interaction log *)

Module Log.

(** The dict logged under [adventure_info] (master.py:68-70). *)
Record AdventureInfo : Type := {
  variant : string;
  max_turns : Z;
  optimal_turns : Z;
  goal_count : Z
}.

(** One logged event, [event["action"]], by its ["type"]; the arguments are
    the fields of its ["content"].  [other] stands for an event of any other
    type (a logged message and the like), which the Scorer does not look
    at. *)
Inductive action : Type :=
  | adventure_info (content : AdventureInfo)
  | invalid_format (content : string)
  | action_fail (phase fail_type : string)
  | turn_limit_reached (content : Z)
  | goal_status (goal_states_achieved : list string) (turn_goal_score : Z)
  | adventure_finished (content : list string)
  | game_result (goal_states_achieved : list string)
                (game_successfully_finished : bool)
  | other (content : string).

(** [episode_interactions["turns"]]: one list of events per turn. *)
Definition turns : Type := list (list action).

End Log.

(** ** Score names and score values *)

(** Modelled from the spec: the score names of [clemgame.metrics], which
    master.py imports but src/ does not contain.  The spec calls them the
    request count, the parsed and violated request counts, the request
    success ratio, [aborted], [success], [lose] and the composite benchmark
    score; they are kept symbolic and distinct from the names the Scorer
    spells out itself. *)
Inductive metric : Type :=
  | METRIC_ABORTED
  | METRIC_LOSE
  | METRIC_SUCCESS
  | BENCH_SCORE
  | METRIC_REQUEST_COUNT
  | METRIC_REQUEST_COUNT_PARSED
  | METRIC_REQUEST_COUNT_VIOLATED
  | METRIC_REQUEST_SUCCESS.

Inductive score_name : Type :=
  | Std (m : metric)
  | Lit (s : string).

Coercion Std : metric >-> score_name.
Coercion Lit : string >-> score_name.

#[global] Instance metric_eq_dec : EqDecision metric.
Proof. solve_decision. Defined.
#[global] Instance score_name_eq_dec : EqDecision score_name.
Proof. solve_decision. Defined.

(** A logged score: an int, or a float ([np.nan] included). *)
Inductive value : Type :=
  | VInt (z : Z)
  | VFloat (f : float).

(** Modelled from the spec: the store behind [GameScorer.log_turn_score] and
    [GameScorer.log_episode_score] (clemgame, not in src/).  It is kept as the
    record of the calls made, oldest first; a name logged twice reads as its
    latest value. *)
Record Scores : Type := {
  turn_scores_log : list (nat * score_name * value);
  episode_scores_log : list (score_name * value)
}.

Definition no_scores : Scores :=
  {| turn_scores_log := []; episode_scores_log := [] |}.

Definition log_turn_score (turn_idx : nat) (name : score_name) (v : value)
  : SE Scores unit :=
  modify (fun s => {| turn_scores_log := turn_scores_log s ++ [(turn_idx, name, v)];
                      episode_scores_log := episode_scores_log s |}).

Definition log_episode_score (name : score_name) (v : value)
  : SE Scores unit :=
  modify (fun s => {| turn_scores_log := turn_scores_log s;
                      episode_scores_log := episode_scores_log s ++ [(name, v)] |}).

(** The latest value bound to [k] in a record of calls. *)
Fixpoint assoc_last {K V} `{EqDecision K} (k : K) (l : list (K * V))
  : option V :=
  match l with
  | [] => None
  | (k', v) :: rest =>
      match assoc_last k rest with
      | Some v' => Some v'
      | None => if decide (k' = k) then Some v else None
      end
  end.

(** The latest value logged for the episode under [name]. *)
Definition logged_episode (s : Scores) (name : score_name) : option value :=
  assoc_last name (episode_scores_log s).

(** The latest value logged for turn [turn_idx] under [name]. *)
Definition logged_turn (s : Scores) (turn_idx : nat) (name : score_name)
  : option value :=
  assoc_last (turn_idx, name) (turn_scores_log s).

(** ** The Scorer: [AdventureGameScorer.compute_scores] *)

Module Scorer.

(** master.py:212-214. *)
Definition fail_types : list string :=
  [ "parsing"; "resolution"; "lark_exception"; "undefined_action_verb";
    "undefined_action"; "undefined_repr_str"; "undefined_type";
    "not_room_type"; "no_exit_to"; "multiple_exits_to";
    "entity_not_accessible"; "multiple_entity_ambiguity";
    "pre_state_mismatch" ].

(** The local variables of [compute_scores] that live across statements.
    [adventure_info = None] is the empty [dict()] of line 209, on which every
    subscript raises [KeyError]. *)
Record frame : Type := mkFrame {
  adventure_info : option Log.AdventureInfo;
  turn_scores : list (gmap string Z);
  turn_fails : list (gmap string Z);
  invalid_format : string;
  turn_limit_loss : bool;
  successfully_finished : bool;
  final_goals_achieved : list string;
  turn_score : gmap string Z;
  turn_fail : gmap string Z
}.

(** Lines 209-219: the frame before the loop over the turns. *)
Definition initial_frame : frame :=
  {| adventure_info := None; turn_scores := []; turn_fails := [];
     invalid_format := ""; turn_limit_loss := false;
     successfully_finished := false; final_goals_achieved := [];
     turn_score := ∅; turn_fail := ∅ |}.

Definition set_adventure_info (x : option Log.AdventureInfo) (f : frame) :=
  mkFrame x (turn_scores f) (turn_fails f) (invalid_format f)
    (turn_limit_loss f) (successfully_finished f) (final_goals_achieved f)
    (turn_score f) (turn_fail f).

Definition set_invalid_format (x : string) (f : frame) :=
  mkFrame (adventure_info f) (turn_scores f) (turn_fails f) x
    (turn_limit_loss f) (successfully_finished f) (final_goals_achieved f)
    (turn_score f) (turn_fail f).

Definition set_turn_limit_loss (x : bool) (f : frame) :=
  mkFrame (adventure_info f) (turn_scores f) (turn_fails f) (invalid_format f)
    x (successfully_finished f) (final_goals_achieved f)
    (turn_score f) (turn_fail f).

Definition set_game_result (finished : bool) (goals : list string) (f : frame) :=
  mkFrame (adventure_info f) (turn_scores f) (turn_fails f) (invalid_format f)
    (turn_limit_loss f) finished goals (turn_score f) (turn_fail f).

Definition set_turn_score (x : gmap string Z) (f : frame) :=
  mkFrame (adventure_info f) (turn_scores f) (turn_fails f) (invalid_format f)
    (turn_limit_loss f) (successfully_finished f) (final_goals_achieved f)
    x (turn_fail f).

Definition set_turn_fail (x : gmap string Z) (f : frame) :=
  mkFrame (adventure_info f) (turn_scores f) (turn_fails f) (invalid_format f)
    (turn_limit_loss f) (successfully_finished f) (final_goals_achieved f)
    (turn_score f) x.

(** Lines 276-277: [turn_scores.append(turn_score)] and
    [turn_fails.append(turn_fail)]. *)
Definition append_turn (f : frame) :=
  mkFrame (adventure_info f) (turn_scores f ++ [turn_score f])
    (turn_fails f ++ [turn_fail f]) (invalid_format f)
    (turn_limit_loss f) (successfully_finished f) (final_goals_achieved f)
    (turn_score f) (turn_fail f).

(** Lines 224-246: the body of [for event in turn].  The tests on
    [action["type"]] exclude one another, so they read as one match. *)
Definition on_event (f : frame) (a : Log.action) : frame :=
  match a with
  | Log.adventure_info content => set_adventure_info (Some content) f
  | Log.invalid_format content => set_invalid_format content f
  | Log.action_fail phase fail_type =>
      set_turn_fail (<[fail_type := 1]> (<[phase := 1]> (turn_fail f))) f
  | Log.turn_limit_reached _ => set_turn_limit_loss true f
  | Log.goal_status _ turn_goal_score =>
      set_turn_score (<["goal_score" := turn_goal_score]> (turn_score f)) f
  | Log.game_result goal_states_achieved game_successfully_finished =>
      set_game_result game_successfully_finished goal_states_achieved f
  | Log.adventure_finished _ => f
  | Log.other _ => f
  end.

(** Truth value of a [str]: non-empty. *)
Definition truthy (s : string) : bool := negb (String.eqb s "").

(** Lines 221-253: the turn's fresh dicts, the loop over its events, and the
    request counts derived from the invalid-format marker. *)
Definition read_turn (turn : list Log.action) (f : frame) : frame :=
  let f := set_turn_score {[ "request_count" := 1 ]} f in
  let f := set_turn_fail (list_to_map ((fun fail_type => (fail_type, 0)) <$> fail_types)) f in
  let f := fold_left on_event turn f in
  if truthy (invalid_format f)
  then set_turn_score (<["parsed_request_count" := 0]>
                         (<["violated_request_count" := 1]> (turn_score f))) f
  else set_turn_score (<["parsed_request_count" := 1]>
                         (<["violated_request_count" := 0]> (turn_score f))) f.

(** Lines 221-277: the body of [for turn_idx, turn in enumerate(...)]. *)
Definition score_turn (turn_idx : nat) (turn : list Log.action) (f : frame)
  : SE Scores frame :=
  let f := read_turn turn f in
  x <- getitem (turn_score f) "request_count" ;;
  log_turn_score turn_idx METRIC_REQUEST_COUNT (VInt x) ;;;
  x <- getitem (turn_score f) "parsed_request_count" ;;
  log_turn_score turn_idx METRIC_REQUEST_COUNT_PARSED (VInt x) ;;;
  x <- getitem (turn_score f) "violated_request_count" ;;
  log_turn_score turn_idx METRIC_REQUEST_COUNT_VIOLATED (VInt x) ;;;
  (if String.eqb (invalid_format f) "command_tag_missing" then
     log_turn_score turn_idx "command_tag_missing" (VInt 1) ;;;
     log_turn_score turn_idx "next_actions_missing" (VInt 0)
   else if String.eqb (invalid_format f) "next_actions_missing" then
     log_turn_score turn_idx "command_tag_missing" (VInt 0) ;;;
     log_turn_score turn_idx "next_actions_missing" (VInt 1)
   else
     log_turn_score turn_idx "command_tag_missing" (VInt 0) ;;;
     log_turn_score turn_idx "next_actions_missing" (VInt 0)) ;;;
  x <- getitem (turn_fail f) "parsing" ;;
  log_turn_score turn_idx "action_parsing_fail" (VInt x) ;;;
  x <- getitem (turn_fail f) "resolution" ;;
  log_turn_score turn_idx "action_resolution_fail" (VInt x) ;;;
  for_each (fun fail_type (_ : unit) =>
              x <- getitem (turn_fail f) fail_type ;;
              log_turn_score turn_idx fail_type (VInt x))
           (drop 2 fail_types) tt ;;;
  x <- getitem (turn_score f) "goal_score" ;;
  log_turn_score turn_idx "goal_score" (VInt x) ;;;
  ret (append_turn f).

(** Lines 220-277: the loop over [enumerate(episode_interactions["turns"])],
    entered at index [turn_idx]. *)
Fixpoint score_turns (turn_idx : nat) (turns : Log.turns) (f : frame)
  : SE Scores frame :=
  match turns with
  | [] => ret f
  | turn :: rest =>
      f' <- score_turn turn_idx turn f ;; score_turns (S turn_idx) rest f'
  end.

(** The frame that loop leaves behind when no turn raises. *)
Definition read_turns (turns : Log.turns) (f : frame) : frame :=
  fold_left (fun f turn => append_turn (read_turn turn f)) turns f.

(** [adventure_info[key]] on the dict read from the log. *)
Definition info_item (info : option Log.AdventureInfo)
    (key : string) (field : Log.AdventureInfo -> Z) : SE Scores Z :=
  match info with
  | Some content => ret (field content)
  | None => raise (KeyError key)
  end.

(** Lines 279-368: the episode-level scores. *)
Definition score_episode (f : frame) : SE Scores unit :=
  xs <- comprehension (fun turn => getitem turn "violated_request_count") (turn_scores f) ;;
  let violated_request_count := sum xs in
  log_episode_score METRIC_REQUEST_COUNT_VIOLATED (VInt violated_request_count) ;;;
  xs <- comprehension (fun turn => getitem turn "parsed_request_count") (turn_scores f) ;;
  let parsed_request_count := sum xs in
  log_episode_score METRIC_REQUEST_COUNT_PARSED (VInt parsed_request_count) ;;;
  xs <- comprehension (fun turn => getitem turn "request_count") (turn_scores f) ;;
  let request_count := sum xs in
  log_episode_score METRIC_REQUEST_COUNT (VInt request_count) ;;;
  x <- truediv parsed_request_count request_count ;;
  log_episode_score METRIC_REQUEST_SUCCESS (VFloat x) ;;;
  xs <- comprehension (fun turn => getitem turn "parsing") (turn_fails f) ;;
  let action_parsing_fail_count := sum xs in
  log_episode_score "action_parsing_fail" (VInt action_parsing_fail_count) ;;;
  xs <- comprehension (fun turn => getitem turn "resolution") (turn_fails f) ;;
  let action_resolution_fail_count := sum xs in
  log_episode_score "action_resolution_fail" (VInt action_resolution_fail_count) ;;;
  for_each (fun fail_type (_ : unit) =>
              xs <- comprehension (fun turn => getitem turn fail_type) (turn_fails f) ;;
              let type_fail_count := sum xs in
              log_episode_score fail_type (VInt type_fail_count))
           (drop 2 fail_types) tt ;;;
  (if turn_limit_loss f
   then log_episode_score "turn_limit_loss" (VInt 1)
   else log_episode_score "turn_limit_loss" (VInt 0)) ;;;
  let turn_count := Z.of_nat (length (turn_scores f)) in
  optimal_turns <- info_item (adventure_info f) "optimal_turns" Log.optimal_turns ;;
  let turns_over_par := turn_count - optimal_turns in
  (if successfully_finished f
   then log_episode_score "turns_over_par" (VInt turns_over_par)
   else log_episode_score "turns_over_par" (VFloat nan)) ;;;
  max_turns <- info_item (adventure_info f) "max_turns" Log.max_turns ;;
  optimal_turns' <- info_item (adventure_info f) "optimal_turns" Log.optimal_turns ;;
  let turn_range := max_turns - optimal_turns' in
  q <- truediv turns_over_par turn_range ;;
  let turn_ratio := PrimFloat.sub (float_of_Z 1) q in
  (if successfully_finished f
   then log_episode_score "turn_ratio" (VFloat turn_ratio)
   else log_episode_score "turn_ratio" (VFloat nan)) ;;;
  let final_goal_score := Z.of_nat (length (final_goals_achieved f)) in
  goal_count <- info_item (adventure_info f) "goal_count" Log.goal_count ;;
  achieved_ratio <- truediv final_goal_score goal_count ;;
  log_episode_score "achieved_goal_ratio" (VFloat achieved_ratio) ;;;
  goal_rating <- truediv final_goal_score (Z.of_nat (length (turn_scores f))) ;;
  let full_rating := PrimFloat.mul achieved_ratio turn_ratio in
  (if successfully_finished f
   then log_episode_score BENCH_SCORE (VFloat full_rating)
   else log_episode_score BENCH_SCORE (VFloat nan)) ;;;
  (if truthy (invalid_format f)
   then log_episode_score METRIC_ABORTED (VInt 1)
   else log_episode_score METRIC_ABORTED (VInt 0)) ;;;
  (if successfully_finished f
   then log_episode_score METRIC_SUCCESS (VInt 1) ;;;
        log_episode_score METRIC_LOSE (VInt 0)
   else log_episode_score METRIC_SUCCESS (VInt 0) ;;;
        log_episode_score METRIC_LOSE (VInt 1)).

(** Lines 207-368. *)
Definition compute_scores (episode_interactions : Log.turns)
  : SE Scores unit :=
  f <- score_turns 0 episode_interactions initial_frame ;;
  score_episode f.

(** The outcome of scoring a log with a fresh Scorer. *)
Definition run (episode_interactions : Log.turns) : exn + Scores :=
  match compute_scores episode_interactions no_scores with
  | inl e => inl e
  | inr (_, s) => inr s
  end.

End Scorer.

(** ** Strings, as the Game Master uses them *)

(** [s.startswith(prefix)]. *)
Definition startswith (s prefix : string) : bool := String.prefix prefix s.

(** [sub in s]. *)
Fixpoint contains (sub s : string) : bool :=
  String.prefix sub s ||
  match s with
  | EmptyString => false
  | String _ s' => contains sub s'
  end.

(** [s.split(sep)] for a non-empty [sep], scanning left to right: [skip]
    counts the characters of a separator just matched that are still to be
    passed over, [cur] is the piece being collected. *)
Fixpoint split_from (sep : string) (skip : nat) (cur s : string)
  : list string :=
  match s with
  | EmptyString => [cur]
  | String c s' =>
      match skip with
      | S k => split_from sep k cur s'
      | O =>
          if String.prefix sep s
          then cur :: split_from sep (String.length sep - 1) "" s'
          else split_from sep 0 (cur ++ String c "") s'
      end
  end.

Definition split (sep s : string) : list string := split_from sep 0 "" s.

(** [str.isspace] on one character, for the code points below 256. *)
Definition isspace (c : ascii) : bool :=
  let n := nat_of_ascii c in
  ((9 <=? n) && (n <=? 13) || (28 <=? n) && (n <=? 32)
   || (n =? 133) || (n =? 160))%nat.

Fixpoint lstrip (s : string) : string :=
  match s with
  | EmptyString => EmptyString
  | String c s' => if isspace c then lstrip s' else s
  end.

(** [s.rstrip()]: a character is kept when it is not a space or when
    something is kept after it. *)
Fixpoint rstrip (s : string) : string :=
  match s with
  | EmptyString => EmptyString
  | String c s' =>
      match rstrip s' with
      | EmptyString => if isspace c then EmptyString else String c EmptyString
      | kept => String c kept
      end
  end.

(** [s.strip()]. *)
Definition strip (s : string) : string := rstrip (lstrip s).

(** [s[1:]]. *)
Definition tail (s : string) : string :=
  match s with
  | EmptyString => EmptyString
  | String _ s' => s'
  end.

Definition newline : string := String "010"%char EmptyString.

(** The plan marker of the "plan" variant, ["\nNext actions:"]. *)
Definition next_actions_marker : string := newline ++ "Next actions:".

(** ** The Game Master: [AdventureGameMaster] *)

Module Master.

(** The fields of a game instance that the Game Master reads. *)
Record GameInstance : Type := {
  variant : string;
  max_turns : Z;
  optimal_turns : Z;
  goal_state : list string;
  prompt : string
}.

(** What the interpreter reports when an action fails. *)
Record Fail : Type := { phase : string; fail_type : string }.

(** Modelled from the spec: the recorder and message store of
    [DialogueGameMaster] (clemgame, not in src/).  [messages] is the single
    player's history, oldest first, as (role, content); [episode_keys] holds
    what [log_key] wrote; [log] is the interaction log, one list of events per
    turn, the last one being the turn in progress. *)
Record Recorder : Type := {
  messages : list (string * string);
  episode_keys : list (string * Log.AdventureInfo);
  log : Log.turns
}.

Definition empty_recorder : Recorder :=
  {| messages := []; episode_keys := []; log := [] |}.

(** Modelled from the spec: "an append-only, turn-indexed sequence of typed
    events"; an event goes to the turn in progress. *)
Definition record_event (a : Log.action) (turns : Log.turns) : Log.turns :=
  match reverse turns with
  | [] => [[a]]
  | current :: earlier => reverse earlier ++ [current ++ [a]]
  end.

Section WithInterpreter.

(** The world interpreter, [BasicIFInterpreter] of
    [games.adventuregame.if_wrapper] (outside src/), through the three calls
    the Game Master makes. *)
Context {IF : Type}.
Variable BasicIFInterpreter : GameInstance -> IF.
Variable get_full_room_desc : IF -> string.
Variable process_action : IF -> string -> IF * (gset string * string * option Fail).

(** The attributes of an [AdventureGameMaster] after [_on_setup].
    [player] is the identity of [self.player]; [plan_history] is only read in
    the "plan" variant, where line 59 creates it. *)
Record state : Type := mkState {
  game_instance : GameInstance;
  if_variant : string;
  if_interpreter : IF;
  player : nat;
  plan_history : list string;
  goals_required : gset string;
  goals_required_cnt : nat;
  goals_achieved : gset string;
  turns : list bool;
  success : bool;
  invalid_format : string;
  finished : bool;
  recorder : Recorder
}.

Definition set_if_interpreter (x : IF) (st : state) :=
  mkState (game_instance st) (if_variant st) x (player st) (plan_history st)
    (goals_required st) (goals_required_cnt st) (goals_achieved st) (turns st)
    (success st) (invalid_format st) (finished st) (recorder st).

Definition set_plan_history (x : list string) (st : state) :=
  mkState (game_instance st) (if_variant st) (if_interpreter st) (player st) x
    (goals_required st) (goals_required_cnt st) (goals_achieved st) (turns st)
    (success st) (invalid_format st) (finished st) (recorder st).

Definition set_goals_achieved (x : gset string) (st : state) :=
  mkState (game_instance st) (if_variant st) (if_interpreter st) (player st)
    (plan_history st) (goals_required st) (goals_required_cnt st) x (turns st)
    (success st) (invalid_format st) (finished st) (recorder st).

Definition set_turns (x : list bool) (st : state) :=
  mkState (game_instance st) (if_variant st) (if_interpreter st) (player st)
    (plan_history st) (goals_required st) (goals_required_cnt st)
    (goals_achieved st) x (success st) (invalid_format st) (finished st)
    (recorder st).

Definition set_success (x : bool) (st : state) :=
  mkState (game_instance st) (if_variant st) (if_interpreter st) (player st)
    (plan_history st) (goals_required st) (goals_required_cnt st)
    (goals_achieved st) (turns st) x (invalid_format st) (finished st)
    (recorder st).

Definition set_invalid_format (x : string) (st : state) :=
  mkState (game_instance st) (if_variant st) (if_interpreter st) (player st)
    (plan_history st) (goals_required st) (goals_required_cnt st)
    (goals_achieved st) (turns st) (success st) x (finished st) (recorder st).

Definition set_finished (x : bool) (st : state) :=
  mkState (game_instance st) (if_variant st) (if_interpreter st) (player st)
    (plan_history st) (goals_required st) (goals_required_cnt st)
    (goals_achieved st) (turns st) (success st) (invalid_format st) x
    (recorder st).

Definition set_recorder (x : Recorder) (st : state) :=
  mkState (game_instance st) (if_variant st) (if_interpreter st) (player st)
    (plan_history st) (goals_required st) (goals_required_cnt st)
    (goals_achieved st) (turns st) (success st) (invalid_format st)
    (finished st) x.

(** Modelled from the spec: [log_to_self(type, content)] appends the event
    to the interaction log. *)
Definition log_to_self (a : Log.action) (st : state) : state :=
  let r := recorder st in
  set_recorder {| messages := messages r; episode_keys := episode_keys r;
                  log := record_event a (log r) |} st.

(** Modelled from the spec: [log_message_to_self(text)] logs a message
    event, of a type the Scorer does not read.  The texts of lines 176 and
    188 print Python values; the model keeps their leading label. *)
Definition log_message_to_self (text : string) (st : state) : state :=
  log_to_self (Log.other text) st.

(** Modelled from the spec: [log_key(key, value)] keeps the "static episode
    metadata snapshot captured by the Game Master at setup", apart from the
    records of the turns. *)
Definition log_key (key : string) (value : Log.AdventureInfo) (st : state)
  : state :=
  let r := recorder st in
  set_recorder {| messages := messages r;
                  episode_keys := episode_keys r ++ [(key, value)];
                  log := log r |} st.

(** Modelled from the spec: [add_user_message] and [add_assistant_message]
    append to the player's history. *)
Definition add_message (role content : string) (st : state) : state :=
  let r := recorder st in
  set_recorder {| messages := messages r ++ [(role, content)];
                  episode_keys := episode_keys r; log := log r |} st.

(** Modelled from the spec: the recorder opens the next turn's record. *)
Definition log_next_turn (st : state) : state :=
  let r := recorder st in
  set_recorder {| messages := messages r; episode_keys := episode_keys r;
                  log := log r ++ [[]] |} st.

(** Lines 24-35 and 37-72: [__init__] followed by [_on_setup]. *)
Definition _on_setup (self_player : nat) (gi : GameInstance) : state :=
  let goals_required := list_to_set (goal_state gi) in
  let st :=
    {| game_instance := gi;
       if_variant := variant gi;
       if_interpreter := BasicIFInterpreter gi;
       player := self_player;
       plan_history := [];
       goals_required := goals_required;
       goals_required_cnt := size goals_required;
       goals_achieved := ∅;
       turns := [];
       success := true;
       invalid_format := "";
       finished := false;
       recorder := empty_recorder |} in
  log_key "adventure_info"
    {| Log.variant := variant gi; Log.max_turns := max_turns gi;
       Log.optimal_turns := optimal_turns gi;
       Log.goal_count := Z.of_nat (size goals_required) |} st.

(** Lines 74-82. *)
Definition _on_before_game (st : state) : state :=
  let initial_room_desc := get_full_room_desc (if_interpreter st) in
  let first_message := (prompt (game_instance st) ++ initial_room_desc)%string in
  add_message "user" first_message st.

(** Lines 87-104: the result and the Game Master afterwards. *)
Definition _validate_player_response (p : nat) (utterance : string) (st : state)
  : bool * state :=
  if decide (p = player st) then
    if negb (startswith utterance ">") then
      (false, set_invalid_format "command_tag_missing" (set_success false st))
    else if String.eqb (if_variant st) "plan" then
      if negb (contains next_actions_marker utterance) then
        (false, set_invalid_format "next_actions_missing" (set_success false st))
      else (true, st)
    else (true, st)
  else (true, st).

(** Lines 106-125: the utterance, whether to log the parse, and the Game
    Master afterwards; [split(...)[1]] raises when the marker is absent. *)
Definition _on_parse_response (p : nat) (utterance : string)
  : SE state (string * bool) :=
  st <- get ;;
  (if String.eqb (if_variant st) "plan" then
     match split next_actions_marker utterance !! 1%nat with
     | Some new_plan =>
         modify (set_plan_history (plan_history st ++ [new_plan]))
     | None => raise IndexError
     end
   else ret tt) ;;;
  ret (utterance, true).

(** Truth value of a [str]: non-empty. *)
Definition truthy (s : string) : bool := negb (String.eqb s "").

(** Lines 127-148: the result and the Game Master afterwards. *)
Definition _does_game_proceed (st : state) : bool * state :=
  if truthy (invalid_format st) then
    (false, log_to_self (Log.invalid_format (invalid_format st)) st)
  else if bool_decide (goals_achieved st = goals_required st) then
    let st := set_finished true st in
    (false, log_to_self (Log.adventure_finished (elements (goals_achieved st))) st)
  else if bool_decide (max_turns (game_instance st) <= Z.of_nat (length (turns st))) then
    (false, log_to_self (Log.turn_limit_reached (max_turns (game_instance st))) st)
  else (true, st).

(** Lines 150-194; [messages[-1]] raises on an empty history. *)
Definition _on_after_turn (turn_idx : nat) : SE state unit :=
  st <- get ;;
  let '(proceed, st) := _does_game_proceed st in
  modify (fun _ => st) ;;;
  if proceed then
    match last (messages (recorder st)) with
    | None => raise IndexError
    | Some (_, last_action) =>
        let if_input := strip (default "" (head (split newline (tail last_action)))) in
        let prior_goal_count := Z.of_nat (size (goals_achieved st)) in
        let '(interpreter, (goals_achieved', if_response, fail)) :=
          process_action (if_interpreter st) if_input in
        let st := set_if_interpreter interpreter st in
        let st :=
          match fail with
          | Some fl =>
              log_message_to_self "action_fail"
                (log_to_self (Log.action_fail (phase fl) (fail_type fl)) st)
          | None => st
          end in
        let st := set_goals_achieved goals_achieved' st in
        let post_goal_count := Z.of_nat (size (goals_achieved st)) in
        let turn_score := post_goal_count - prior_goal_count in
        let st :=
          log_message_to_self "goal_status"
            (log_to_self (Log.goal_status (elements (goals_achieved st)) turn_score) st) in
        let st := add_message "user" if_response st in
        let st := set_turns (turns st ++ [success st]) st in
        modify (fun _ => st)
    end
  else ret tt.

(** Lines 198-200. *)
Definition _on_after_game (st : state) : state :=
  log_to_self (Log.game_result (elements (goals_achieved st)) (finished st)) st.

(** *** The driver *)

(** The player: given the history, the model's text continuation. *)
Variable respond : list (string * string) -> string.

(** Modelled from the spec: the "prompt -> validate -> parse-hook" part of a
    turn of [DialogueGameMaster] (clemgame, not in src/).  A response that
    fails validation is neither parsed nor added to the history. *)
Definition prompt_player : SE state unit :=
  st <- get ;;
  let utterance := respond (messages (recorder st)) in
  let '(valid, st) := _validate_player_response (player st) utterance st in
  modify (fun _ => st) ;;;
  if valid then
    r <- _on_parse_response (player st) utterance ;;
    modify (add_message "assistant" (fst r))
  else ret tt.

(** Modelled from the spec: "repeats the turn cycle until should_continue()
    returns false, then runs AFTER_GAME"; the continuation check comes before
    each turn is opened.  [budget] bounds the number of turns played; the
    loop leaves by itself once [max_turns] turns are recorded. *)
Fixpoint turn_loop (budget : nat) (turn_idx : nat) : SE state unit :=
  st <- get ;;
  let '(proceed, st) := _does_game_proceed st in
  modify (fun _ => st) ;;;
  if proceed then
    match budget with
    | O => ret tt
    | S budget' =>
        modify log_next_turn ;;;
        prompt_player ;;;
        _on_after_turn turn_idx ;;;
        turn_loop budget' (S turn_idx)
    end
  else modify _on_after_game.

(** Modelled from the spec: [run_episode()], from setup to the finished
    interaction log. *)
Definition play (self_player : nat) (gi : GameInstance) : exn + Log.turns :=
  let st := _on_before_game (_on_setup self_player gi) in
  match turn_loop (S (Z.to_nat (max_turns gi))) 0 st with
  | inl e => inl e
  | inr (_, st) => inr (log (recorder st))
  end.

End WithInterpreter.

End Master.

(** ** What a log says, read independently of the Scorer *)

Module Reading.
Import Log.

Definition as_adventure_info (a : action) : option AdventureInfo :=
  match a with adventure_info content => Some content | _ => None end.

Definition as_invalid_format (a : action) : option string :=
  match a with invalid_format content => Some content | _ => None end.

Definition as_goal_score (a : action) : option Z :=
  match a with goal_status _ turn_goal_score => Some turn_goal_score | _ => None end.

Definition as_game_result (a : action) : option (list string * bool) :=
  match a with
  | game_result goals finished => Some (goals, finished)
  | _ => None
  end.

Definition is_turn_limit_reached (a : action) : bool :=
  match a with turn_limit_reached _ => true | _ => false end.

(** An [action_fail] event that names the failure kind [kind], as its phase
    or as its fail type. *)
Definition names (kind : string) (a : action) : bool :=
  match a with
  | action_fail phase fail_type => String.eqb phase kind || String.eqb fail_type kind
  | _ => false
  end.

(** The payload of the latest event of one type among [events]. *)
Definition latest {A} (pick : action -> option A) (events : list action)
  : option A :=
  last (omap pick events).

(** The events of the turns up to and including turn [k]. *)
Definition events_upto (log : Log.turns) (k : nat) : list action :=
  concat (take (S k) log).

(** The invalid-format category on record after [events], starting from
    [marker]: the content of the latest [invalid_format] event. *)
Definition marker_after (marker : string) (events : list action) : string :=
  default marker (latest as_invalid_format events).

(** The category on record at the end of each turn. *)
Fixpoint markers (marker : string) (log : Log.turns) : list string :=
  match log with
  | [] => []
  | turn :: rest =>
      let marker' := marker_after marker turn in
      marker' :: markers marker' rest
  end.

(** The 0/1 flag of failure kind [kind] for a turn. *)
Definition flag (turn : list action) (kind : string) : Z :=
  Z.b2z (existsb (names kind) turn).

(** The scores of one turn, given the category on record at its end, its
    events and its goal score. *)
Definition turn_metrics (marker : string) (turn : list action)
    (goal_score : Z) : list (score_name * value) :=
  [ (Std METRIC_REQUEST_COUNT, VInt 1);
    (Std METRIC_REQUEST_COUNT_PARSED, VInt (Z.b2z (String.eqb marker "")));
    (Std METRIC_REQUEST_COUNT_VIOLATED,
       VInt (Z.b2z (negb (String.eqb marker ""))));
    (Lit "command_tag_missing",
       VInt (Z.b2z (String.eqb marker "command_tag_missing")));
    (Lit "next_actions_missing",
       VInt (Z.b2z (String.eqb marker "next_actions_missing")));
    (Lit "action_parsing_fail", VInt (flag turn "parsing"));
    (Lit "action_resolution_fail", VInt (flag turn "resolution")) ]
  ++ map (fun kind => (Lit kind, VInt (flag turn kind)))
         (drop 2 Scorer.fail_types)
  ++ [ (Lit "goal_score", VInt goal_score) ].

(** The same, as logged for turn [turn_idx]. *)
Definition turn_rows (turn_idx : nat) (marker : string) (turn : list action)
    (goal_score : Z) : list (nat * score_name * value) :=
  map (fun row => (turn_idx, fst row, snd row))
      (turn_metrics marker turn goal_score).

(** The scores of the turns from index [turn_idx] on; there are none when
    a turn carries no [goal_status] event. *)
Fixpoint rows_from (turn_idx : nat) (marker : string) (log : Log.turns)
  : option (list (nat * score_name * value)) :=
  match log with
  | [] => Some []
  | turn :: rest =>
      let marker' := marker_after marker turn in
      match latest as_goal_score turn, rows_from (S turn_idx) marker' rest with
      | Some g, Some rows => Some (turn_rows turn_idx marker' turn g ++ rows)
      | _, _ => None
      end
  end.

(** The request counts a turn's dict holds, given the category on record
    at the end of the turn. *)
Definition counts_of (d : gmap string Z) (m : string) : Prop :=
  d !! "request_count" = Some 1 /\
  d !! "parsed_request_count" = Some (Z.b2z (String.eqb m "")) /\
  d !! "violated_request_count" = Some (Z.b2z (negb (String.eqb m ""))).

(** The flags a turn's dict holds, given the events of the turn. *)
Definition flags_of (d : gmap string Z) (turn : list action) : Prop :=
  forall k, In k Scorer.fail_types -> d !! k = Some (flag turn k).

Definition is_invalid_format (a : action) : bool :=
  match a with invalid_format _ => true | _ => false end.

(** The name under which the flag of a failure kind is logged for a turn
    (master.py:269-272): the two phases get a name of their own. *)
Definition flag_name (kind : string) : string :=
  if String.eqb kind "parsing" then "action_parsing_fail"
  else if String.eqb kind "resolution" then "action_resolution_fail"
  else kind.

(** A format violation is on record after [events] when the latest
    [invalid_format] event among them carries a category, that is, a
    non-empty content. *)
Definition violation_recorded (events : list action) : Prop :=
  marker_after "" events <> "".

(** The first turn that contains an [invalid_format] event. *)
Fixpoint first_violation_turn (log : Log.turns) : option nat :=
  match log with
  | [] => None
  | turn :: rest =>
      if existsb is_invalid_format turn then Some O
      else S <$> first_violation_turn rest
  end.

(** An event that is no [invalid_format] event, or is one of content [c]. *)
Definition carries (c : string) (a : action) : bool :=
  match a with
  | invalid_format content => String.eqb content c
  | _ => true
  end.

(** How many turns satisfy [p]. *)
Definition count {A} (p : A -> bool) (l : list A) : Z :=
  Z.of_nat (length (filter (fun x => p x = true) l)).

(** The episode scores of a log of at least one turn whose latest
    [adventure_info] is [info], with [max_turns <> optimal_turns] and
    [goal_count <> 0]. *)
Definition episode_rows (log : Log.turns) (info : AdventureInfo)
  : list (score_name * value) :=
  let events := concat log in
  let ms := markers "" log in
  let result := default ([], false) (latest as_game_result events) in
  let finished := snd result in
  let goals := Z.of_nat (length (fst result)) in
  let turn_count := Z.of_nat (length log) in
  let turns_over_par := turn_count - optimal_turns info in
  let turn_ratio :=
    PrimFloat.sub 1%float
      (PrimFloat.div (float_of_Z turns_over_par)
                     (float_of_Z (max_turns info - optimal_turns info))) in
  let achieved_ratio :=
    PrimFloat.div (float_of_Z goals) (float_of_Z (goal_count info)) in
  let parsed := count (fun m => String.eqb m "") ms in
  [ (Std METRIC_REQUEST_COUNT_VIOLATED,
       VInt (count (fun m => negb (String.eqb m "")) ms));
    (Std METRIC_REQUEST_COUNT_PARSED, VInt parsed);
    (Std METRIC_REQUEST_COUNT, VInt turn_count);
    (Std METRIC_REQUEST_SUCCESS,
       VFloat (PrimFloat.div (float_of_Z parsed) (float_of_Z turn_count)));
    (Lit "action_parsing_fail",
       VInt (count (fun turn => existsb (names "parsing") turn) log));
    (Lit "action_resolution_fail",
       VInt (count (fun turn => existsb (names "resolution") turn) log)) ]
  ++ map (fun kind =>
            (Lit kind, VInt (count (fun turn => existsb (names kind) turn) log)))
         (drop 2 Scorer.fail_types)
  ++ [ (Lit "turn_limit_loss",
          VInt (Z.b2z (existsb is_turn_limit_reached events)));
       (Lit "turns_over_par",
          if finished then VInt turns_over_par else VFloat nan);
       (Lit "turn_ratio", VFloat (if finished then turn_ratio else nan));
       (Lit "achieved_goal_ratio", VFloat achieved_ratio);
       (Std BENCH_SCORE,
          VFloat (if finished then PrimFloat.mul achieved_ratio turn_ratio
                  else nan));
       (Std METRIC_ABORTED,
          VInt (Z.b2z (negb (String.eqb (marker_after "" events) ""))));
       (Std METRIC_SUCCESS, VInt (Z.b2z finished));
       (Std METRIC_LOSE, VInt (Z.b2z (negb finished))) ].

Definition is_goal_status (a : action) : bool :=
  match a with goal_status _ _ => true | _ => false end.

(** The logs on which scoring runs to its end: every turn carries a
    [goal_status] event, there is at least one turn, and the latest
    [adventure_info] has [max_turns <> optimal_turns] and a non-zero
    [goal_count]. *)
Definition scorable (log : Log.turns) : bool :=
  forallb (existsb is_goal_status) log &&
  match log, latest as_adventure_info (concat log) with
  | _ :: _, Some info =>
      negb (max_turns info =? optimal_turns info) && negb (goal_count info =? 0)
  | _, _ => false
  end.

(** The log with one more event at the end of its last turn. *)
Fixpoint append_last (log : Log.turns) (a : action) : Log.turns :=
  match log with
  | [] => []
  | turn :: rest =>
      match rest with
      | [] => [turn ++ [a]]
      | _ :: _ => turn :: append_last rest a
      end
  end.

(** What scoring a log comes to: the exception raised, or the scores. *)
Definition outcome (log : Log.turns) : exn + Scores :=
  match rows_from 0 "" log with
  | None => inl (KeyError "goal_score")
  | Some rows =>
      match log with
      | [] => inl ZeroDivisionError
      | _ :: _ =>
          match latest as_adventure_info (concat log) with
          | None => inl (KeyError "optimal_turns")
          | Some info =>
              if decide (max_turns info - optimal_turns info = 0)
              then inl ZeroDivisionError
              else if decide (goal_count info = 0)
              then inl ZeroDivisionError
              else inr {| turn_scores_log := rows;
                          episode_scores_log := episode_rows log info |}
          end
      end
  end.

(** The events [compute_scores] looks at: those of the six types tested
    at master.py:226-246. *)
Definition read_by_scorer (a : action) : bool :=
  match a with
  | other _ | adventure_finished _ => false
  | _ => true
  end.

(** The log without the events the Scorer does not look at. *)
Definition without_unread (log : Log.turns) : Log.turns :=
  map (List.filter read_by_scorer) log.

(** A store of scores followed by the scores logged after it. *)
Definition scores_app (s1 s2 : Scores) : Scores :=
  {| turn_scores_log := turn_scores_log s1 ++ turn_scores_log s2;
     episode_scores_log := episode_scores_log s1 ++ episode_scores_log s2 |}.

(** The numbers of a log are small enough for the floats of the model to
    be those of Python: with fewer than [2^52] turns and final goals and
    parameters below [2^52] in magnitude, the operands of every division
    convert exactly and no quotient overflows. *)
Definition small (z : Z) : bool := Z.abs z <? 2 ^ 52.

Definition float_exact (log : Log.turns) : bool :=
  small (Z.of_nat (length log)) &&
  match latest as_adventure_info (concat log) with
  | Some info =>
      small (max_turns info) && small (optimal_turns info) &&
      small (goal_count info)
  | None => true
  end &&
  small (Z.of_nat (length (fst (default ([], false)
                                  (latest as_game_result (concat log)))))).

End Reading.

(** ** Concrete logs and a concrete game *)

Module Examples.
Import Log.

Definition info_10_6_4 : AdventureInfo :=
  {| variant := "basic"; max_turns := 10; optimal_turns := 6; goal_count := 4 |}.

Definition plain_turn : list action :=
  [ other "look"; goal_status ["A"] 0 ].

(** Eight turns, three of four goals reached, reported as finished. *)
Definition finished_log : Log.turns :=
  [ adventure_info info_10_6_4 :: plain_turn;
    [ goal_status ["A"] 1 ];
    plain_turn;
    [ action_fail "parsing" "undefined_type"; goal_status ["A"] 0 ];
    [ goal_status ["A"; "B"] 1 ];
    plain_turn;
    plain_turn;
    [ goal_status ["A"; "B"; "C"] 1; adventure_finished ["A"; "B"; "C"];
      game_result ["A"; "B"; "C"] true ] ].

(** The same eight turns, ended by the turn limit. *)
Definition exhausted_log : Log.turns :=
  [ adventure_info info_10_6_4 :: plain_turn;
    [ goal_status ["A"] 1 ];
    plain_turn;
    [ action_fail "parsing" "undefined_type"; goal_status ["A"] 0 ];
    [ goal_status ["A"; "B"] 1 ];
    plain_turn;
    plain_turn;
    [ goal_status ["A"; "B"; "C"] 1; turn_limit_reached 8;
      game_result ["A"; "B"; "C"] false ] ].

Definition info_par_is_max : AdventureInfo :=
  {| variant := "basic"; max_turns := 1; optimal_turns := 1; goal_count := 2 |}.

(** One turn under a budget of one turn that is also the optimum: an
    unfinished episode, ended by the turn limit. *)
Definition exhausted_at_par_log : Log.turns :=
  [ [ adventure_info info_par_is_max; goal_status ["A"] 1;
      turn_limit_reached 1; game_result ["A"] false ] ].

(** The same configuration, with both goals reached in that turn. *)
Definition finished_at_par_log : Log.turns :=
  [ [ adventure_info info_par_is_max; goal_status ["A"; "B"] 2;
      adventure_finished ["A"; "B"]; game_result ["A"; "B"] true ] ].

(** A second turn whose response lacks the command marker: the Game
    Master records the violation and the result, and no goal status. *)
Definition aborted_log : Log.turns :=
  [ [ adventure_info info_10_6_4; goal_status ["A"] 1 ];
    [ invalid_format "command_tag_missing";
      invalid_format "command_tag_missing"; game_result ["A"] false ] ].

(** The exhausted episode, its log cut before the terminal result. *)
Definition unclosed_log : Log.turns :=
  [ adventure_info info_10_6_4 :: plain_turn;
    [ goal_status ["A"] 1 ];
    plain_turn;
    [ action_fail "parsing" "undefined_type"; goal_status ["A"] 0 ];
    [ goal_status ["A"; "B"] 1 ];
    plain_turn;
    plain_turn;
    [ goal_status ["A"; "B"; "C"] 1; turn_limit_reached 8 ] ].

(** A log in which a violation is on record from the second turn on, and
    every turn still carries a goal status. *)
Definition violation_log : Log.turns :=
  [ [ adventure_info info_10_6_4; goal_status ["A"] 1 ];
    [ invalid_format "next_actions_missing"; goal_status ["A"] 0 ];
    [ goal_status ["A"] 0; game_result ["A"] false ] ].

(** A log whose two turns record violations of different categories. *)
Definition mixed_log : Log.turns :=
  [ [ adventure_info info_10_6_4; invalid_format "command_tag_missing";
      goal_status [] 0 ];
    [ invalid_format "next_actions_missing"; goal_status [] 0;
      game_result [] false ] ].

(** A log whose second turn holds an [invalid_format] event of empty
    content, after a violation in the first. *)
Definition cleared_log : Log.turns :=
  [ [ adventure_info info_10_6_4; invalid_format "command_tag_missing";
      goal_status [] 0 ];
    [ invalid_format ""; goal_status [] 0; game_result [] false ] ].

(** A game of one goal, a world that never changes, and a player whose
    response lacks the command marker. *)
Definition one_goal_game : Master.GameInstance :=
  {| Master.variant := "basic"; Master.max_turns := 10;
     Master.optimal_turns := 6; Master.goal_state := ["A"];
     Master.prompt := "Play." |}.


Definition still_world (_ : Master.GameInstance) : unit := tt.

Definition still_room (_ : unit) : string := "You are in a kitchen.".

Definition still_action (world : unit) (_ : string)
  : unit * (gset string * string * option Master.Fail) :=
  (world, (∅, "Nothing happens.", None)).

Definition unmarked_player (_ : list (string * string)) : string :=
  "look around".

End Examples.

(** ** The states the Game Master goes through *)

(** Line 164: the input of the interpreter, taken from the player's last
    message. *)
Definition if_input_of (last_action : string) : string :=
  strip (default "" (head (split newline (tail last_action)))).

Module Reach.
Import Master.

(** The two categories of format violation. *)
Definition category (c : string) : Prop :=
  c = "command_tag_missing" \/ c = "next_actions_missing".

(** The goal scores of the [goal_status] events, added up. *)
Definition goal_scores (events : list Log.action) : Z :=
  sum (omap Reading.as_goal_score events).

Section Calls.
Context {IF : Type}.
Variable BasicIFInterpreter : GameInstance -> IF.
Variable get_full_room_desc : IF -> string.
Variable process_action : IF -> string -> IF * (gset string * string * option Fail).
Variable self_player : nat.
Variable gi : GameInstance.

(** One call of a hook of the Game Master, with any arguments, or one of
    the steps of the recorder between hooks (the next turn opened, a
    message added to the history, an event of a type the Scorer does not
    read); a hook that raises makes no step. *)
Inductive hook_call : @state IF -> @state IF -> Prop :=
  | call_before_game st :
      hook_call st (_on_before_game get_full_room_desc st)
  | call_validate p utterance st :
      hook_call st (snd (_validate_player_response p utterance st))
  | call_parse p utterance r st st' :
      _on_parse_response p utterance st = inr (r, st') -> hook_call st st'
  | call_proceed st :
      hook_call st (snd (_does_game_proceed st))
  | call_after_turn turn_idx st st' :
      _on_after_turn process_action turn_idx st = inr (tt, st') ->
      hook_call st st'
  | call_after_game st :
      hook_call st (_on_after_game st)
  | call_next_turn st :
      hook_call st (log_next_turn st)
  | call_add_message role content st :
      hook_call st (add_message role content st)
  | call_log_message text st :
      hook_call st (log_message_to_self text st).

(** The states of a Game Master set up for [gi], after any number of such
    calls in any order. *)
Inductive reachable : @state IF -> Prop :=
  | reach_setup : reachable (_on_setup BasicIFInterpreter self_player gi)
  | reach_call st st' : reachable st -> hook_call st st' -> reachable st'.

(** What the hooks write to the log for [gi]: a violation with its
    category, the turn limit with [max_turns], with a successful finish as
    many goals as are required, and no [adventure_info] event (line 72 hands
    that record to [log_key]; the [log_to_self] of line 71 is commented
    out). *)
Definition well_logged (a : Log.action) : Prop :=
  match a with
  | Log.adventure_info _ => False
  | Log.invalid_format content => category content
  | Log.turn_limit_reached content => content = max_turns gi
  | Log.adventure_finished goals =>
      length goals = size (list_to_set (goal_state gi) : gset string)
  | Log.game_result goals true =>
      length goals = size (list_to_set (goal_state gi) : gset string)
  | _ => True
  end.

(** What every call keeps true. *)
Record consistent (st : @state IF) : Prop := {
  kept_instance : game_instance st = gi;
  kept_variant : if_variant st = variant gi;
  kept_player : player st = self_player;
  kept_required : goals_required st = list_to_set (goal_state gi);
  kept_count : goals_required_cnt st = size (goals_required st);
  kept_flag :
    (invalid_format st = "" /\ success st = true) \/
    (category (invalid_format st) /\ success st = false);
  kept_turns : Forall (eq true) (turns st);
  kept_budget : Z.of_nat (length (turns st)) <= Z.max 0 (max_turns gi);
  kept_finished : finished st = true -> goals_achieved st = goals_required st;
  kept_log : Forall well_logged (concat (log (recorder st)));
  kept_scores :
    goal_scores (concat (log (recorder st))) =
    Z.of_nat (size (goals_achieved st));
  kept_statuses :
    length (omap Reading.as_goal_score (concat (log (recorder st)))) =
    length (turns st)
}.

End Calls.

End Reach.

(** ** A game that is won in its first turn *)

Module Won.
Import Master.

Definition winning_action (world : unit) (_ : string)
  : unit * (gset string * string * option Fail) :=
  (world, ({["A"]}, "You did it.", None)).

(** The game of one goal, set up and given its first message. *)
Definition opened : @state unit :=
  _on_before_game Examples.still_room
    (_on_setup Examples.still_world 0 Examples.one_goal_game).

(** The same after a turn in which the interpreter reports the goal. *)
Definition after_first_turn : @state unit :=
  match _on_after_turn winning_action 0 opened with
  | inr (_, st) => st
  | inl _ => opened
  end.

(** The same after the continuation check that follows. *)
Definition won : @state unit := snd (_does_game_proceed after_first_turn).

(** The opened game after a response without the command marker. *)
Definition violated : @state unit :=
  snd (_validate_player_response 0 "look around" opened).



End Won.

(** * Properties *)

(** ** The monad, step by step *)

Section Steps.
Context {S : Type}.

Lemma bind_ret {A B} (a : A) (k : A -> SE S B) (s : S) :
  bind (ret a) k s = k a s.
Proof. reflexivity. Qed.

Lemma bind_raise {A B} (e : exn) (k : A -> SE S B) (s : S) :
  bind (raise e) k s = inl e.
Proof. reflexivity. Qed.

Lemma bind_modify {B} (f : S -> S) (k : unit -> SE S B) (s : S) :
  bind (modify f) k s = k tt (f s).
Proof. reflexivity. Qed.

Lemma bind_bind {A B C} (m : SE S A) (k : A -> SE S B) (h : B -> SE S C) (s : S) :
  bind (bind m k) h s = bind m (fun a => bind (k a) h) s.
Proof. unfold bind. destruct (m s) as [e | [a s']]; reflexivity. Qed.

Lemma bind_getitem_Some {B} (d : gmap string Z) (k : string) (v : Z)
    (h : Z -> SE S B) (s : S) :
  d !! k = Some v -> bind (getitem d k) h s = h v s.
Proof. intros E. unfold getitem. rewrite E. reflexivity. Qed.

Lemma bind_getitem_None {B} (d : gmap string Z) (k : string)
    (h : Z -> SE S B) (s : S) :
  d !! k = None -> bind (getitem d k) h s = inl (KeyError k).
Proof. intros E. unfold getitem. rewrite E. reflexivity. Qed.

Lemma bind_truediv {B} (a b : Z) (h : float -> SE S B) (s : S) :
  b <> 0 ->
  bind (truediv a b) h s = h (PrimFloat.div (float_of_Z a) (float_of_Z b)) s.
Proof. intros Hb. unfold truediv. destruct (decide (b = 0)); [lia | reflexivity]. Qed.

Lemma bind_truediv_zero {B} (a : Z) (h : float -> SE S B) (s : S) :
  bind (truediv a 0) h s = inl ZeroDivisionError.
Proof. reflexivity. Qed.

(** A comprehension over dicts that all hold the key collects the values. *)
Lemma comprehension_getitem (k : string) (ds : list (gmap string Z))
    (vs : list Z) (s : S) :
  Forall2 (fun d v => d !! k = Some v) ds vs ->
  comprehension (fun d => getitem d k) ds s = inr (vs, s).
Proof.
  induction 1 as [| d v ds vs Hd _ IH]; [reflexivity |].
  cbn [comprehension]. rewrite (bind_getitem_Some _ _ _ _ _ Hd).
  unfold bind at 1. rewrite IH. reflexivity.
Qed.

End Steps.

(** ** Sums of flags *)

Lemma fold_add_shift (xs : list Z) (a : Z) :
  fold_left Z.add xs a = a + fold_left Z.add xs 0.
Proof.
  revert a. induction xs as [| x xs IH]; intros a; cbn [fold_left].
  - lia.
  - rewrite (IH (a + x)), (IH (0 + x)). lia.
Qed.

Lemma sum_cons (x : Z) (xs : list Z) : sum (x :: xs) = x + sum xs.
Proof. unfold sum. cbn [fold_left]. rewrite fold_add_shift. lia. Qed.

Lemma sum_flags {A} (p : A -> bool) (l : list A) :
  sum (map (fun x => Z.b2z (p x)) l) = Reading.count p l.
Proof.
  unfold Reading.count. induction l as [| x l IH]; [reflexivity |].
  cbn [map]. rewrite sum_cons, IH, filter_cons.
  destruct (p x); cbn [Z.b2z].
  - rewrite decide_True by reflexivity. cbn [length]. lia.
  - rewrite decide_False by discriminate. lia.
Qed.

Lemma sum_ones {A} (l : list A) :
  sum (map (fun _ => 1) l) = Z.of_nat (length l).
Proof.
  induction l as [| x l IH]; [reflexivity |].
  cbn [map length]. rewrite sum_cons, IH. lia.
Qed.

(** ** The latest event of a type *)

Section Latest.
Import Log Reading.
Context {A : Type} (pick : action -> option A).

Lemma latest_nil : latest pick [] = None.
Proof. reflexivity. Qed.

Lemma latest_cons (a : action) (events : list action) :
  latest pick (a :: events) =
  match latest pick events with
  | Some x => Some x
  | None => pick a
  end.
Proof.
  unfold latest. cbn [omap list_omap]. destruct (pick a) as [x |].
  - rewrite last_cons. destruct (last (omap pick events)); reflexivity.
  - destruct (last (omap pick events)); reflexivity.
Qed.

Lemma latest_app (l1 l2 : list action) :
  latest pick (l1 ++ l2) =
  match latest pick l2 with
  | Some x => Some x
  | None => latest pick l1
  end.
Proof.
  induction l1 as [| a l1 IH]; cbn [app].
  - rewrite latest_nil. destruct (latest pick l2); reflexivity.
  - rewrite !latest_cons, IH. destruct (latest pick l2); reflexivity.
Qed.

Lemma latest_none_iff (events : list action) :
  latest pick events = None <-> Forall (fun a => pick a = None) events.
Proof.
  induction events as [| a events IH].
  - split; [constructor | reflexivity].
  - rewrite latest_cons, Forall_cons. destruct (latest pick events) as [x |].
    + split; [discriminate |]. intros [_ H]. apply IH in H. discriminate.
    + split; [intros H; split; [exact H | apply IH; reflexivity] | tauto].
Qed.

Lemma latest_Some_In (events : list action) (x : A) :
  latest pick events = Some x -> exists a, In a events /\ pick a = Some x.
Proof.
  induction events as [| a events IH]; [discriminate |].
  rewrite latest_cons. destruct (latest pick events) as [y |].
  - intros Hy. destruct (IH Hy) as (b & Hb & Hpick).
    exists b. split; [right; exact Hb | exact Hpick].
  - intros Ha. exists a. split; [left; reflexivity | exact Ha].
Qed.

Lemma latest_is_Some (events : list action) (a : action) (x : A) :
  In a events -> pick a = Some x -> is_Some (latest pick events).
Proof.
  intros Hin Hpick. destruct (latest pick events) as [y |] eqn:E; [eauto |].
  apply latest_none_iff in E. rewrite Forall_forall in E.
  apply list_elem_of_In in Hin. rewrite (E a Hin) in Hpick. discriminate.
Qed.

End Latest.

(** ** What the loop over a turn's events leaves in the frame *)

Section ReadTurn.
Import Log Reading Scorer.

Lemma fold_on_event_latest {A B} (proj : frame -> A) (pick : action -> option B)
    (inj : B -> A) :
  (forall f a, proj (on_event f a) =
               match pick a with Some x => inj x | None => proj f end) ->
  forall events f,
    proj (fold_left on_event events f) =
    match latest pick events with Some x => inj x | None => proj f end.
Proof.
  intros Hstep. induction events as [| a events IH]; intros f.
  - reflexivity.
  - cbn [fold_left]. rewrite IH, Hstep, latest_cons.
    destruct (latest pick events), (pick a); reflexivity.
Qed.

Lemma fold_on_event_kept {A} (proj : frame -> A) :
  (forall f a, proj (on_event f a) = proj f) ->
  forall events f, proj (fold_left on_event events f) = proj f.
Proof.
  intros Hstep. induction events as [| a events IH]; intros f.
  - reflexivity.
  - cbn [fold_left]. rewrite IH. apply Hstep.
Qed.

Lemma events_invalid_format (events : list action) (f : frame) :
  invalid_format (fold_left on_event events f) =
  marker_after (invalid_format f) events.
Proof.
  unfold marker_after.
  rewrite (fold_on_event_latest invalid_format as_invalid_format id).
  - destruct (latest as_invalid_format events); reflexivity.
  - intros f' []; reflexivity.
Qed.

Lemma events_adventure_info (events : list action) (f : frame) :
  adventure_info (fold_left on_event events f) =
  match latest as_adventure_info events with
  | Some content => Some content
  | None => adventure_info f
  end.
Proof.
  apply (fold_on_event_latest adventure_info as_adventure_info Some).
  intros f' []; reflexivity.
Qed.

Lemma events_game_result (events : list action) (f : frame) :
  (final_goals_achieved (fold_left on_event events f),
   successfully_finished (fold_left on_event events f)) =
  default (final_goals_achieved f, successfully_finished f)
          (latest as_game_result events).
Proof.
  rewrite (fold_on_event_latest
             (fun f => (final_goals_achieved f, successfully_finished f))
             as_game_result id).
  - destruct (latest as_game_result events); reflexivity.
  - intros f' []; reflexivity.
Qed.

Lemma events_turn_limit_loss (events : list action) (f : frame) :
  turn_limit_loss (fold_left on_event events f) =
  turn_limit_loss f || existsb is_turn_limit_reached events.
Proof.
  revert f. induction events as [| a events IH]; intros f.
  - cbn. rewrite orb_false_r. reflexivity.
  - cbn [fold_left existsb]. rewrite IH.
    destruct a; cbn; rewrite ?orb_true_r; reflexivity.
Qed.

Lemma events_turn_scores (events : list action) (f : frame) :
  turn_scores (fold_left on_event events f) = turn_scores f.
Proof. apply (fold_on_event_kept turn_scores). intros f' []; reflexivity. Qed.

Lemma events_turn_fails (events : list action) (f : frame) :
  turn_fails (fold_left on_event events f) = turn_fails f.
Proof. apply (fold_on_event_kept turn_fails). intros f' []; reflexivity. Qed.

Lemma events_goal_score (events : list action) (f : frame) :
  turn_score (fold_left on_event events f) !! "goal_score" =
  match latest as_goal_score events with
  | Some g => Some g
  | None => turn_score f !! "goal_score"
  end.
Proof.
  apply (fold_on_event_latest (fun f => turn_score f !! "goal_score")
           as_goal_score Some).
  intros f' []; try reflexivity. cbn. apply lookup_insert_eq.
Qed.

Lemma events_turn_score_other (k : string) (events : list action) (f : frame) :
  k <> "goal_score" ->
  turn_score (fold_left on_event events f) !! k = turn_score f !! k.
Proof.
  intros Hk. apply (fold_on_event_kept (fun f => turn_score f !! k)).
  intros f' []; try reflexivity. cbn. apply lookup_insert_ne. congruence.
Qed.

(** An [action_fail] event writes 1 under its phase and under its fail
    type, and nothing else; the other events leave the dict alone. *)
Lemma on_event_turn_fail (f : frame) (a : action) (k : string) :
  turn_fail (on_event f a) !! k =
  if names k a then Some 1 else turn_fail f !! k.
Proof.
  destruct a; try reflexivity. cbn.
  rewrite !lookup_insert.
  destruct (String.eqb_spec phase k), (String.eqb_spec fail_type k);
    repeat case_decide; cbn; congruence.
Qed.

Lemma events_turn_fail (k : string) (events : list action) (f : frame) :
  turn_fail (fold_left on_event events f) !! k =
  if existsb (names k) events then Some 1 else turn_fail f !! k.
Proof.
  revert f. induction events as [| a events IH]; intros f.
  - reflexivity.
  - cbn [fold_left existsb]. rewrite IH, on_event_turn_fail.
    destruct (names k a), (existsb (names k) events); reflexivity.
Qed.

End ReadTurn.

(** ** One turn of the Scorer *)

Section ScoreTurn.
Import Log Reading Scorer.

Ltac frame_simpl :=
  cbn [adventure_info turn_scores turn_fails invalid_format turn_limit_loss
       successfully_finished final_goals_achieved turn_score turn_fail
       set_adventure_info set_invalid_format set_turn_limit_loss
       set_game_result set_turn_score set_turn_fail append_turn].

Ltac open_read_turn :=
  unfold read_turn; cbv zeta; destruct (truthy _); frame_simpl.

Lemma fresh_turn_fail (k : string) :
  In k fail_types ->
  (list_to_map ((fun fail_type => (fail_type, 0)) <$> fail_types)
     : gmap string Z) !! k = Some 0.
Proof.
  cbn [In fail_types]. intros H.
  repeat (destruct H as [<- | H]; [vm_compute; reflexivity |]).
  destruct H.
Qed.

Lemma read_turn_invalid_format (turn : list action) (f : frame) :
  invalid_format (read_turn turn f) = marker_after (invalid_format f) turn.
Proof. open_read_turn; rewrite events_invalid_format; reflexivity. Qed.

Lemma read_turn_adventure_info (turn : list action) (f : frame) :
  adventure_info (read_turn turn f) =
  match latest as_adventure_info turn with
  | Some content => Some content
  | None => adventure_info f
  end.
Proof. open_read_turn; rewrite events_adventure_info; reflexivity. Qed.

Lemma read_turn_game_result (turn : list action) (f : frame) :
  (final_goals_achieved (read_turn turn f),
   successfully_finished (read_turn turn f)) =
  default (final_goals_achieved f, successfully_finished f)
          (latest as_game_result turn).
Proof. open_read_turn; rewrite events_game_result; reflexivity. Qed.

Lemma read_turn_turn_limit_loss (turn : list action) (f : frame) :
  turn_limit_loss (read_turn turn f) =
  turn_limit_loss f || existsb is_turn_limit_reached turn.
Proof. open_read_turn; rewrite events_turn_limit_loss; reflexivity. Qed.

Lemma read_turn_turn_scores (turn : list action) (f : frame) :
  turn_scores (read_turn turn f) = turn_scores f.
Proof. open_read_turn; rewrite events_turn_scores; reflexivity. Qed.

Lemma read_turn_turn_fails (turn : list action) (f : frame) :
  turn_fails (read_turn turn f) = turn_fails f.
Proof. open_read_turn; rewrite events_turn_fails; reflexivity. Qed.

Lemma read_turn_request_count (turn : list action) (f : frame) :
  turn_score (read_turn turn f) !! "request_count" = Some 1.
Proof.
  open_read_turn;
    rewrite !lookup_insert_ne by discriminate;
    rewrite events_turn_score_other by discriminate; reflexivity.
Qed.

Lemma read_turn_parsed (turn : list action) (f : frame) :
  turn_score (read_turn turn f) !! "parsed_request_count" =
  Some (Z.b2z (String.eqb (marker_after (invalid_format f) turn) "")).
Proof.
  unfold read_turn. cbv zeta. unfold truthy.
  rewrite events_invalid_format. frame_simpl.
  destruct (String.eqb _ ""); cbn [negb]; frame_simpl; apply lookup_insert_eq.
Qed.

Lemma read_turn_violated (turn : list action) (f : frame) :
  turn_score (read_turn turn f) !! "violated_request_count" =
  Some (Z.b2z (negb (String.eqb (marker_after (invalid_format f) turn) ""))).
Proof.
  unfold read_turn. cbv zeta. unfold truthy.
  rewrite events_invalid_format. frame_simpl.
  destruct (String.eqb _ ""); cbn [negb]; frame_simpl;
    (rewrite lookup_insert_ne by discriminate); apply lookup_insert_eq.
Qed.

Lemma read_turn_goal_score (turn : list action) (f : frame) :
  turn_score (read_turn turn f) !! "goal_score" = latest as_goal_score turn.
Proof.
  open_read_turn;
    rewrite !lookup_insert_ne by discriminate;
    rewrite events_goal_score; destruct (latest as_goal_score turn); reflexivity.
Qed.

Lemma read_turn_flag (k : string) (turn : list action) (f : frame) :
  In k fail_types ->
  turn_fail (read_turn turn f) !! k = Some (flag turn k).
Proof.
  intros Hk. unfold flag.
  open_read_turn; rewrite events_turn_fail; frame_simpl;
    rewrite (fresh_turn_fail k Hk); destruct (existsb _ turn); reflexivity.
Qed.

Lemma bind_log_turn_score {B} (turn_idx : nat) (name : score_name) (v : value)
    (k : unit -> SE Scores B) (s : Scores) :
  bind (log_turn_score turn_idx name v) k s =
  k tt {| turn_scores_log := turn_scores_log s ++ [(turn_idx, name, v)];
          episode_scores_log := episode_scores_log s |}.
Proof. reflexivity. Qed.

(** Lines 271-272: the loop over the failure sub-kinds. *)
Lemma log_turn_flags (turn_idx : nat) (d : gmap string Z) (v : string -> Z)
    (kinds : list string) (s : Scores) :
  (forall k, In k kinds -> d !! k = Some (v k)) ->
  for_each (fun fail_type (_ : unit) =>
              x <- getitem d fail_type ;;
              log_turn_score turn_idx fail_type (VInt x)) kinds tt s =
  inr (tt, {| turn_scores_log :=
                turn_scores_log s ++
                map (fun kind => (turn_idx, Lit kind, VInt (v kind))) kinds;
              episode_scores_log := episode_scores_log s |}).
Proof.
  revert s. induction kinds as [| k kinds IH]; intros s Hd.
  - cbn [for_each map]. rewrite app_nil_r. destruct s; reflexivity.
  - cbn [for_each map]. rewrite bind_bind.
    rewrite (bind_getitem_Some _ _ _ _ _ (Hd k (or_introl eq_refl))).
    rewrite bind_log_turn_score.
    rewrite IH by (intros k' Hk'; apply Hd; right; exact Hk').
    cbn [turn_scores_log episode_scores_log]. rewrite <- app_assoc. reflexivity.
Qed.

(** The body of the loop over the turns: it raises [KeyError] on a turn
    without a [goal_status] event, and otherwise logs the turn's rows. *)
Lemma score_turn_spec (turn_idx : nat) (turn : list action) (f : frame)
    (s : Scores) :
  score_turn turn_idx turn f s =
  match latest as_goal_score turn with
  | None => inl (KeyError "goal_score")
  | Some g =>
      inr (append_turn (read_turn turn f),
           {| turn_scores_log :=
                turn_scores_log s ++
                turn_rows turn_idx (marker_after (invalid_format f) turn) turn g;
              episode_scores_log := episode_scores_log s |})
  end.
Proof.
  unfold score_turn. cbv zeta.
  pose proof (read_turn_invalid_format turn f) as Hm.
  pose proof (read_turn_request_count turn f) as Hrc.
  pose proof (read_turn_parsed turn f) as Hp.
  pose proof (read_turn_violated turn f) as Hv.
  pose proof (read_turn_goal_score turn f) as Hg.
  pose proof (fun k => read_turn_flag k turn f) as Hfl.
  set (m := marker_after (invalid_format f) turn) in *.
  generalize dependent (read_turn turn f). intros f1 Hm Hrc Hp Hv Hg Hfl.
  rewrite Hm.
  rewrite (bind_getitem_Some _ _ _ _ _ Hrc), bind_log_turn_score.
  rewrite (bind_getitem_Some _ _ _ _ _ Hp), bind_log_turn_score.
  rewrite (bind_getitem_Some _ _ _ _ _ Hv), bind_log_turn_score.
  cbn [turn_scores_log episode_scores_log].
  assert (Hcat :
    forall (k : unit -> SE Scores frame) s0,
      bind (if String.eqb m "command_tag_missing"
            then log_turn_score turn_idx "command_tag_missing" (VInt 1) ;;;
                 log_turn_score turn_idx "next_actions_missing" (VInt 0)
            else if String.eqb m "next_actions_missing"
            then log_turn_score turn_idx "command_tag_missing" (VInt 0) ;;;
                 log_turn_score turn_idx "next_actions_missing" (VInt 1)
            else log_turn_score turn_idx "command_tag_missing" (VInt 0) ;;;
                 log_turn_score turn_idx "next_actions_missing" (VInt 0)) k s0 =
      k tt {| turn_scores_log :=
                turn_scores_log s0 ++
                [ (turn_idx, Lit "command_tag_missing",
                     VInt (Z.b2z (String.eqb m "command_tag_missing")));
                  (turn_idx, Lit "next_actions_missing",
                     VInt (Z.b2z (String.eqb m "next_actions_missing"))) ];
              episode_scores_log := episode_scores_log s0 |}).
  { intros k s0.
    destruct (String.eqb_spec m "command_tag_missing") as [-> | _];
      [| destruct (String.eqb m "next_actions_missing")];
      cbv [bind log_turn_score modify]; cbn [turn_scores_log episode_scores_log];
      rewrite <- app_assoc; reflexivity. }
  rewrite Hcat. clear Hcat. cbn [turn_scores_log episode_scores_log].
  rewrite (bind_getitem_Some _ _ _ _ _ (Hfl "parsing" ltac:(cbn; tauto))).
  rewrite bind_log_turn_score.
  rewrite (bind_getitem_Some _ _ _ _ _ (Hfl "resolution" ltac:(cbn; tauto))).
  rewrite bind_log_turn_score.
  cbn [turn_scores_log episode_scores_log].
  unfold bind at 1.
  rewrite (log_turn_flags turn_idx (turn_fail f1) (flag turn))
    by (intros k Hk; apply Hfl; cbn in Hk |- *; tauto).
  cbn [turn_scores_log episode_scores_log].
  unfold getitem. rewrite Hg. destruct (latest as_goal_score turn) as [g |].
  - rewrite bind_ret, bind_log_turn_score.
    unfold ret, turn_rows, turn_metrics.
    cbn [turn_scores_log episode_scores_log].
    rewrite <- !app_assoc. reflexivity.
  - reflexivity.
Qed.

End ScoreTurn.

(** ** The loop over the turns *)

Section ScoreTurns.
Import Log Reading Scorer.

Lemma score_turns_spec (turns : Log.turns) (turn_idx : nat) (f : frame)
    (s : Scores) :
  score_turns turn_idx turns f s =
  match rows_from turn_idx (invalid_format f) turns with
  | None => inl (KeyError "goal_score")
  | Some rows =>
      inr (read_turns turns f,
           {| turn_scores_log := turn_scores_log s ++ rows;
              episode_scores_log := episode_scores_log s |})
  end.
Proof.
  revert turn_idx f s. induction turns as [| turn rest IH]; intros turn_idx f s.
  - cbn. rewrite app_nil_r. destruct s; reflexivity.
  - cbn [score_turns rows_from read_turns fold_left]. unfold bind.
    rewrite score_turn_spec.
    destruct (latest as_goal_score turn) as [g |]; [| reflexivity].
    rewrite IH. cbn [invalid_format append_turn].
    rewrite read_turn_invalid_format.
    destruct (rows_from _ _ rest) as [rows |]; [| reflexivity].
    cbn [turn_scores_log episode_scores_log]. rewrite <- app_assoc. reflexivity.
Qed.

Lemma marker_after_app (m : string) (l1 l2 : list action) :
  marker_after m (l1 ++ l2) = marker_after (marker_after m l1) l2.
Proof.
  unfold marker_after. rewrite latest_app.
  destruct (latest as_invalid_format l2); reflexivity.
Qed.

Lemma read_turns_cons (turn : list action) (rest : Log.turns) (f : frame) :
  read_turns (turn :: rest) f = read_turns rest (append_turn (read_turn turn f)).
Proof. reflexivity. Qed.

Lemma read_turns_invalid_format (turns : Log.turns) (f : frame) :
  invalid_format (read_turns turns f) =
  marker_after (invalid_format f) (concat turns).
Proof.
  revert f. induction turns as [| turn rest IH]; intros f; [reflexivity |].
  rewrite read_turns_cons, IH. cbn [concat invalid_format append_turn].
  rewrite read_turn_invalid_format, marker_after_app. reflexivity.
Qed.

Lemma read_turns_adventure_info (turns : Log.turns) (f : frame) :
  adventure_info (read_turns turns f) =
  match latest as_adventure_info (concat turns) with
  | Some content => Some content
  | None => adventure_info f
  end.
Proof.
  revert f. induction turns as [| turn rest IH]; intros f; [reflexivity |].
  rewrite read_turns_cons, IH. cbn [concat adventure_info append_turn].
  rewrite read_turn_adventure_info, latest_app.
  destruct (latest as_adventure_info (concat rest)); reflexivity.
Qed.

Lemma read_turns_game_result (turns : Log.turns) (f : frame) :
  (final_goals_achieved (read_turns turns f),
   successfully_finished (read_turns turns f)) =
  default (final_goals_achieved f, successfully_finished f)
          (latest as_game_result (concat turns)).
Proof.
  revert f. induction turns as [| turn rest IH]; intros f; [reflexivity |].
  rewrite read_turns_cons, IH.
  cbn [concat final_goals_achieved successfully_finished append_turn].
  rewrite read_turn_game_result, latest_app.
  destruct (latest as_game_result (concat rest)); reflexivity.
Qed.

Lemma read_turns_turn_limit_loss (turns : Log.turns) (f : frame) :
  turn_limit_loss (read_turns turns f) =
  turn_limit_loss f || existsb is_turn_limit_reached (concat turns).
Proof.
  revert f. induction turns as [| turn rest IH]; intros f.
  - cbn. rewrite orb_false_r. reflexivity.
  - rewrite read_turns_cons, IH. cbn [concat turn_limit_loss append_turn].
    rewrite read_turn_turn_limit_loss, existsb_app, orb_assoc. reflexivity.
Qed.

Lemma read_turns_turn_scores (turns : Log.turns) (f : frame) :
  exists ds,
    turn_scores (read_turns turns f) = turn_scores f ++ ds /\
    Forall2 counts_of ds (markers (invalid_format f) turns).
Proof.
  revert f. induction turns as [| turn rest IH]; intros f.
  - exists []. split; [cbn; rewrite app_nil_r; reflexivity | constructor].
  - rewrite read_turns_cons.
    destruct (IH (append_turn (read_turn turn f))) as (ds & Hds & Hall).
    exists (turn_score (read_turn turn f) :: ds). split.
    + rewrite Hds. cbn [turn_scores append_turn].
      rewrite read_turn_turn_scores, <- app_assoc. reflexivity.
    + cbn [markers]. constructor.
      * repeat split;
          [apply read_turn_request_count | apply read_turn_parsed
          | apply read_turn_violated].
      * cbn [invalid_format append_turn] in Hall.
        rewrite read_turn_invalid_format in Hall. exact Hall.
Qed.

Lemma read_turns_turn_fails (turns : Log.turns) (f : frame) :
  exists ds,
    turn_fails (read_turns turns f) = turn_fails f ++ ds /\
    Forall2 flags_of ds turns.
Proof.
  revert f. induction turns as [| turn rest IH]; intros f.
  - exists []. split; [cbn; rewrite app_nil_r; reflexivity | constructor].
  - rewrite read_turns_cons.
    destruct (IH (append_turn (read_turn turn f))) as (ds & Hds & Hall).
    exists (turn_fail (read_turn turn f) :: ds). split.
    + rewrite Hds. cbn [turn_fails append_turn].
      rewrite read_turn_turn_fails, <- app_assoc. reflexivity.
    + constructor; [| exact Hall].
      intros k Hk. apply read_turn_flag. exact Hk.
Qed.

Lemma markers_length (m : string) (log : Log.turns) :
  length (markers m log) = length log.
Proof.
  revert m. induction log as [| turn rest IH]; intros m; [reflexivity |].
  cbn [markers length]. rewrite IH. reflexivity.
Qed.

End ScoreTurns.

(** ** The episode-level scores *)

Section ScoreEpisode.
Import Log Reading Scorer.

Lemma bind_log_episode_score {B} (name : score_name) (v : value)
    (k : unit -> SE Scores B) (s : Scores) :
  bind (log_episode_score name v) k s =
  k tt {| turn_scores_log := turn_scores_log s;
          episode_scores_log := episode_scores_log s ++ [(name, v)] |}.
Proof. reflexivity. Qed.

Lemma flags_column (k : string) (ds : list (gmap string Z)) (log : Log.turns) :
  In k fail_types ->
  Forall2 flags_of ds log ->
  Forall2 (fun d v => d !! k = Some v) ds (map (fun turn => flag turn k) log).
Proof.
  intros Hk. induction 1 as [| d turn ds log Hd _ IH]; cbn [map]; constructor.
  - apply Hd, Hk.
  - exact IH.
Qed.

Lemma sum_flag_column (k : string) (log : Log.turns) :
  sum (map (fun turn => flag turn k) log) =
  count (fun turn => existsb (names k) turn) log.
Proof. apply (sum_flags (fun turn => existsb (names k) turn)). Qed.

(** Lines 298-300: the loop over the failure sub-kinds. *)
Lemma log_episode_flags (ds : list (gmap string Z)) (log : Log.turns)
    (kinds : list string) (s : Scores) :
  Forall2 flags_of ds log ->
  (forall k, In k kinds -> In k fail_types) ->
  for_each (fun fail_type (_ : unit) =>
              xs <- comprehension (fun turn => getitem turn fail_type) ds ;;
              let type_fail_count := sum xs in
              log_episode_score fail_type (VInt type_fail_count)) kinds tt s =
  inr (tt, {| turn_scores_log := turn_scores_log s;
              episode_scores_log :=
                episode_scores_log s ++
                map (fun kind =>
                       (Lit kind,
                        VInt (count (fun turn => existsb (names kind) turn) log)))
                    kinds |}).
Proof.
  intros Hds. revert s. induction kinds as [| k kinds IH]; intros s Hin.
  - cbn [for_each map]. rewrite app_nil_r. destruct s; reflexivity.
  - cbn [for_each map]. rewrite bind_bind. unfold bind at 1.
    rewrite (comprehension_getitem k ds _ s
               (flags_column k ds log (Hin k (or_introl eq_refl)) Hds)).
    cbv zeta. rewrite bind_log_episode_score, sum_flag_column.
    rewrite IH by (intros k' Hk'; apply Hin; right; exact Hk').
    cbn [turn_scores_log episode_scores_log]. rewrite <- app_assoc. reflexivity.
Qed.

Lemma counts_column_request (ds : list (gmap string Z)) (ms : list string) :
  Forall2 counts_of ds ms ->
  Forall2 (fun d v => d !! "request_count" = Some v) ds (map (fun _ => 1) ms).
Proof.
  induction 1 as [| d m ds ms (H & _ & _) _ IH]; cbn [map]; constructor; assumption.
Qed.

Lemma counts_column_parsed (ds : list (gmap string Z)) (ms : list string) :
  Forall2 counts_of ds ms ->
  Forall2 (fun d v => d !! "parsed_request_count" = Some v) ds
          (map (fun m => Z.b2z (String.eqb m "")) ms).
Proof.
  induction 1 as [| d m ds ms (_ & H & _) _ IH]; cbn [map]; constructor; assumption.
Qed.

Lemma counts_column_violated (ds : list (gmap string Z)) (ms : list string) :
  Forall2 counts_of ds ms ->
  Forall2 (fun d v => d !! "violated_request_count" = Some v) ds
          (map (fun m => Z.b2z (negb (String.eqb m ""))) ms).
Proof.
  induction 1 as [| d m ds ms (_ & _ & H) _ IH]; cbn [map]; constructor; assumption.
Qed.

(** Lines 279-368 on the frame the loop over the turns leaves. *)
Lemma score_episode_spec (log : Log.turns) (s : Scores) :
  score_episode (read_turns log initial_frame) s =
  match log with
  | [] => inl ZeroDivisionError
  | _ :: _ =>
      match latest as_adventure_info (concat log) with
      | None => inl (KeyError "optimal_turns")
      | Some info =>
          if decide (max_turns info - optimal_turns info = 0)
          then inl ZeroDivisionError
          else if decide (goal_count info = 0)
          then inl ZeroDivisionError
          else inr (tt, {| turn_scores_log := turn_scores_log s;
                           episode_scores_log :=
                             episode_scores_log s ++ episode_rows log info |})
      end
  end.
Proof.
  destruct (read_turns_turn_scores log initial_frame) as (ds & Hds & Hcounts).
  destruct (read_turns_turn_fails log initial_frame) as (es & Hes & Hflags).
  pose proof (read_turns_invalid_format log initial_frame) as Hm.
  pose proof (read_turns_adventure_info log initial_frame) as Hinfo.
  pose proof (read_turns_game_result log initial_frame) as Hres.
  pose proof (read_turns_turn_limit_loss log initial_frame) as Hlim.
  cbn [initial_frame turn_scores turn_fails invalid_format adventure_info
       final_goals_achieved successfully_finished turn_limit_loss app orb]
    in Hds, Hes, Hm, Hinfo, Hres, Hlim, Hcounts.
  assert (Hlen : length ds = length log).
  { rewrite (Forall2_length _ _ _ Hcounts). apply markers_length. }
  generalize dependent (read_turns log initial_frame).
  intros f Hds Hes Hm Hinfo Hres Hlim.
  unfold score_episode. rewrite Hds, Hes, Hm, Hinfo, Hlim, Hlen.
  unfold bind at 1.
  rewrite (comprehension_getitem _ _ _ _ (counts_column_violated _ _ Hcounts)).
  cbv zeta. rewrite bind_log_episode_score. unfold bind at 1.
  rewrite (comprehension_getitem _ _ _ _ (counts_column_parsed _ _ Hcounts)).
  rewrite bind_log_episode_score. unfold bind at 1.
  rewrite (comprehension_getitem _ _ _ _ (counts_column_request _ _ Hcounts)).
  rewrite bind_log_episode_score.
  rewrite sum_ones, markers_length.
  rewrite (sum_flags (fun m => negb (String.eqb m ""))).
  rewrite (sum_flags (fun m => String.eqb m "")).
  cbn [turn_scores_log episode_scores_log].
  destruct log as [| turn0 rest]; [reflexivity |].
  set (log := turn0 :: rest) in *.
  rewrite bind_truediv by (subst log; cbn [length]; lia).
  rewrite bind_log_episode_score. unfold bind at 1.
  rewrite (comprehension_getitem _ _ _ _
             (flags_column "parsing" _ _ ltac:(cbn; tauto) Hflags)).
  rewrite bind_log_episode_score, sum_flag_column. unfold bind at 1.
  rewrite (comprehension_getitem _ _ _ _
             (flags_column "resolution" _ _ ltac:(cbn; tauto) Hflags)).
  rewrite bind_log_episode_score, sum_flag_column. unfold bind at 1.
  rewrite (log_episode_flags es log (drop 2 fail_types) _ Hflags)
    by (intros k Hk; cbn in Hk |- *; tauto).
  cbn [turn_scores_log episode_scores_log].
  assert (Hlimit :
    forall (k : unit -> SE Scores unit) s0,
      bind (if existsb is_turn_limit_reached (concat log)
            then log_episode_score "turn_limit_loss" (VInt 1)
            else log_episode_score "turn_limit_loss" (VInt 0)) k s0 =
      k tt {| turn_scores_log := turn_scores_log s0;
              episode_scores_log :=
                episode_scores_log s0 ++
                [ (Lit "turn_limit_loss",
                   VInt (Z.b2z (existsb is_turn_limit_reached (concat log)))) ] |}).
  { intros k s0. destruct (existsb _ _); reflexivity. }
  rewrite Hlimit. clear Hlimit. cbn [turn_scores_log episode_scores_log].
  destruct (latest as_adventure_info (concat log)) as [info |]; [| reflexivity].
  unfold info_item. rewrite !bind_ret.
  assert (Hfin : successfully_finished f =
                 snd (default ([], false) (latest as_game_result (concat log))))
    by (rewrite <- Hres; reflexivity).
  assert (Hgoals : final_goals_achieved f =
                   fst (default ([], false) (latest as_game_result (concat log))))
    by (rewrite <- Hres; reflexivity).
  rewrite Hfin, Hgoals. clear Hfin Hgoals Hres.
  unfold episode_rows. cbv zeta.
  set (finished := snd (default ([], false) (latest as_game_result (concat log)))).
  set (goals := fst (default ([], false) (latest as_game_result (concat log)))).
  unfold truthy.
  destruct (decide (max_turns info - optimal_turns info = 0)) as [Hrange | Hrange].
  { destruct finished; rewrite bind_log_episode_score, !bind_ret, Hrange;
      reflexivity. }
  destruct (decide (goal_count info = 0)) as [Hgc | Hgc].
  { destruct finished; rewrite bind_log_episode_score, !bind_ret;
      rewrite bind_truediv by exact Hrange;
      rewrite bind_log_episode_score, !bind_ret, Hgc; reflexivity. }
  destruct finished;
    rewrite bind_log_episode_score, !bind_ret;
    rewrite bind_truediv by exact Hrange;
    rewrite bind_log_episode_score, !bind_ret;
    rewrite bind_truediv by exact Hgc;
    rewrite bind_log_episode_score;
    rewrite bind_truediv by (subst log; cbn [length]; lia);
    rewrite bind_log_episode_score;
    destruct (String.eqb (marker_after "" (concat log)) "");
    cbn [negb]; rewrite !bind_log_episode_score;
    cbv [log_episode_score modify];
    cbn [turn_scores_log episode_scores_log Z.b2z negb];
    rewrite <- !app_assoc; reflexivity.
Qed.

End ScoreEpisode.

(** ** Scoring a log *)

Section RunOutcome.
Import Log Reading Scorer.

(** [compute_scores] on a fresh Scorer does what [outcome] says: the same
    exception on the same logs, and the same scores on all others. *)
Lemma run_outcome (log : Log.turns) : run log = outcome log.
Proof.
  unfold run, compute_scores, outcome. unfold bind at 1.
  rewrite score_turns_spec. cbn [initial_frame invalid_format].
  destruct (rows_from 0 "" log) as [rows |]; [| reflexivity].
  rewrite score_episode_spec.
  destruct log as [| turn rest]; [reflexivity |].
  destruct (latest as_adventure_info _) as [info |]; [| reflexivity].
  repeat case_decide; reflexivity.
Qed.

End RunOutcome.

(** ** Logs that are scored, and what is read back from the scores *)

Section Scored.
Import Log Reading Scorer.

Lemma goal_status_latest (turn : list action) :
  existsb is_goal_status turn = true <-> is_Some (latest as_goal_score turn).
Proof.
  induction turn as [| a turn IH].
  - cbn. split; [discriminate | intros [x Hx]; discriminate].
  - rewrite latest_cons. cbn [existsb]. rewrite orb_true_iff, IH.
    destruct (latest as_goal_score turn) as [g |].
    + split; [eauto | right; eauto].
    + split.
      * intros [Ha | [x Hx]]; [| discriminate]. destruct a; try discriminate. cbn. eauto.
      * intros [x Hx]. left. destruct a; try discriminate. reflexivity.
Qed.

Lemma rows_from_Some (log : Log.turns) (turn_idx : nat) (m : string) :
  forallb (existsb is_goal_status) log = true <->
  is_Some (rows_from turn_idx m log).
Proof.
  revert turn_idx m. induction log as [| turn rest IH]; intros turn_idx m.
  - cbn. split; eauto.
  - cbn [forallb rows_from]. rewrite andb_true_iff, goal_status_latest.
    rewrite (IH (Datatypes.S turn_idx) (marker_after m turn)).
    destruct (latest as_goal_score turn) as [g |], (rows_from _ _ rest) as [rows |];
      split; try (intros [[x Hx] [y Hy]]; discriminate);
      try (intros [x Hx]; discriminate); eauto.
Qed.

(** Scoring runs to its end exactly on the scorable logs. *)
Lemma run_scorable (log : Log.turns) :
  scorable log = true <-> exists scores, run log = inr scores.
Proof.
  rewrite run_outcome. unfold scorable, outcome.
  rewrite andb_true_iff, (rows_from_Some log 0 "").
  destruct (rows_from 0 "" log) as [rows |].
  2:{ split; [intros [[x Hx] _]; discriminate | intros [x Hx]; discriminate]. }
  destruct log as [| turn rest].
  { split; [intros [_ H]; discriminate | intros [x Hx]; discriminate]. }
  destruct (latest as_adventure_info _) as [info |].
  2:{ split; [intros [_ H]; discriminate | intros [x Hx]; discriminate]. }
  rewrite andb_true_iff, !negb_true_iff, Z.eqb_neq, Z.eqb_neq.
  repeat case_decide; split;
    try (intros [x Hx]; discriminate); try (intros (_ & H1 & H2); lia); eauto.
  intros _. repeat split; [eauto | lia | assumption].
Qed.

(** The scores of a scorable log. *)
Lemma run_scored (log : Log.turns) :
  scorable log = true ->
  exists rows info,
    rows_from 0 "" log = Some rows /\
    latest as_adventure_info (concat log) = Some info /\
    max_turns info <> optimal_turns info /\
    goal_count info <> 0 /\
    run log = inr {| turn_scores_log := rows;
                     episode_scores_log := episode_rows log info |}.
Proof.
  intros Hs. rewrite run_outcome. unfold scorable in Hs. unfold outcome.
  apply andb_true_iff in Hs as [Hg Hs].
  apply (rows_from_Some log 0 "") in Hg as [rows Hrows]. rewrite Hrows.
  destruct log as [| turn rest]; [discriminate |].
  destruct (latest as_adventure_info _) as [info |]; [| discriminate].
  apply andb_true_iff in Hs as [H1 H2].
  apply negb_true_iff, Z.eqb_neq in H1, H2.
  exists rows, info. repeat split; try assumption.
  repeat case_decide; try lia. reflexivity.
Qed.

(** The episode scores, read back by name. *)
Lemma episode_rows_par (log : Log.turns) (info : AdventureInfo) :
  let result := default ([], false) (latest as_game_result (concat log)) in
  let over := Z.of_nat (length log) - optimal_turns info in
  let ratio :=
    PrimFloat.sub 1%float
      (PrimFloat.div (float_of_Z over)
         (float_of_Z (max_turns info - optimal_turns info))) in
  let achieved :=
    PrimFloat.div (float_of_Z (Z.of_nat (length (fst result))))
                  (float_of_Z (goal_count info)) in
  assoc_last (Lit "turns_over_par") (episode_rows log info) =
    Some (if snd result then VInt over else VFloat nan) /\
  assoc_last (Lit "turn_ratio") (episode_rows log info) =
    Some (VFloat (if snd result then ratio else nan)) /\
  assoc_last (Lit "achieved_goal_ratio") (episode_rows log info) =
    Some (VFloat achieved) /\
  assoc_last (Std BENCH_SCORE) (episode_rows log info) =
    Some (VFloat (if snd result then PrimFloat.mul achieved ratio else nan)).
Proof. repeat split; reflexivity. Qed.

Lemma episode_rows_end (log : Log.turns) (info : AdventureInfo) :
  let result := default ([], false) (latest as_game_result (concat log)) in
  assoc_last (Std METRIC_ABORTED) (episode_rows log info) =
    Some (VInt (Z.b2z (negb (String.eqb (marker_after "" (concat log)) "")))) /\
  assoc_last (Std METRIC_SUCCESS) (episode_rows log info) =
    Some (VInt (Z.b2z (snd result))) /\
  assoc_last (Std METRIC_LOSE) (episode_rows log info) =
    Some (VInt (Z.b2z (negb (snd result)))).
Proof. repeat split; reflexivity. Qed.

End Scored.

(** ** The scores of one turn, read back *)

Section TurnScores.
Import Log Reading Scorer.

Lemma assoc_last_app {K V} `{EqDecision K} (k : K) (l1 l2 : list (K * V)) :
  assoc_last k (l1 ++ l2) =
  match assoc_last k l2 with
  | Some v => Some v
  | None => assoc_last k l1
  end.
Proof.
  induction l1 as [| [k' v] l1 IH]; cbn [app assoc_last].
  - destruct (assoc_last k l2); reflexivity.
  - rewrite IH. destruct (assoc_last k l2); reflexivity.
Qed.

Lemma assoc_last_tagged (i j : nat) (n : score_name)
    (l : list (score_name * value)) :
  assoc_last (i, n) (map (fun row => (j, fst row, snd row)) l) =
  if decide (i = j) then assoc_last n l else None.
Proof.
  induction l as [| [n' v] l IH]; cbn [map assoc_last fst snd].
  - case_decide; reflexivity.
  - rewrite IH. destruct (decide (i = j)) as [-> | Hij].
    + destruct (assoc_last n l); [reflexivity |].
      destruct (decide (n' = n)) as [-> | Hn].
      * rewrite decide_True by reflexivity. reflexivity.
      * rewrite decide_False by congruence. reflexivity.
    + rewrite decide_False by congruence. reflexivity.
Qed.

(** Rows logged from index [turn_idx] on say nothing of earlier turns. *)
Lemma rows_from_below (log : Log.turns) (turn_idx : nat) (m : string)
    (rows : list (nat * score_name * value)) (i : nat) (n : score_name) :
  rows_from turn_idx m log = Some rows ->
  (i < turn_idx)%nat ->
  assoc_last (i, n) rows = None.
Proof.
  revert turn_idx m rows. induction log as [| turn rest IH];
    intros turn_idx m rows Hrows Hi.
  - injection Hrows as <-. reflexivity.
  - cbn [rows_from] in Hrows.
    destruct (latest as_goal_score turn) as [g |]; [| discriminate].
    destruct (rows_from _ _ rest) as [rows' |] eqn:Hrest; [| discriminate].
    apply (inj Some) in Hrows. subst rows. rewrite assoc_last_app.
    rewrite (IH _ _ _ Hrest) by lia.
    unfold turn_rows. rewrite assoc_last_tagged, decide_False by lia.
    reflexivity.
Qed.

Lemma events_upto_cons_0 (turn : list action) (rest : Log.turns) :
  events_upto (turn :: rest) 0 = turn.
Proof. unfold events_upto. cbn. apply app_nil_r. Qed.

Lemma events_upto_cons_S (turn : list action) (rest : Log.turns) (k : nat) :
  events_upto (turn :: rest) (Datatypes.S k) = turn ++ events_upto rest k.
Proof. reflexivity. Qed.

(** The rows of turn [k], found among the rows of the whole log. *)
Lemma rows_from_lookup (log : Log.turns) (turn_idx : nat) (m : string)
    (rows : list (nat * score_name * value)) (k : nat) (turn : list action) :
  rows_from turn_idx m log = Some rows ->
  log !! k = Some turn ->
  exists g,
    latest as_goal_score turn = Some g /\
    forall n,
      assoc_last ((turn_idx + k)%nat, n) rows =
      assoc_last n (turn_metrics (marker_after m (events_upto log k)) turn g).
Proof.
  revert turn_idx m rows k. induction log as [| turn0 rest IH];
    intros turn_idx m rows k Hrows Hk; [discriminate |].
  cbn [rows_from] in Hrows.
  destruct (latest as_goal_score turn0) as [g0 |] eqn:Hg0; [| discriminate].
  destruct (rows_from _ _ rest) as [rows' |] eqn:Hrest; [| discriminate].
  apply (inj Some) in Hrows. subst rows. destruct k as [| k].
  - injection Hk as <-. exists g0. split; [exact Hg0 |]. intros n.
    rewrite assoc_last_app, (rows_from_below _ _ _ _ _ n Hrest) by lia.
    unfold turn_rows. rewrite assoc_last_tagged, decide_True by lia.
    rewrite events_upto_cons_0. reflexivity.
  - cbn in Hk. destruct (IH _ _ _ _ Hrest Hk) as (g & Hg & Hrows').
    exists g. split; [exact Hg |]. intros n.
    rewrite assoc_last_app, events_upto_cons_S, marker_after_app.
    replace (turn_idx + Datatypes.S k)%nat with (Datatypes.S turn_idx + k)%nat by lia.
    rewrite Hrows'. unfold turn_rows.
    rewrite assoc_last_tagged, decide_False by lia.
    destruct (assoc_last n _); reflexivity.
Qed.

(** A scorable log is scored, and the scores logged for its turn [k] are
    the metrics of that turn. *)
Lemma logged_turn_metrics (log : Log.turns) :
  scorable log = true ->
  exists scores,
    run log = inr scores /\
    forall k turn,
      log !! k = Some turn ->
      exists g,
        latest as_goal_score turn = Some g /\
        forall n,
          logged_turn scores k n =
          assoc_last n
            (turn_metrics (marker_after "" (events_upto log k)) turn g).
Proof.
  intros Hs. destruct (run_scored log Hs) as (rows & info & Hrows & _ & _ & _ & Hrun).
  eexists. split; [exact Hrun |]. intros k turn Hk.
  destruct (rows_from_lookup log 0 "" rows k turn Hrows Hk) as (g & Hg & Hlook).
  exists g. split; [exact Hg |]. intros n.
  unfold logged_turn. cbn [turn_scores_log]. apply Hlook.
Qed.

End TurnScores.

(** ** The composite score and its degenerate cases *)

Section EpisodeScores.
Import Log Reading Scorer.

Lemma scorable_intro (log : Log.turns) (info : AdventureInfo) :
  forallb (existsb is_goal_status) log = true ->
  log <> [] ->
  latest as_adventure_info (concat log) = Some info ->
  max_turns info <> optimal_turns info ->
  goal_count info <> 0 ->
  scorable log = true.
Proof.
  intros Hg Hne Hinfo Hrange Hgc. unfold scorable. rewrite Hg.
  destruct log as [| turn rest]; [congruence |]. rewrite Hinfo.
  apply Z.eqb_neq in Hrange, Hgc. rewrite Hrange, Hgc. reflexivity.
Qed.

(** C1: a finished episode whose log reads [goal_count = 4], three final
    goals, [max_turns = 10], [optimal_turns = 6] and eight turns is scored
    [achieved_goal_ratio = 0.75], [turns_over_par = 2], [turn_ratio = 0.5]
    and benchmark score [0.375], which is the product of the two ratios. *)
Theorem finished_episode_scores (log : Log.turns) (info : AdventureInfo)
    (goals : list string) :
  forallb (existsb is_goal_status) log = true ->
  length log = 8%nat ->
  latest as_adventure_info (concat log) = Some info ->
  goal_count info = 4 ->
  max_turns info = 10 ->
  optimal_turns info = 6 ->
  latest as_game_result (concat log) = Some (goals, true) ->
  length goals = 3%nat ->
  exists scores,
    run log = inr scores /\
    logged_episode scores "achieved_goal_ratio" = Some (VFloat 0.75) /\
    logged_episode scores "turns_over_par" = Some (VInt 2) /\
    logged_episode scores "turn_ratio" = Some (VFloat 0.5) /\
    logged_episode scores BENCH_SCORE = Some (VFloat 0.375) /\
    PrimFloat.mul 0.75 0.5 = 0.375%float.
Proof.
  intros Hg Hlen Hinfo Hgc Hmax Hopt Hres Hgoals.
  assert (Hs : scorable log = true).
  { apply (scorable_intro log info); try assumption; try lia.
    intros ->. discriminate. }
  destruct (run_scored log Hs) as (rows & info' & _ & Hinfo' & _ & _ & Hrun).
  rewrite Hinfo in Hinfo'. injection Hinfo' as <-.
  eexists. split; [exact Hrun |].
  unfold logged_episode. cbn [episode_scores_log].
  destruct (episode_rows_par log info) as (Hpar & Hratio & Hach & Hbench).
  rewrite Hpar, Hratio, Hach, Hbench, Hres. cbn [from_option fst snd id].
  rewrite Hlen, Hgoals, Hgc, Hmax, Hopt.
  repeat split; reflexivity.
Qed.

(** C2, as the code has it: on a log of small numbers that is scored
    (every turn carries its [goal_status], and the configuration read from
    the log has [max_turns <> optimal_turns] and [goal_count <> 0]),
    [achieved_goal_ratio] is the number of final goals over [goal_count]
    whatever the finish state, and when the episode did not finish
    successfully [turns_over_par], [turn_ratio] and the benchmark score are
    all [nan]. *)
Theorem unfinished_episode_scores (log : Log.turns) (info : AdventureInfo) :
  forallb (existsb is_goal_status) log = true ->
  log <> [] ->
  latest as_adventure_info (concat log) = Some info ->
  max_turns info <> optimal_turns info ->
  goal_count info <> 0 ->
  float_exact log = true ->
  exists scores,
    run log = inr scores /\
    logged_episode scores "achieved_goal_ratio" =
      Some (VFloat
              (PrimFloat.div
                 (float_of_Z
                    (Z.of_nat
                       (length
                          (fst (default ([], false)
                                  (latest as_game_result (concat log)))))))
                 (float_of_Z (goal_count info)))) /\
    (snd (default ([], false) (latest as_game_result (concat log))) = false ->
     logged_episode scores "turns_over_par" = Some (VFloat nan) /\
     logged_episode scores "turn_ratio" = Some (VFloat nan) /\
     logged_episode scores BENCH_SCORE = Some (VFloat nan)).
Proof.
  intros Hg Hne Hinfo Hrange Hgc _.
  pose proof (scorable_intro log info Hg Hne Hinfo Hrange Hgc) as Hs.
  destruct (run_scored log Hs) as (rows & info' & _ & Hinfo' & _ & _ & Hrun).
  rewrite Hinfo in Hinfo'. injection Hinfo' as <-.
  eexists. split; [exact Hrun |].
  unfold logged_episode. cbn [episode_scores_log].
  destruct (episode_rows_par log info) as (Hpar & Hratio & Hach & Hbench).
  split; [exact Hach |]. intros Hfin.
  rewrite Hpar, Hratio, Hbench, Hfin. repeat split; reflexivity.
Qed.

(** C3, as the code has it: the division by [max_turns - optimal_turns] is
    not guarded.  On a log that reaches it (every turn carries its
    [goal_status], there is a turn, and an [adventure_info] event is
    present) with [max_turns = optimal_turns], [compute_scores] raises
    [ZeroDivisionError], finished or not. *)
Theorem zero_turn_range_raises (log : Log.turns) (info : AdventureInfo) :
  forallb (existsb is_goal_status) log = true ->
  log <> [] ->
  latest as_adventure_info (concat log) = Some info ->
  max_turns info = optimal_turns info ->
  run log = inl ZeroDivisionError.
Proof.
  intros Hg Hne Hinfo Hrange. rewrite run_outcome. unfold outcome.
  apply (rows_from_Some log 0 "") in Hg as [rows ->]. rewrite Hinfo.
  destruct log as [| turn rest]; [congruence |].
  rewrite decide_True by lia. reflexivity.
Qed.

End EpisodeScores.

Section EpisodeScoresAtLogs.
Import Log Reading Scorer Examples.

Lemma finished_episode_scores_witness :
  exists scores,
    run finished_log = inr scores /\
    logged_episode scores "achieved_goal_ratio" = Some (VFloat 0.75) /\
    logged_episode scores "turns_over_par" = Some (VInt 2) /\
    logged_episode scores "turn_ratio" = Some (VFloat 0.5) /\
    logged_episode scores BENCH_SCORE = Some (VFloat 0.375) /\
    PrimFloat.mul 0.75 0.5 = 0.375%float.
Proof.
  apply (finished_episode_scores finished_log info_10_6_4 ["A"; "B"; "C"]);
    reflexivity.
Defined.

Lemma unfinished_episode_scores_witness :
  exists scores,
    run exhausted_log = inr scores /\
    logged_episode scores "achieved_goal_ratio" = Some (VFloat 0.75) /\
    (false = false ->
     logged_episode scores "turns_over_par" = Some (VFloat nan) /\
     logged_episode scores "turn_ratio" = Some (VFloat nan) /\
     logged_episode scores BENCH_SCORE = Some (VFloat nan)).
Proof.
  apply (unfinished_episode_scores exhausted_log info_10_6_4);
    [reflexivity | discriminate | reflexivity | discriminate | discriminate
    | reflexivity].
Defined.

(** C2 fails as stated: an unfinished episode at [max_turns = optimal_turns]
    gets no scores but [ZeroDivisionError], and an episode aborted on an
    invalid format gets [KeyError]. *)
Lemma unfinished_episode_unscored :
  latest as_game_result (concat exhausted_at_par_log) = Some (["A"], false) /\
  run exhausted_at_par_log = inl ZeroDivisionError /\
  latest as_game_result (concat aborted_log) = Some (["A"], false) /\
  run aborted_log = inl (KeyError "goal_score").
Proof. repeat split; vm_compute; reflexivity. Qed.

Lemma zero_turn_range_raises_witness :
  run finished_at_par_log = inl ZeroDivisionError.
Proof.
  apply (zero_turn_range_raises finished_at_par_log info_par_is_max);
    [reflexivity | discriminate | reflexivity | reflexivity].
Defined.

(** C3 fails as stated: at [max_turns = optimal_turns = 1] the division is
    carried out with a zero divisor and its error leaves [compute_scores]. *)
Lemma zero_turn_range_unguarded :
  max_turns info_par_is_max - optimal_turns info_par_is_max = 0 /\
  run exhausted_at_par_log = inl ZeroDivisionError /\
  run finished_at_par_log = inl ZeroDivisionError.
Proof. repeat split; vm_compute; reflexivity. Qed.

End EpisodeScoresAtLogs.

(** ** Request counts and the invalid-format marker, turn by turn *)

Section RequestCounts.
Import Log Reading Scorer.

Lemma as_invalid_format_None (a : action) :
  as_invalid_format a = None <-> is_invalid_format a = false.
Proof. destruct a; cbn; split; congruence. Qed.

(** When no [invalid_format] event has an empty content, a violation is on
    record exactly when such an event occurred. *)
Lemma violation_recorded_iff (events : list action) :
  Forall (fun a => as_invalid_format a <> Some "") events ->
  (violation_recorded events <->
   Exists (fun a => is_invalid_format a = true) events).
Proof.
  intros Hne. unfold violation_recorded, marker_after.
  destruct (latest as_invalid_format events) as [c |] eqn:E; cbn.
  - apply latest_Some_In in E as (a & Hin & Ha). split.
    + intros _. apply Exists_exists. exists a. split.
      * apply list_elem_of_In. exact Hin.
      * destruct a; try discriminate. reflexivity.
    + intros _ ->. rewrite Forall_forall in Hne.
      apply (Hne a); [apply list_elem_of_In; exact Hin | exact Ha].
  - apply latest_none_iff in E. split; [congruence |].
    intros Hex. apply Exists_exists in Hex as (a & Hin & Ha).
    rewrite Forall_forall in E. apply E, as_invalid_format_None in Hin.
    congruence.
Qed.

(** C9, as the code has it: in every scored log, every turn has
    [request_count = 1] and parsed and violated request counts that add up
    to it.  The parsed count is 1 exactly when the marker is empty after
    the turn, that is when the latest [invalid_format] event up to and
    including the turn, if there is one, has an empty content; in a log
    whose [invalid_format] events all carry a category, that is exactly
    when no such event has occurred so far. *)
Theorem request_counts_per_turn (log : Log.turns) :
  scorable log = true ->
  exists scores,
    run log = inr scores /\
    forall k turn,
      log !! k = Some turn ->
      exists parsed violated,
        logged_turn scores k METRIC_REQUEST_COUNT = Some (VInt 1) /\
        logged_turn scores k METRIC_REQUEST_COUNT_PARSED = Some (VInt parsed) /\
        logged_turn scores k METRIC_REQUEST_COUNT_VIOLATED = Some (VInt violated) /\
        parsed + violated = 1 /\
        (parsed = 1 <-> ~ violation_recorded (events_upto log k)) /\
        (Forall (fun a => as_invalid_format a <> Some "") (events_upto log k) ->
         (parsed = 1 <->
          Forall (fun a => is_invalid_format a = false) (events_upto log k))).
Proof.
  intros Hs. destruct (logged_turn_metrics log Hs) as (scores & Hrun & Hturn).
  exists scores. split; [exact Hrun |]. intros k turn Hk.
  destruct (Hturn k turn Hk) as (g & _ & Hlook).
  set (m := marker_after "" (events_upto log k)) in *.
  exists (Z.b2z (String.eqb m "")), (Z.b2z (negb (String.eqb m ""))).
  rewrite !Hlook.
  assert (Hparsed : Z.b2z (String.eqb m "") = 1 <-> ~ violation_recorded (events_upto log k)).
  { unfold violation_recorded. fold m.
    destruct (String.eqb_spec m "") as [-> | Hm]; cbn; split;
      try congruence; try discriminate; tauto. }
  split; [reflexivity |]. split; [reflexivity |]. split; [reflexivity |].
  split; [destruct (String.eqb m ""); reflexivity |].
  split; [exact Hparsed |].
  intros Hne. rewrite Hparsed, (violation_recorded_iff _ Hne). split.
  - intros Hno. apply Forall_forall. intros a Ha.
    destruct (is_invalid_format a) eqn:E; [| reflexivity].
    exfalso. apply Hno, Exists_exists. eauto.
  - intros Hall Hex. apply Exists_exists in Hex as (a & Hin & Ha).
    rewrite Forall_forall in Hall. rewrite (Hall a Hin) in Ha. discriminate.
Qed.

Lemma In_events_upto (log : Log.turns) (k : nat) (a : action) :
  In a (events_upto log k) <->
  exists i turn, (i <= k)%nat /\ log !! i = Some turn /\ In a turn.
Proof.
  unfold events_upto. rewrite in_concat. split.
  - intros (turn & Hturn & Ha). apply list_elem_of_In, elem_of_take in Hturn.
    destruct Hturn as (i & Hi & Hlt). exists i, turn.
    split; [lia | split; assumption].
  - intros (i & turn & Hle & Hi & Ha). exists turn. split; [| exact Ha].
    apply list_elem_of_In, elem_of_take. exists i. split; [exact Hi | lia].
Qed.

Lemma In_events_upto_concat (log : Log.turns) (k : nat) (a : action) :
  In a (events_upto log k) -> In a (concat log).
Proof.
  rewrite In_events_upto, in_concat. intros (i & turn & _ & Hi & Ha).
  exists turn. split; [| exact Ha].
  apply list_elem_of_In. eapply list_elem_of_lookup_2. exact Hi.
Qed.

Lemma first_violation_turn_Some (log : Log.turns) (j : nat) :
  first_violation_turn log = Some j ->
  (exists turn, log !! j = Some turn /\ existsb is_invalid_format turn = true) /\
  (forall i turn, (i < j)%nat -> log !! i = Some turn ->
                  existsb is_invalid_format turn = false).
Proof.
  revert j. induction log as [| turn0 rest IH]; intros j; [discriminate |].
  cbn [first_violation_turn].
  destruct (existsb is_invalid_format turn0) eqn:E.
  - intros [= <-]. split; [exists turn0; split; [reflexivity | exact E] |].
    intros i turn Hi. lia.
  - destruct (first_violation_turn rest) as [j' |]; [| discriminate].
    intros [= <-]. destruct (IH j' eq_refl) as ((turn & Hturn & Hex) & Hbefore).
    split; [exists turn; split; assumption |].
    intros [| i] turn' Hi Hlook.
    + injection Hlook as <-. exact E.
    + apply (Hbefore i turn'); [lia | exact Hlook].
Qed.

(** Before the first violation turn no category is on record. *)
Lemma marker_before_first (log : Log.turns) (j k : nat) :
  first_violation_turn log = Some j ->
  (k < j)%nat ->
  marker_after "" (events_upto log k) = "".
Proof.
  intros Hj Hk. destruct (first_violation_turn_Some log j Hj) as (_ & Hbefore).
  unfold marker_after.
  destruct (latest as_invalid_format (events_upto log k)) as [c |] eqn:E;
    [| reflexivity].
  apply latest_Some_In in E as (a & Hin & Ha).
  apply In_events_upto in Hin as (i & turn & Hle & Hi & Hin).
  assert (Hnone : existsb is_invalid_format turn = false)
    by (apply (Hbefore i turn); [lia | exact Hi]).
  assert (Hsome : existsb is_invalid_format turn = true).
  { apply existsb_exists. exists a. split; [exact Hin |].
    destruct a; try discriminate. reflexivity. }
  congruence.
Qed.

(** From the first violation turn on, the category on record is the one
    every [invalid_format] event carries. *)
Lemma marker_from_first (log : Log.turns) (j k : nat) (c : string)
    (turn : list action) :
  first_violation_turn log = Some j ->
  forallb (carries c) (concat log) = true ->
  (j <= k)%nat ->
  log !! k = Some turn ->
  marker_after "" (events_upto log k) = c.
Proof.
  intros Hj Hc Hk Hturn.
  destruct (first_violation_turn_Some log j Hj) as ((first & Hfirst & Hex) & _).
  apply existsb_exists in Hex as (a & Hin & Ha).
  destruct a as [| content | | | | | |]; try discriminate.
  assert (Hup : In (Log.invalid_format content) (events_upto log k)).
  { apply In_events_upto. exists j, first. repeat split; assumption. }
  destruct (latest_is_Some as_invalid_format _ _ content Hup eq_refl) as [c' Hc'].
  unfold marker_after. rewrite Hc'. cbn.
  apply latest_Some_In in Hc' as (b & Hb & Hpick).
  apply In_events_upto_concat in Hb. rewrite forallb_forall in Hc.
  specialize (Hc b Hb). destruct b; try discriminate.
  injection Hpick as ->. apply String.eqb_eq in Hc. exact Hc.
Qed.

Lemma first_violation_turn_None (log : Log.turns) :
  first_violation_turn log = None ->
  forall i turn, log !! i = Some turn ->
                 existsb is_invalid_format turn = false.
Proof.
  induction log as [| turn0 rest IH]; [intros _ i turn; discriminate |].
  cbn [first_violation_turn].
  destruct (existsb is_invalid_format turn0) eqn:E; [discriminate |].
  destruct (first_violation_turn rest) as [j |]; [discriminate |].
  intros _ [| i] turn Hlook.
  - injection Hlook as <-. exact E.
  - apply (IH eq_refl i turn). exact Hlook.
Qed.

(** Up to a turn that comes before every violation turn, no category is on
    record, also when the log has no violation turn at all. *)
Lemma marker_before_violations (log : Log.turns) (k : nat) :
  (forall j, first_violation_turn log = Some j -> (k < j)%nat) ->
  marker_after "" (events_upto log k) = "".
Proof.
  intros Hbefore.
  destruct (first_violation_turn log) as [j |] eqn:Hj.
  { apply (marker_before_first log j k Hj). apply Hbefore. reflexivity. }
  unfold marker_after.
  destruct (latest as_invalid_format (events_upto log k)) as [c |] eqn:E;
    [| reflexivity].
  apply latest_Some_In in E as (a & Hin & Ha).
  apply In_events_upto in Hin as (i & turn & Hle & Hi & Hin).
  pose proof (first_violation_turn_None log Hj i turn Hi) as Hnone.
  assert (Hsome : existsb is_invalid_format turn = true).
  { apply existsb_exists. exists a. split; [exact Hin |].
    destruct a; try discriminate. reflexivity. }
  congruence.
Qed.

(** C10, as the code has it: the marker is never reset between turns.  In
    every scored log, every turn before the first one that contains an
    [invalid_format] event (every turn, when there is none) is scored
    parsed 1 with both category one-hots 0; and when every
    [invalid_format] event of the log carries the same content, one of the
    two categories, every turn from that first one on is scored parsed 0,
    violated 1, with the one-hot of that category at 1 and the other
    at 0. *)
Theorem marker_persists (log : Log.turns) :
  scorable log = true ->
  exists scores,
    run log = inr scores /\
    (forall k turn,
       log !! k = Some turn ->
       (forall j, first_violation_turn log = Some j -> (k < j)%nat) ->
       logged_turn scores k METRIC_REQUEST_COUNT_PARSED = Some (VInt 1) /\
       logged_turn scores k "command_tag_missing" = Some (VInt 0) /\
       logged_turn scores k "next_actions_missing" = Some (VInt 0)) /\
    (forall j c k turn,
       first_violation_turn log = Some j ->
       forallb (carries c) (concat log) = true ->
       c = "command_tag_missing" \/ c = "next_actions_missing" ->
       log !! k = Some turn ->
       (j <= k)%nat ->
       logged_turn scores k METRIC_REQUEST_COUNT_PARSED = Some (VInt 0) /\
       logged_turn scores k METRIC_REQUEST_COUNT_VIOLATED = Some (VInt 1) /\
       logged_turn scores k c = Some (VInt 1) /\
       logged_turn scores k
         (if String.eqb c "command_tag_missing"
          then "next_actions_missing" else "command_tag_missing") =
         Some (VInt 0)).
Proof.
  intros Hs.
  destruct (logged_turn_metrics log Hs) as (scores & Hrun & Hturn).
  exists scores. split; [exact Hrun |]. split.
  - intros k turn Hk Hbefore.
    destruct (Hturn k turn Hk) as (g & _ & Hlook).
    rewrite !Hlook, (marker_before_violations log k Hbefore).
    repeat split; reflexivity.
  - intros j c k turn Hj Hc Hcat Hk Hjk.
    destruct (Hturn k turn Hk) as (g & _ & Hlook).
    rewrite !Hlook, (marker_from_first log j k c turn Hj Hc Hjk Hk).
    destruct Hcat as [-> | ->]; repeat split; reflexivity.
Qed.

End RequestCounts.

(** ** The failure flags of a turn *)

Section FailureFlags.
Import Log Reading Scorer.

Lemma flag_names (turn : list action) (kind : string) :
  (flag turn kind = 0 \/ flag turn kind = 1) /\
  (flag turn kind = 1 <-> Exists (fun a => names kind a = true) turn).
Proof.
  unfold flag. rewrite Exists_exists.
  destruct (existsb (names kind) turn) eqn:E; cbn.
  - split; [right; reflexivity |]. split; [intros _ | reflexivity].
    apply existsb_exists in E as (a & Hin & Ha).
    exists a. split; [apply list_elem_of_In; exact Hin | exact Ha].
  - split; [left; reflexivity |]. split; [discriminate |].
    intros (a & Hin & Ha). apply list_elem_of_In in Hin.
    assert (existsb (names kind) turn = true)
      by (apply existsb_exists; eauto).
    congruence.
Qed.

(** C5, as the code has it: the table of failure kinds has 13 entries, the
    phases "parsing" and "resolution" followed by 11 sub-kinds.  Every
    scored turn gets a 0/1 flag for each of the 13, at 1 exactly when an
    [action_fail] event of the turn names the kind; and an [action_fail]
    event whose phase and fail type are in the table sets the flag of that
    phase and the flag of that sub-kind, and no other. *)
Theorem failure_flags (log : Log.turns) :
  scorable log = true ->
  length fail_types = 13%nat /\
  take 2 fail_types = ["parsing"; "resolution"] /\
  length (drop 2 fail_types) = 11%nat /\
  (exists scores,
     run log = inr scores /\
     forall k turn kind,
       log !! k = Some turn ->
       In kind fail_types ->
       logged_turn scores k (flag_name kind) = Some (VInt (flag turn kind)) /\
       (flag turn kind = 0 \/ flag turn kind = 1) /\
       (flag turn kind = 1 <-> Exists (fun a => names kind a = true) turn)) /\
  (forall (f : frame) (phase fail_type k : string),
     In phase (take 2 fail_types) ->
     In fail_type (drop 2 fail_types) ->
     turn_fail (on_event f (action_fail phase fail_type)) !! phase = Some 1 /\
     turn_fail (on_event f (action_fail phase fail_type)) !! fail_type = Some 1 /\
     (k <> phase -> k <> fail_type ->
      turn_fail (on_event f (action_fail phase fail_type)) !! k =
      turn_fail f !! k)).
Proof.
  intros Hs. repeat split; try reflexivity.
  - destruct (logged_turn_metrics log Hs) as (scores & Hrun & Hturn).
    exists scores. split; [exact Hrun |]. intros k turn kind Hk Hkind.
    destruct (Hturn k turn Hk) as (g & _ & Hlook).
    split; [| apply flag_names]. rewrite Hlook.
    cbn [In fail_types] in Hkind.
    repeat (destruct Hkind as [<- | Hkind]; [reflexivity |]).
    destruct Hkind.
  - rewrite on_event_turn_fail. cbn [names].
    rewrite String.eqb_refl. reflexivity.
  - rewrite on_event_turn_fail. cbn [names].
    rewrite String.eqb_refl, orb_true_r. reflexivity.
  - intros Hp Ht. rewrite on_event_turn_fail. cbn [names].
    destruct (String.eqb_spec phase k), (String.eqb_spec fail_type k);
      cbn; congruence.
Qed.

End FailureFlags.

(** ** A log without its terminal result *)

Section MissingResult.
Import Log Reading Scorer.

Variables (goals : list string) (finished : bool).
Let closing : action := game_result goals finished.

Lemma latest_snoc_closing {A} (pick : action -> option A) (events : list action) :
  pick closing = None ->
  latest pick (events ++ [closing]) = latest pick events.
Proof.
  intros Hp. rewrite latest_app, latest_cons, latest_nil, Hp. reflexivity.
Qed.

Lemma existsb_snoc_closing (p : action -> bool) (events : list action) :
  p closing = false ->
  existsb p (events ++ [closing]) = existsb p events.
Proof.
  intros Hp. rewrite existsb_app. cbn. rewrite Hp, !orb_false_r. reflexivity.
Qed.

Lemma concat_append_last (log : Log.turns) :
  log <> [] ->
  concat (append_last log closing) = concat log ++ [closing].
Proof.
  induction log as [| turn rest IH]; [congruence |]. intros _.
  cbn [append_last]. destruct rest as [| turn' rest'].
  - cbn. rewrite !app_nil_r. reflexivity.
  - cbn [concat]. rewrite IH by discriminate. rewrite app_assoc. reflexivity.
Qed.

Lemma length_append_last (log : Log.turns) :
  length (append_last log closing) = length log.
Proof.
  induction log as [| turn rest IH]; [reflexivity |].
  cbn [append_last]. destruct rest; [reflexivity |].
  cbn [length]. rewrite IH. reflexivity.
Qed.

Lemma markers_append_last (m : string) (log : Log.turns) :
  markers m (append_last log closing) = markers m log.
Proof.
  revert m. induction log as [| turn rest IH]; intros m; [reflexivity |].
  cbn [append_last]. destruct rest as [| turn' rest'].
  - cbn [markers]. unfold marker_after.
    rewrite latest_snoc_closing by reflexivity. reflexivity.
  - cbn [markers]. rewrite IH. reflexivity.
Qed.

Lemma flag_snoc_closing (turn : list action) (kind : string) :
  flag (turn ++ [closing]) kind = flag turn kind.
Proof. unfold flag. rewrite existsb_snoc_closing by reflexivity. reflexivity. Qed.

Lemma turn_metrics_snoc_closing (m : string) (turn : list action) (g : Z) :
  turn_metrics m (turn ++ [closing]) g = turn_metrics m turn g.
Proof.
  unfold turn_metrics. cbn [map drop fail_types].
  rewrite !flag_snoc_closing. reflexivity.
Qed.

Lemma rows_from_append_last (log : Log.turns) (turn_idx : nat) (m : string) :
  rows_from turn_idx m (append_last log closing) = rows_from turn_idx m log.
Proof.
  revert turn_idx m. induction log as [| turn rest IH]; intros turn_idx m;
    [reflexivity |].
  cbn [append_last]. destruct rest as [| turn' rest'].
  - cbn [rows_from]. unfold marker_after, turn_rows.
    rewrite !latest_snoc_closing by reflexivity.
    destruct (latest as_goal_score turn) as [g |]; [| reflexivity].
    rewrite turn_metrics_snoc_closing. reflexivity.
  - cbn [rows_from]. rewrite IH. reflexivity.
Qed.

Lemma count_append_last (kind : string) (log : Log.turns) :
  count (fun turn => existsb (names kind) turn) (append_last log closing) =
  count (fun turn => existsb (names kind) turn) log.
Proof.
  unfold count. f_equal.
  induction log as [| turn rest IH]; [reflexivity |].
  cbn [append_last]. destruct rest as [| turn' rest'].
  - rewrite !filter_cons, !filter_nil.
    rewrite existsb_snoc_closing by reflexivity.
    case_decide; reflexivity.
  - rewrite !(filter_cons _ turn). case_decide; cbn [length]; rewrite IH;
      reflexivity.
Qed.

Lemma append_last_nonempty (log : Log.turns) :
  log <> [] -> append_last log closing <> [].
Proof.
  destruct log as [| turn [| turn' rest]]; cbn; congruence.
Qed.

End MissingResult.

Section MissingResultScores.
Import Log Reading Scorer.

Lemma episode_rows_closed_as_loss (log : Log.turns) (info : AdventureInfo) :
  log <> [] ->
  latest as_game_result (concat log) = None ->
  episode_rows (append_last log (game_result [] false)) info =
  episode_rows log info.
Proof.
  intros Hne Hnone. unfold episode_rows. cbv zeta.
  cbn [map drop fail_types].
  rewrite !count_append_last, markers_append_last, length_append_last.
  rewrite (concat_append_last _ _ log Hne).
  rewrite (existsb_snoc_closing _ _ is_turn_limit_reached) by reflexivity.
  unfold marker_after.
  rewrite (latest_snoc_closing _ _ as_invalid_format) by reflexivity.
  rewrite latest_app, Hnone. reflexivity.
Qed.

Lemma outcome_closed_as_loss (log : Log.turns) :
  log <> [] ->
  latest as_game_result (concat log) = None ->
  outcome (append_last log (game_result [] false)) = outcome log.
Proof.
  intros Hne Hnone.
  pose proof (rows_from_append_last [] false log 0 "") as Hrows.
  pose proof (append_last_nonempty [] false log Hne) as Hne'.
  pose proof (fun info => episode_rows_closed_as_loss log info Hne Hnone) as Hep.
  pose proof (concat_append_last [] false log Hne) as Hcat.
  assert (Hinfo : latest as_adventure_info (concat log ++ [game_result [] false])
                  = latest as_adventure_info (concat log))
    by (apply latest_snoc_closing; reflexivity).
  rewrite <- Hcat in Hinfo.
  generalize dependent (append_last log (game_result [] false)).
  intros log' Hrows Hne' Hep _ Hinfo. unfold outcome.
  rewrite Hrows, Hinfo. clear Hinfo.
  destruct (rows_from 0 "" log) as [rows |]; [| reflexivity].
  destruct log' as [| t' l']; [congruence |].
  destruct log as [| t l]; [congruence |].
  destruct (latest as_adventure_info _) as [info |]; [| reflexivity].
  rewrite Hep. reflexivity.
Qed.

(** C8, as the code has it: a log without any [game_result] event is not
    told apart from a lost episode.  When it is scorable, with small
    numbers, it is scored
    [success = 0], [lose = 1], [nan] for the par metrics and the benchmark
    score, and zero goals over [goal_count], the very scores of the same
    log closed by a [game_result] that reports no goal and no success. *)
Theorem missing_game_result_scored_as_loss (log : Log.turns) :
  scorable log = true ->
  float_exact log = true ->
  latest as_game_result (concat log) = None ->
  exists scores info,
    latest as_adventure_info (concat log) = Some info /\
    run log = inr scores /\
    run (append_last log (game_result [] false)) = inr scores /\
    logged_episode scores METRIC_SUCCESS = Some (VInt 0) /\
    logged_episode scores METRIC_LOSE = Some (VInt 1) /\
    logged_episode scores "turns_over_par" = Some (VFloat nan) /\
    logged_episode scores "turn_ratio" = Some (VFloat nan) /\
    logged_episode scores BENCH_SCORE = Some (VFloat nan) /\
    logged_episode scores "achieved_goal_ratio" =
      Some (VFloat (PrimFloat.div 0 (float_of_Z (goal_count info)))).
Proof.
  intros Hs _ Hnone.
  destruct (run_scored log Hs) as (rows & info & _ & Hinfo & _ & _ & Hrun).
  assert (Hne : log <> []) by (intros ->; discriminate).
  eexists. exists info. split; [exact Hinfo |]. split; [exact Hrun |].
  split.
  { rewrite run_outcome, (outcome_closed_as_loss log Hne Hnone), <- run_outcome.
    exact Hrun. }
  unfold logged_episode. cbn [episode_scores_log].
  destruct (episode_rows_par log info) as (Hpar & Hratio & Hach & Hbench).
  destruct (episode_rows_end log info) as (_ & Hsucc & Hlose).
  rewrite Hpar, Hratio, Hach, Hbench, Hsucc, Hlose, Hnone.
  repeat split; reflexivity.
Qed.

End MissingResultScores.

(** ** The turn-level results at concrete logs *)

Section TurnScoresAtLogs.
Import Log Reading Scorer Examples.

Lemma request_counts_per_turn_witness :
  exists scores,
    run violation_log = inr scores /\
    forall k turn,
      violation_log !! k = Some turn ->
      exists parsed violated,
        logged_turn scores k METRIC_REQUEST_COUNT = Some (VInt 1) /\
        logged_turn scores k METRIC_REQUEST_COUNT_PARSED = Some (VInt parsed) /\
        logged_turn scores k METRIC_REQUEST_COUNT_VIOLATED = Some (VInt violated) /\
        parsed + violated = 1 /\
        (parsed = 1 <-> ~ violation_recorded (events_upto violation_log k)) /\
        (Forall (fun a => as_invalid_format a <> Some "")
                (events_upto violation_log k) ->
         (parsed = 1 <->
          Forall (fun a => is_invalid_format a = false)
                 (events_upto violation_log k))).
Proof. exact (request_counts_per_turn violation_log eq_refl). Defined.

Lemma marker_persists_witness :
  exists scores,
    run violation_log = inr scores /\
    (forall k turn,
       violation_log !! k = Some turn ->
       (forall j, first_violation_turn violation_log = Some j -> (k < j)%nat) ->
       logged_turn scores k METRIC_REQUEST_COUNT_PARSED = Some (VInt 1) /\
       logged_turn scores k "command_tag_missing" = Some (VInt 0) /\
       logged_turn scores k "next_actions_missing" = Some (VInt 0)) /\
    (forall j c k turn,
       first_violation_turn violation_log = Some j ->
       forallb (carries c) (concat violation_log) = true ->
       c = "command_tag_missing" \/ c = "next_actions_missing" ->
       violation_log !! k = Some turn ->
       (j <= k)%nat ->
       logged_turn scores k METRIC_REQUEST_COUNT_PARSED = Some (VInt 0) /\
       logged_turn scores k METRIC_REQUEST_COUNT_VIOLATED = Some (VInt 1) /\
       logged_turn scores k c = Some (VInt 1) /\
       logged_turn scores k
         (if String.eqb c "command_tag_missing"
          then "next_actions_missing" else "command_tag_missing") =
         Some (VInt 0)).
Proof. exact (marker_persists violation_log eq_refl). Defined.

(** C9 fails as stated: a violation is recorded in turn 0 of this scored
    log, and turn 1, whose own [invalid_format] event has an empty content,
    is scored as parsed. *)
Lemma emptied_marker_counts_as_parsed :
  scorable cleared_log = true /\
  Exists (fun a => is_invalid_format a = true) (events_upto cleared_log 1) /\
  exists scores,
    run cleared_log = inr scores /\
    logged_turn scores 0 METRIC_REQUEST_COUNT_PARSED = Some (VInt 0) /\
    logged_turn scores 1 METRIC_REQUEST_COUNT_PARSED = Some (VInt 1) /\
    logged_turn scores 1 METRIC_REQUEST_COUNT_VIOLATED = Some (VInt 0).
Proof.
  split; [reflexivity |]. split.
  - apply Exists_cons_tl, Exists_cons_hd. reflexivity.
  - eexists. split; [vm_compute; reflexivity |].
    repeat split; vm_compute; reflexivity.
Qed.

(** C10 fails as stated: the first [invalid_format] event of this log is
    of category "command_tag_missing", in turn 0, and turn 1 is scored with
    that one-hot at 0. *)
Lemma marker_follows_latest_event :
  first_violation_turn mixed_log = Some 0%nat /\
  (mixed_log !! 0%nat ≫= fun turn => head (omap as_invalid_format turn))
    = Some "command_tag_missing" /\
  exists scores,
    run mixed_log = inr scores /\
    logged_turn scores 1 "command_tag_missing" = Some (VInt 0) /\
    logged_turn scores 1 "next_actions_missing" = Some (VInt 1).
Proof.
  split; [reflexivity |]. split; [reflexivity |].
  eexists. split; [vm_compute; reflexivity |]. split; vm_compute; reflexivity.
Qed.

Lemma failure_flags_witness :
  length fail_types = 13%nat /\
  take 2 fail_types = ["parsing"; "resolution"] /\
  length (drop 2 fail_types) = 11%nat /\
  (exists scores,
     run finished_log = inr scores /\
     forall k turn kind,
       finished_log !! k = Some turn ->
       In kind fail_types ->
       logged_turn scores k (flag_name kind) = Some (VInt (flag turn kind)) /\
       (flag turn kind = 0 \/ flag turn kind = 1) /\
       (flag turn kind = 1 <-> Exists (fun a => names kind a = true) turn)) /\
  (forall (f : frame) (phase fail_type k : string),
     In phase (take 2 fail_types) ->
     In fail_type (drop 2 fail_types) ->
     turn_fail (on_event f (action_fail phase fail_type)) !! phase = Some 1 /\
     turn_fail (on_event f (action_fail phase fail_type)) !! fail_type = Some 1 /\
     (k <> phase -> k <> fail_type ->
      turn_fail (on_event f (action_fail phase fail_type)) !! k =
      turn_fail f !! k)).
Proof. exact (failure_flags finished_log eq_refl). Defined.

(** C5 fails as stated: the table has 13 kinds, 11 of them sub-kinds, and a
    scored turn carries a flag for each of the 13. *)
Lemma thirteen_failure_flags :
  length fail_types = 13%nat /\
  length (drop 2 fail_types) = 11%nat /\
  exists scores,
    run finished_log = inr scores /\
    map (fun kind => logged_turn scores 3 (flag_name kind)) fail_types =
      [ Some (VInt 1); Some (VInt 0); Some (VInt 0); Some (VInt 0);
        Some (VInt 0); Some (VInt 0); Some (VInt 1); Some (VInt 0);
        Some (VInt 0); Some (VInt 0); Some (VInt 0); Some (VInt 0);
        Some (VInt 0) ].
Proof.
  split; [reflexivity |]. split; [reflexivity |].
  eexists. split; vm_compute; reflexivity.
Qed.

Lemma missing_game_result_scored_as_loss_witness :
  exists scores info,
    latest as_adventure_info (concat unclosed_log) = Some info /\
    run unclosed_log = inr scores /\
    run (append_last unclosed_log (game_result [] false)) = inr scores /\
    logged_episode scores METRIC_SUCCESS = Some (VInt 0) /\
    logged_episode scores METRIC_LOSE = Some (VInt 1) /\
    logged_episode scores "turns_over_par" = Some (VFloat nan) /\
    logged_episode scores "turn_ratio" = Some (VFloat nan) /\
    logged_episode scores BENCH_SCORE = Some (VFloat nan) /\
    logged_episode scores "achieved_goal_ratio" =
      Some (VFloat (PrimFloat.div 0 (float_of_Z (goal_count info)))).
Proof.
  exact (missing_game_result_scored_as_loss unclosed_log eq_refl eq_refl
           eq_refl).
Defined.

(** C8 fails as stated: the log has no [game_result] event, and it is
    scored without complaint, as a loss, with the scores of the same log
    closed by a result that reports no goal and no success. *)
Lemma missing_game_result_undetected :
  Forall (fun a => as_game_result a = None) (concat unclosed_log) /\
  exists scores,
    run unclosed_log = inr scores /\
    run (append_last unclosed_log (game_result [] false)) = inr scores /\
    logged_episode scores METRIC_SUCCESS = Some (VInt 0) /\
    logged_episode scores METRIC_LOSE = Some (VInt 1) /\
    logged_episode scores "turns_over_par" = Some (VFloat nan) /\
    logged_episode scores "turn_ratio" = Some (VFloat nan) /\
    logged_episode scores BENCH_SCORE = Some (VFloat nan) /\
    logged_episode scores "achieved_goal_ratio" = Some (VFloat 0).
Proof.
  split; [repeat constructor |].
  eexists. split; [vm_compute; reflexivity |].
  repeat split; vm_compute; reflexivity.
Qed.

End TurnScoresAtLogs.

(** ** The Game Master's hooks *)

Section MasterHooks.
Import Master.
Context {IF : Type}.
Implicit Types st : @state IF.

Lemma truthy_true (s : string) : truthy s = true <-> s <> "".
Proof.
  unfold truthy. destruct (String.eqb_spec s ""); cbn; split;
    congruence.
Qed.

Lemma truthy_false (s : string) : truthy s = false <-> s = "".
Proof.
  unfold truthy. destruct (String.eqb_spec s ""); cbn; split;
    congruence.
Qed.

Lemma does_game_proceed_flag_set st :
  invalid_format st <> "" ->
  _does_game_proceed st =
    (false, log_to_self (Log.invalid_format (invalid_format st)) st).
Proof.
  intros Hset. unfold _does_game_proceed.
  apply truthy_true in Hset. rewrite Hset. reflexivity.
Qed.

Lemma does_game_proceed_goes_on st :
  invalid_format st = "" ->
  goals_achieved st <> goals_required st ->
  Z.of_nat (length (turns st)) < max_turns (game_instance st) ->
  _does_game_proceed st = (true, st).
Proof.
  intros Hflag Hgoals Hturns. unfold _does_game_proceed.
  apply truthy_false in Hflag. rewrite Hflag.
  rewrite bool_decide_eq_false_2 by exact Hgoals.
  rewrite bool_decide_eq_false_2 by lia. reflexivity.
Qed.

(** C6: the continuation predicate returns false exactly when the
    format-validity flag is set, or the achieved goals equal the required
    ones, or the number of completed turns has reached the turn budget.
    The tests are made in this order: with the flag set nothing but the
    log changes; otherwise, with the goals met the episode is marked
    finished; otherwise, with the budget spent the turn limit is logged;
    otherwise the result is true and nothing changes. *)
Theorem does_game_proceed_spec st :
  (fst (_does_game_proceed st) = false <->
     invalid_format st <> "" \/
     goals_achieved st = goals_required st \/
     max_turns (game_instance st) <= Z.of_nat (length (turns st))) /\
  (invalid_format st <> "" ->
     _does_game_proceed st =
       (false, log_to_self (Log.invalid_format (invalid_format st)) st) /\
     finished (snd (_does_game_proceed st)) = finished st) /\
  (invalid_format st = "" ->
   goals_achieved st = goals_required st ->
     _does_game_proceed st =
       (false,
        log_to_self (Log.adventure_finished (elements (goals_achieved st)))
                    (set_finished true st)) /\
     finished (snd (_does_game_proceed st)) = true) /\
  (invalid_format st = "" ->
   goals_achieved st <> goals_required st ->
   max_turns (game_instance st) <= Z.of_nat (length (turns st)) ->
     _does_game_proceed st =
       (false,
        log_to_self (Log.turn_limit_reached (max_turns (game_instance st))) st) /\
     finished (snd (_does_game_proceed st)) = finished st) /\
  (invalid_format st = "" ->
   goals_achieved st <> goals_required st ->
   Z.of_nat (length (turns st)) < max_turns (game_instance st) ->
     _does_game_proceed st = (true, st)).
Proof.
  unfold _does_game_proceed.
  destruct (truthy (invalid_format st)) eqn:Hflag.
  - apply truthy_true in Hflag. cbn [fst snd]. repeat split; try tauto;
      intros; congruence.
  - apply truthy_false in Hflag.
    destruct (bool_decide (goals_achieved st = goals_required st)) eqn:Hgoals.
    + apply bool_decide_eq_true in Hgoals. cbn [fst snd].
      repeat split; try tauto; intros; try congruence; try reflexivity.
    + apply bool_decide_eq_false in Hgoals.
      destruct (bool_decide (max_turns (game_instance st)
                             <= Z.of_nat (length (turns st)))) eqn:Hturns.
      * apply bool_decide_eq_true in Hturns. cbn [fst snd].
        repeat split; try tauto; intros; try congruence; try reflexivity; lia.
      * apply bool_decide_eq_false in Hturns. cbn [fst snd].
        repeat split; intros; try congruence; try reflexivity; try lia.
        exfalso. intuition congruence.
Qed.





End MasterHooks.

(** ** A violation in the first turn *)

Section FirstTurnViolation.
Import Master.
Context {IF : Type}.
Variable BasicIFInterpreter : GameInstance -> IF.
Variable get_full_room_desc : IF -> string.
Variable process_action : IF -> string -> IF * (gset string * string * option Fail).
Variable respond : list (string * string) -> string.

Lemma goals_required_nonempty (goals : list string) :
  goals <> [] -> (∅ : gset string) <> list_to_set goals.
Proof.
  destruct goals as [| goal rest]; [congruence |]. intros _ Hempty.
  assert (Hin : goal ∈ (list_to_set (goal :: rest) : gset string))
    by (apply elem_of_list_to_set; left).
  rewrite <- Hempty in Hin. apply not_elem_of_empty in Hin. exact Hin.
Qed.

(** Once the continuation predicate is false the loop runs the after-game
    hook and ends, whatever budget is left. *)
Lemma turn_loop_stops (budget turn_idx : nat) (st : state) :
  fst (_does_game_proceed st) = false ->
  turn_loop process_action respond budget turn_idx st =
  inr (tt, _on_after_game (snd (_does_game_proceed st))).
Proof.
  intros Hstop. destruct budget; cbn [turn_loop]; unfold bind, get, modify;
    destruct (_does_game_proceed st) as [proceed st']; cbn [fst snd] in *;
    subst proceed; reflexivity.
Qed.

(** C4 on the code: when the first response does not begin with ">", in a
    game with a goal to reach and a positive turn budget, the episode ends
    after one turn, whose record holds the violation and the result and no
    goal status; and scoring that log does not end normally: it raises
    [KeyError] on ["goal_score"] before any episode score is logged. *)
Theorem first_turn_violation_unscored (self_player : nat) (gi : GameInstance) :
  goal_state gi <> [] ->
  0 < max_turns gi ->
  startswith
    (respond [("user", (prompt gi ++ get_full_room_desc (BasicIFInterpreter gi))%string)])
    ">" = false ->
  play BasicIFInterpreter get_full_room_desc process_action respond
       self_player gi =
    inr [ [ Log.invalid_format "command_tag_missing";
            Log.invalid_format "command_tag_missing";
            Log.game_result [] false ] ] /\
  Scorer.run [ [ Log.invalid_format "command_tag_missing";
                 Log.invalid_format "command_tag_missing";
                 Log.game_result [] false ] ]
    = inl (KeyError "goal_score").
Proof.
  intros Hgoals Hmax Hstart. split; [| reflexivity].
  unfold play. cbn [turn_loop].
  set (st0 := _on_before_game get_full_room_desc
                (_on_setup BasicIFInterpreter self_player gi)).
  assert (H0 : _does_game_proceed st0 = (true, st0)).
  { apply (does_game_proceed_goes_on st0).
    - reflexivity.
    - apply goals_required_nonempty. exact Hgoals.
    - cbn. lia. }
  unfold bind at 1. unfold get at 1. rewrite H0.
  rewrite bind_modify, bind_modify.
  set (st1 := log_next_turn st0).
  set (st2 := set_invalid_format "command_tag_missing" (set_success false st1)).
  assert (H1 : prompt_player respond st1 = inr (tt, st2)).
  { unfold prompt_player, bind, get, modify, _validate_player_response.
    rewrite decide_True by reflexivity.
    change (messages (recorder st1)) with
      [("user", (prompt gi ++ get_full_room_desc (BasicIFInterpreter gi))%string)].
    rewrite Hstart. reflexivity. }
  unfold bind at 1. rewrite H1.
  set (st3 := log_to_self (Log.invalid_format "command_tag_missing") st2).
  assert (H2 : _does_game_proceed st2 = (false, st3)) by reflexivity.
  assert (H3 : _on_after_turn process_action 0 st2 = inr (tt, st3)).
  { unfold _on_after_turn, bind, get, modify. rewrite H2. reflexivity. }
  unfold bind at 1. rewrite H3.
  rewrite turn_loop_stops by reflexivity.
  reflexivity.
Qed.

End FirstTurnViolation.

Section FirstTurnViolationAtGame.
Import Master Examples.

Lemma first_turn_violation_unscored_witness :
  play still_world still_room still_action unmarked_player 0 one_goal_game =
    inr [ [ Log.invalid_format "command_tag_missing";
            Log.invalid_format "command_tag_missing";
            Log.game_result [] false ] ] /\
  Scorer.run [ [ Log.invalid_format "command_tag_missing";
                 Log.invalid_format "command_tag_missing";
                 Log.game_result [] false ] ]
    = inl (KeyError "goal_score").
Proof.
  apply (first_turn_violation_unscored
           still_world still_room still_action unmarked_player 0%nat
           one_goal_game);
    [discriminate | reflexivity | reflexivity].
Defined.


End FirstTurnViolationAtGame.

(** * Further properties of the Scorer *)

(** ** When scoring raises, and what *)

Section ScoringErrors.
Import Log Reading Scorer.

(** [compute_scores] on a Scorer that already holds scores: the same
    exception, or the same scores after the ones held. *)
Lemma compute_scores_outcome (log : Log.turns) (s : Scores) :
  compute_scores log s =
  match outcome log with
  | inl e => inl e
  | inr scores => inr (tt, scores_app s scores)
  end.
Proof.
  unfold compute_scores, outcome. unfold bind at 1.
  rewrite score_turns_spec. cbn [initial_frame invalid_format].
  destruct (rows_from 0 "" log) as [rows |]; [| reflexivity].
  rewrite score_episode_spec.
  destruct log as [| turn rest]; [reflexivity |].
  destruct (latest as_adventure_info _) as [info |]; [| reflexivity].
  repeat case_decide; reflexivity.
Qed.

Lemma some_turn_without_goal_status (log : Log.turns) :
  forallb (existsb is_goal_status) log = false <->
  Exists (fun turn => existsb is_goal_status turn = false) log.
Proof.
  induction log as [| turn rest IH]; cbn [forallb].
  - split; [discriminate | intros H; inversion H].
  - rewrite Exists_cons, andb_false_iff, IH. reflexivity.
Qed.

Lemma rows_from_None (log : Log.turns) (turn_idx : nat) (m : string) :
  rows_from turn_idx m log = None <->
  Exists (fun turn => existsb is_goal_status turn = false) log.
Proof.
  rewrite <- some_turn_without_goal_status.
  pose proof (rows_from_Some log turn_idx m) as H.
  destruct (rows_from turn_idx m log) as [rows |],
           (forallb (existsb is_goal_status) log).
  - split; discriminate.
  - destruct H as [_ H]. specialize (H (ex_intro _ rows eq_refl)). discriminate.
  - destruct H as [H _]. destruct (H eq_refl) as [x Hx]. discriminate.
  - split; reflexivity.
Qed.

Lemma key_error_iff_unstatused (log : Log.turns) :
  run log = inl (KeyError "goal_score") <->
  forallb (existsb is_goal_status) log = false.
Proof.
  rewrite some_turn_without_goal_status, <- (rows_from_None log 0 "").
  rewrite run_outcome. unfold outcome.
  destruct (rows_from 0 "" log) as [rows |]; [| split; reflexivity].
  split; [| discriminate].
  destruct log as [| turn rest]; [discriminate |].
  destruct (latest as_adventure_info _); [| discriminate].
  repeat case_decide; discriminate.
Qed.

Lemma existsb_Exists_iff (p : action -> bool) (events : list action) :
  existsb p events = true <-> Exists (fun a => p a = true) events.
Proof.
  induction events as [| a events IH]; cbn [existsb].
  - split; [discriminate | intros H; inversion H].
  - rewrite Exists_cons, orb_true_iff, IH. reflexivity.
Qed.

Lemma forallb_Forall_iff (p : action -> bool) (events : list action) :
  existsb p events = false <-> Forall (fun a => p a = false) events.
Proof.
  induction events as [| a events IH]; cbn [existsb].
  - split; [constructor | reflexivity].
  - rewrite Forall_cons, orb_false_iff, IH. reflexivity.
Qed.

(** X1: scoring raises [KeyError] on ["goal_score"] exactly when some turn
    of the log has no [goal_status] event, whatever else the log holds. *)
Theorem goal_score_key_error (log : Log.turns) :
  run log = inl (KeyError "goal_score") <->
  Exists (fun turn => existsb is_goal_status turn = false) log.
Proof.
  rewrite run_outcome, <- (rows_from_None log 0 ""). unfold outcome.
  destruct (rows_from 0 "" log) as [rows |]; [| split; reflexivity].
  split; [| discriminate].
  destruct log as [| turn rest]; [discriminate |].
  destruct (latest as_adventure_info _); [| discriminate].
  repeat case_decide; discriminate.
Qed.

(** X2: scoring raises [KeyError] on ["optimal_turns"] exactly when every
    turn has its [goal_status] event, there is a turn, and no turn holds an
    [adventure_info] event. *)
Theorem optimal_turns_key_error (log : Log.turns) :
  run log = inl (KeyError "optimal_turns") <->
  forallb (existsb is_goal_status) log = true /\
  log <> [] /\
  Forall (fun a => as_adventure_info a = None) (concat log).
Proof.
  rewrite run_outcome, (rows_from_Some log 0 ""), <- latest_none_iff.
  unfold outcome.
  destruct (rows_from 0 "" log) as [rows |].
  2:{ split; [discriminate | intros ([x Hx] & _); discriminate]. }
  destruct log as [| turn rest].
  { split; [discriminate | intros (_ & H & _); congruence]. }
  destruct (latest as_adventure_info _) as [info |].
  - split; [repeat case_decide; discriminate | intros (_ & _ & H); discriminate].
  - split; [intros _; repeat split; eauto; discriminate | reflexivity].
Qed.

(** X3: on a log of small numbers, scoring raises [ZeroDivisionError]
    exactly when every turn has its [goal_status] event and either the log
    has no turn, or the [adventure_info] read from it has
    [max_turns = optimal_turns] or [goal_count = 0]. *)
Theorem zero_division_error (log : Log.turns) :
  float_exact log = true ->
  run log = inl ZeroDivisionError <->
  forallb (existsb is_goal_status) log = true /\
  (log = [] \/
   exists info,
     latest as_adventure_info (concat log) = Some info /\
     (max_turns info = optimal_turns info \/ goal_count info = 0)).
Proof.
  intros _. rewrite run_outcome, (rows_from_Some log 0 ""). unfold outcome.
  destruct (rows_from 0 "" log) as [rows |].
  2:{ split; [discriminate | intros ([x Hx] & _); discriminate]. }
  destruct log as [| turn rest].
  { split; [intros _; split; [eauto | left; reflexivity] | reflexivity]. }
  destruct (latest as_adventure_info _) as [info |].
  - repeat case_decide; split; try reflexivity; try discriminate.
    + intros _. split; [eauto |]. right. exists info. split; [reflexivity | lia].
    + intros _. split; [eauto |]. right. exists info. split; [reflexivity | tauto].
    + intros (_ & [Hnil | (info' & [= <-] & Hzero)]); [discriminate | lia].
  - split; [discriminate |].
    intros (_ & [Hnil | (info' & Hinfo & _)]); discriminate.
Qed.

(** X4: on a log of small numbers, scoring either returns scores or
    raises one of those three exceptions, and it returns exactly when every
    turn has its [goal_status] event, there is a turn, and the
    [adventure_info] read from the log has [max_turns <> optimal_turns] and
    [goal_count <> 0]. *)
Theorem scoring_outcomes (log : Log.turns) :
  float_exact log = true ->
  (scorable log = true <-> exists scores, run log = inr scores) /\
  ((exists scores, run log = inr scores) \/
   run log = inl (KeyError "goal_score") \/
   run log = inl (KeyError "optimal_turns") \/
   run log = inl ZeroDivisionError).
Proof.
  intros _. split; [apply run_scorable |].
  rewrite run_outcome. unfold outcome.
  destruct (rows_from 0 "" log) as [rows |]; [| tauto].
  destruct log as [| turn rest]; [tauto |].
  destruct (latest as_adventure_info _) as [info |]; [| tauto].
  repeat case_decide; eauto.
Qed.

End ScoringErrors.


(** ** Episode totals *)

Section EpisodeTotals.
Import Log Reading Scorer.

(** A scorable log is scored; its episode scores are the rows read off the
    log, and the scores of its turn [k] the metrics of that turn. *)
Lemma scored_readings (log : Log.turns) :
  scorable log = true ->
  exists scores info,
    run log = inr scores /\
    latest as_adventure_info (concat log) = Some info /\
    episode_scores_log scores = episode_rows log info /\
    forall k turn,
      log !! k = Some turn ->
      exists g,
        latest as_goal_score turn = Some g /\
        forall n,
          logged_turn scores k n =
          assoc_last n
            (turn_metrics (marker_after "" (events_upto log k)) turn g).
Proof.
  intros Hs.
  destruct (run_scored log Hs) as (rows & info & Hrows & Hinfo & _ & _ & Hrun).
  eexists. exists info. split; [exact Hrun |]. split; [exact Hinfo |].
  split; [reflexivity |]. intros k turn Hk.
  destruct (rows_from_lookup log 0 "" rows k turn Hrows Hk) as (g & Hg & Hlook).
  exists g. split; [exact Hg |]. intros n.
  unfold logged_turn. cbn [turn_scores_log]. apply Hlook.
Qed.

Lemma turn_metrics_flag (m : string) (turn : list action) (g : Z)
    (kind : string) :
  In kind fail_types ->
  assoc_last (Lit (flag_name kind)) (turn_metrics m turn g) =
  Some (VInt (flag turn kind)).
Proof.
  cbn [In fail_types]. intros H.
  repeat (destruct H as [<- | H]; [reflexivity |]). destruct H.
Qed.

Lemma episode_rows_flag (log : Log.turns) (info : AdventureInfo)
    (kind : string) :
  In kind fail_types ->
  assoc_last (Lit (flag_name kind)) (episode_rows log info) =
  Some (VInt (count (fun turn => existsb (names kind) turn) log)).
Proof.
  cbn [In fail_types]. intros H.
  repeat (destruct H as [<- | H]; [reflexivity |]). destruct H.
Qed.

Lemma markers_lookup (log : Log.turns) (m : string) (k : nat)
    (turn : list action) :
  log !! k = Some turn ->
  markers m log !! k = Some (marker_after m (events_upto log k)).
Proof.
  revert m k. induction log as [| turn0 rest IH]; intros m k Hk;
    [discriminate |].
  destruct k as [| k].
  - cbn [markers]. rewrite events_upto_cons_0. reflexivity.
  - cbn [markers]. cbn in Hk.
    rewrite events_upto_cons_S, marker_after_app. cbn. apply IH. exact Hk.
Qed.

Lemma count_split {A} (p : A -> bool) (l : list A) :
  count p l + count (fun x => negb (p x)) l = Z.of_nat (length l).
Proof.
  rewrite <- !sum_flags. induction l as [| x l IH]; [reflexivity |].
  cbn [map length]. rewrite !sum_cons. destruct (p x); cbn [negb Z.b2z]; lia.
Qed.

Lemma count_nonneg {A} (p : A -> bool) (l : list A) : 0 <= count p l.
Proof. unfold count. lia. Qed.

(** X5: the request totals of a scored log of small numbers: the request
    count is the number of turns, the parsed and violated counts are
    non-negative and add up to it, the parsed count is the sum of the
    turns' parsed counts, and the request success ratio is parsed over
    requests. *)
Theorem request_totals (log : Log.turns) :
  scorable log = true ->
  float_exact log = true ->
  exists scores parsed violated per_turn,
    run log = inr scores /\
    logged_episode scores METRIC_REQUEST_COUNT =
      Some (VInt (Z.of_nat (length log))) /\
    logged_episode scores METRIC_REQUEST_COUNT_PARSED = Some (VInt parsed) /\
    logged_episode scores METRIC_REQUEST_COUNT_VIOLATED = Some (VInt violated) /\
    0 <= parsed /\ 0 <= violated /\
    parsed + violated = Z.of_nat (length log) /\
    logged_episode scores METRIC_REQUEST_SUCCESS =
      Some (VFloat (PrimFloat.div (float_of_Z parsed)
                                  (float_of_Z (Z.of_nat (length log))))) /\
    length per_turn = length log /\
    (forall k p, per_turn !! k = Some p ->
       logged_turn scores k METRIC_REQUEST_COUNT_PARSED = Some (VInt p)) /\
    parsed = sum per_turn.
Proof.
  intros Hs _.
  destruct (scored_readings log Hs) as (scores & info & Hrun & _ & Hep & Hturn).
  exists scores, (count (fun m => String.eqb m "") (markers "" log)),
    (count (fun m => negb (String.eqb m "")) (markers "" log)),
    (map (fun m => Z.b2z (String.eqb m "")) (markers "" log)).
  unfold logged_episode. rewrite Hep.
  split; [exact Hrun |]. split; [reflexivity |]. split; [reflexivity |].
  split; [reflexivity |]. split; [apply count_nonneg |].
  split; [apply count_nonneg |].
  split; [rewrite count_split, markers_length; reflexivity |].
  split; [reflexivity |].
  split; [rewrite length_map, markers_length; reflexivity |].
  split; [| symmetry; apply sum_flags].
  intros k p Hp. rewrite list_lookup_fmap in Hp.
  destruct (markers "" log !! k) as [m |] eqn:Hm; [| discriminate].
  injection Hp as <-.
  assert (Hk : is_Some (log !! k)).
  { apply lookup_lt_is_Some. rewrite <- (markers_length "" log).
    apply lookup_lt_is_Some. eauto. }
  destruct Hk as [turn Hk].
  rewrite (markers_lookup log "" k turn Hk) in Hm. injection Hm as <-.
  destruct (Hturn k turn Hk) as (g & _ & Hlook). rewrite Hlook. reflexivity.
Qed.

(** X6: the episode total of every failure kind is the sum over the turns
    of the flag logged for that kind. *)
Theorem failure_totals (log : Log.turns) (kind : string) :
  scorable log = true ->
  In kind fail_types ->
  exists scores,
    run log = inr scores /\
    (forall k turn, log !! k = Some turn ->
       logged_turn scores k (flag_name kind) = Some (VInt (flag turn kind))) /\
    logged_episode scores (flag_name kind) =
      Some (VInt (sum (map (fun turn => flag turn kind) log))).
Proof.
  intros Hs Hkind.
  destruct (scored_readings log Hs) as (scores & info & Hrun & _ & Hep & Hturn).
  exists scores. split; [exact Hrun |]. split.
  - intros k turn Hk. destruct (Hturn k turn Hk) as (g & _ & Hlook).
    rewrite Hlook. apply turn_metrics_flag. exact Hkind.
  - unfold logged_episode. rewrite Hep, (episode_rows_flag log info kind Hkind).
    rewrite sum_flag_column. reflexivity.
Qed.

(** X7: the terminal flags of a scored log: [turn_limit_loss] is 1 when a
    [turn_limit_reached] event occurs anywhere in the log and 0 otherwise;
    [aborted] is 1 when a format violation is on record at the end of the
    log and 0 otherwise; [success] is 1 when the latest [game_result]
    reports a successful finish and 0 otherwise, also when there is none;
    and [lose] is one minus [success]. *)
Theorem terminal_flags (log : Log.turns) :
  scorable log = true ->
  exists scores,
    run log = inr scores /\
    logged_episode scores "turn_limit_loss" =
      Some (VInt (Z.b2z (existsb is_turn_limit_reached (concat log)))) /\
    logged_episode scores METRIC_ABORTED =
      Some (VInt (Z.b2z (negb (String.eqb (marker_after "" (concat log)) "")))) /\
    logged_episode scores METRIC_SUCCESS =
      Some (VInt (Z.b2z (snd (default ([], false)
                                 (latest as_game_result (concat log)))))) /\
    logged_episode scores METRIC_LOSE =
      Some (VInt (1 - Z.b2z (snd (default ([], false)
                                     (latest as_game_result (concat log)))))).
Proof.
  intros Hs.
  destruct (scored_readings log Hs) as (scores & info & Hrun & _ & Hep & _).
  exists scores. unfold logged_episode. rewrite Hep.
  split; [exact Hrun |]. split; [reflexivity |]. split; [reflexivity |].
  split; [reflexivity |].
  destruct (episode_rows_end log info) as (_ & _ & Hlose). rewrite Hlose.
  destruct (snd _); reflexivity.
Qed.

End EpisodeTotals.

(** ** What the scores depend on *)

Section ScoreDependencies.
Import Log Reading Scorer.

(** X8: the goal score logged for a turn is that of the last
    [goal_status] event of the turn. *)
Theorem goal_score_of_last_goal_status (log : Log.turns) (k : nat)
    (before after : list action) (goals : list string) (g : Z) :
  scorable log = true ->
  log !! k = Some (before ++ goal_status goals g :: after) ->
  existsb is_goal_status after = false ->
  exists scores,
    run log = inr scores /\
    logged_turn scores k "goal_score" = Some (VInt g).
Proof.
  intros Hs Hk Hafter.
  destruct (scored_readings log Hs) as (scores & info & Hrun & _ & _ & Hturn).
  exists scores. split; [exact Hrun |].
  destruct (Hturn k _ Hk) as (g' & Hg' & Hlook). rewrite Hlook.
  rewrite latest_app, latest_cons in Hg'.
  destruct (latest as_goal_score after) as [x |] eqn:E.
  - assert (Hex : existsb is_goal_status after = true)
      by (apply goal_status_latest; eauto).
    congruence.
  - cbn in Hg'. injection Hg' as <-. reflexivity.
Qed.

(** X9: the par metrics of a finished episode of small numbers:
    [turns_over_par] is the number of turns minus [optimal_turns],
    [turn_ratio] is one minus that over [max_turns - optimal_turns],
    [achieved_goal_ratio] is the number of final goals over [goal_count],
    and the benchmark score is the product of the two ratios. *)
Theorem finished_episode_par_scores (log : Log.turns) (info : AdventureInfo)
    (goals : list string) :
  scorable log = true ->
  float_exact log = true ->
  latest as_adventure_info (concat log) = Some info ->
  latest as_game_result (concat log) = Some (goals, true) ->
  exists scores ratio achieved,
    run log = inr scores /\
    logged_episode scores "turns_over_par" =
      Some (VInt (Z.of_nat (length log) - optimal_turns info)) /\
    ratio =
      PrimFloat.sub 1
        (PrimFloat.div
           (float_of_Z (Z.of_nat (length log) - optimal_turns info))
           (float_of_Z (max_turns info - optimal_turns info))) /\
    achieved =
      PrimFloat.div (float_of_Z (Z.of_nat (length goals)))
                    (float_of_Z (goal_count info)) /\
    logged_episode scores "turn_ratio" = Some (VFloat ratio) /\
    logged_episode scores "achieved_goal_ratio" = Some (VFloat achieved) /\
    logged_episode scores BENCH_SCORE =
      Some (VFloat (PrimFloat.mul achieved ratio)).
Proof.
  intros Hs _ Hinfo Hres.
  destruct (scored_readings log Hs) as (scores & info' & Hrun & Hinfo' & Hep & _).
  rewrite Hinfo in Hinfo'. injection Hinfo' as <-.
  exists scores. do 2 eexists. split; [exact Hrun |].
  unfold logged_episode. rewrite Hep.
  destruct (episode_rows_par log info) as (Hpar & Hratio & Hach & Hbench).
  rewrite Hpar, Hratio, Hach, Hbench, Hres. cbn [from_option id fst snd].
  repeat split; reflexivity.
Qed.

Lemma latest_filter {A} (pick : action -> option A) (p : action -> bool)
    (events : list action) :
  (forall a, p a = false -> pick a = None) ->
  latest pick (List.filter p events) = latest pick events.
Proof.
  intros Hp. induction events as [| a events IH]; [reflexivity |].
  cbn [List.filter]. destruct (p a) eqn:E.
  - rewrite !latest_cons, IH. reflexivity.
  - rewrite latest_cons, IH, (Hp a E).
    destruct (latest pick events); reflexivity.
Qed.

Lemma existsb_filter (q p : action -> bool) (events : list action) :
  (forall a, p a = false -> q a = false) ->
  existsb q (List.filter p events) = existsb q events.
Proof.
  intros Hp. induction events as [| a events IH]; [reflexivity |].
  cbn [List.filter existsb]. destruct (p a) eqn:E.
  - cbn [existsb]. rewrite IH. reflexivity.
  - rewrite IH, (Hp a E). reflexivity.
Qed.

Lemma unread_pick {A} (pick : action -> option A) :
  (forall c, pick (other c) = None) ->
  (forall c, pick (adventure_finished c) = None) ->
  forall a, read_by_scorer a = false -> pick a = None.
Proof. intros Ho Hf [] E; try discriminate; eauto. Qed.

Lemma unread_test (q : action -> bool) :
  (forall c, q (other c) = false) ->
  (forall c, q (adventure_finished c) = false) ->
  forall a, read_by_scorer a = false -> q a = false.
Proof. intros Ho Hf [] E; try discriminate; eauto. Qed.

Lemma latest_without_unread {A} (pick : action -> option A) (log : Log.turns) :
  (forall c, pick (other c) = None) ->
  (forall c, pick (adventure_finished c) = None) ->
  latest pick (concat (without_unread log)) = latest pick (concat log).
Proof.
  intros Ho Hf. induction log as [| turn rest IH]; [reflexivity |].
  cbn [without_unread map concat]. fold (without_unread rest).
  rewrite !latest_app, IH, (latest_filter pick) by (apply unread_pick; assumption).
  reflexivity.
Qed.

Lemma existsb_without_unread (q : action -> bool) (log : Log.turns) :
  (forall c, q (other c) = false) ->
  (forall c, q (adventure_finished c) = false) ->
  existsb q (concat (without_unread log)) = existsb q (concat log).
Proof.
  intros Ho Hf. induction log as [| turn rest IH]; [reflexivity |].
  cbn [without_unread map concat]. fold (without_unread rest).
  rewrite !existsb_app, IH, (existsb_filter q) by (apply unread_test; assumption).
  reflexivity.
Qed.

Lemma marker_after_filter (m : string) (turn : list action) :
  marker_after m (List.filter read_by_scorer turn) = marker_after m turn.
Proof.
  unfold marker_after. rewrite latest_filter; [reflexivity |].
  apply unread_pick; reflexivity.
Qed.

Lemma flag_filter (turn : list action) (kind : string) :
  flag (List.filter read_by_scorer turn) kind = flag turn kind.
Proof.
  unfold flag. rewrite existsb_filter; [reflexivity |].
  apply unread_test; reflexivity.
Qed.

Lemma markers_without_unread (m : string) (log : Log.turns) :
  markers m (without_unread log) = markers m log.
Proof.
  revert m. induction log as [| turn rest IH]; intros m; [reflexivity |].
  cbn [without_unread map markers]. fold (without_unread rest).
  rewrite marker_after_filter, IH. reflexivity.
Qed.

Lemma rows_from_without_unread (log : Log.turns) (turn_idx : nat) (m : string) :
  rows_from turn_idx m (without_unread log) = rows_from turn_idx m log.
Proof.
  revert turn_idx m. induction log as [| turn rest IH]; intros turn_idx m;
    [reflexivity |].
  cbn [without_unread map rows_from]. fold (without_unread rest).
  rewrite marker_after_filter, IH.
  rewrite (latest_filter as_goal_score) by (apply unread_pick; reflexivity).
  destruct (latest as_goal_score turn) as [g |]; [| reflexivity].
  unfold turn_rows, turn_metrics. cbn [map drop fail_types].
  rewrite !flag_filter. reflexivity.
Qed.

Lemma count_without_unread (kind : string) (log : Log.turns) :
  count (fun turn => existsb (names kind) turn) (without_unread log) =
  count (fun turn => existsb (names kind) turn) log.
Proof.
  rewrite <- !sum_flag_column. f_equal. unfold without_unread.
  rewrite map_map. apply map_ext. intros turn. apply flag_filter.
Qed.

Lemma episode_rows_without_unread (log : Log.turns) (info : AdventureInfo) :
  episode_rows (without_unread log) info = episode_rows log info.
Proof.
  unfold episode_rows. cbv zeta. cbn [map drop fail_types].
  rewrite !count_without_unread, markers_without_unread.
  unfold marker_after.
  rewrite (latest_without_unread as_game_result),
          (latest_without_unread as_invalid_format),
          (existsb_without_unread is_turn_limit_reached) by reflexivity.
  unfold without_unread. rewrite length_map. reflexivity.
Qed.

(** X10: scoring looks at no event of another type than the six it
    tests: the log without the other events gets the same outcome, scores
    or exception. *)
Theorem unread_events_do_not_matter (log : Log.turns) :
  run (without_unread log) = run log.
Proof.
  rewrite !run_outcome. unfold outcome.
  rewrite rows_from_without_unread.
  rewrite (latest_without_unread as_adventure_info) by reflexivity.
  destruct (rows_from 0 "" log) as [rows |]; [| reflexivity].
  pose proof (episode_rows_without_unread log) as Hep.
  destruct log as [| turn rest]; [reflexivity |].
  unfold without_unread in *. cbn [map] in *.
  destruct (latest as_adventure_info _) as [info |]; [| reflexivity].
  rewrite Hep. reflexivity.
Qed.

End ScoreDependencies.

(** ** The record of the scores *)

Section ScoreRecord.
Import Log Reading Scorer.

(** The rows logged from turn [turn_idx] on carry indices from
    [turn_idx] on. *)
Lemma rows_from_indices (log : Log.turns) (turn_idx : nat) (m : string)
    (rows : list (nat * score_name * value)) (key : nat * score_name) :
  rows_from turn_idx m log = Some rows ->
  key ∈ map fst rows ->
  (turn_idx <= fst key)%nat.
Proof.
  revert turn_idx m rows. induction log as [| turn rest IH];
    intros turn_idx m rows Hrows Hkey.
  - apply (inj Some) in Hrows. subst rows. inversion Hkey.
  - cbn [rows_from] in Hrows.
    destruct (latest as_goal_score turn) as [g |]; [| discriminate].
    destruct (rows_from _ _ rest) as [rows' |] eqn:Hrest; [| discriminate].
    apply (inj Some) in Hrows. subst rows.
    rewrite map_app in Hkey. apply elem_of_app in Hkey as [Hkey | Hkey].
    + unfold turn_rows in Hkey. rewrite map_map in Hkey. cbn [fst] in Hkey.
      apply list_elem_of_In, in_map_iff in Hkey as (row & <- & _).
      cbn. lia.
    + specialize (IH _ _ _ Hrest Hkey). lia.
Qed.

Lemma turn_rows_keys (turn_idx : nat) (m : string) (turn : list action) (g : Z) :
  map fst (turn_rows turn_idx m turn g) =
  map (pair turn_idx) (map fst (turn_metrics "" [] 0)).
Proof. reflexivity. Qed.

Lemma turn_metrics_names_NoDup : NoDup (map fst (turn_metrics "" [] 0)).
Proof. apply (bool_decide_unpack _). vm_compute. exact I. Qed.

Lemma episode_rows_names_NoDup (log : Log.turns) (info : AdventureInfo) :
  NoDup (map fst (episode_rows log info)).
Proof.
  change (map fst (episode_rows log info))
    with (map fst (episode_rows [] info)).
  apply (bool_decide_unpack _). vm_compute. exact I.
Qed.

Lemma rows_from_NoDup (log : Log.turns) (turn_idx : nat) (m : string)
    (rows : list (nat * score_name * value)) :
  rows_from turn_idx m log = Some rows -> NoDup (map fst rows).
Proof.
  revert turn_idx m rows. induction log as [| turn rest IH];
    intros turn_idx m rows Hrows.
  - apply (inj Some) in Hrows. subst rows. constructor.
  - cbn [rows_from] in Hrows.
    destruct (latest as_goal_score turn) as [g |]; [| discriminate].
    destruct (rows_from _ _ rest) as [rows' |] eqn:Hrest; [| discriminate].
    apply (inj Some) in Hrows. subst rows.
    rewrite map_app. apply NoDup_app. split; [| split].
    + rewrite turn_rows_keys. apply (NoDup_fmap_2 (pair turn_idx)).
      apply turn_metrics_names_NoDup.
    + intros key Hhere Hlater.
      pose proof (rows_from_indices _ _ _ _ key Hrest Hlater) as Hle.
      rewrite turn_rows_keys in Hhere.
      apply list_elem_of_In, in_map_iff in Hhere as (n & <- & _).
      cbn in Hle. lia.
    + apply (IH _ _ _ Hrest).
Qed.

(** X11: no score is logged twice: in a scored log no turn score is
    logged twice for the same turn and name, and no episode score twice for
    the same name. *)
Theorem no_score_logged_twice (log : Log.turns) :
  scorable log = true ->
  exists scores,
    run log = inr scores /\
    NoDup (map fst (turn_scores_log scores)) /\
    NoDup (map fst (episode_scores_log scores)).
Proof.
  intros Hs.
  destruct (run_scored log Hs) as (rows & info & Hrows & _ & _ & _ & Hrun).
  eexists. split; [exact Hrun |]. cbn [turn_scores_log episode_scores_log].
  split; [apply (rows_from_NoDup log 0 "" rows Hrows) |].
  apply episode_rows_names_NoDup.
Qed.

Lemma assoc_last_twice {K V} `{EqDecision K} (k : K) (l : list (K * V)) :
  assoc_last k (l ++ l) = assoc_last k l.
Proof. rewrite assoc_last_app. destruct (assoc_last k l); reflexivity. Qed.

(** X12: scoring never reads the scores the Scorer holds.  Scoring the
    same log again with the same Scorer succeeds again and leaves every
    score as it reads: the second run logs the same values under the same
    names. *)
Theorem rescoring_keeps_readings (log : Log.turns) (s1 : Scores) :
  compute_scores log no_scores = inr (tt, s1) ->
  exists s2,
    compute_scores log s1 = inr (tt, s2) /\
    (forall name, logged_episode s2 name = logged_episode s1 name) /\
    (forall k name, logged_turn s2 k name = logged_turn s1 k name).
Proof.
  rewrite !compute_scores_outcome.
  destruct (outcome log) as [e | scores]; [discriminate |].
  intros [= <-]. eexists. split; [reflexivity |].
  unfold logged_episode, logged_turn, scores_app, no_scores.
  cbn [turn_scores_log episode_scores_log app].
  split; intros; apply assoc_last_twice.
Qed.

End ScoreRecord.

(** * Further properties of the Game Master *)

(** ** What every call of a hook keeps true *)

(** Reading a field of a Game Master after its setters. *)
Ltac state_simpl :=
  cbn [Master.game_instance Master.if_variant Master.if_interpreter
       Master.player Master.plan_history Master.goals_required
       Master.goals_required_cnt Master.goals_achieved Master.turns
       Master.success Master.invalid_format Master.finished Master.recorder
       Master.messages Master.episode_keys Master.log
       Master.set_if_interpreter Master.set_plan_history
       Master.set_goals_achieved Master.set_turns Master.set_success
       Master.set_invalid_format Master.set_finished Master.set_recorder
       Master.log_to_self Master.log_message_to_self Master.log_key
       Master.add_message Master.log_next_turn Master._on_setup
       Master._on_before_game Master._on_after_game Master.empty_recorder
       fst snd].

Section Consistency.
Import Master Reach.
Context {IF : Type}.
Variable BasicIFInterpreter : GameInstance -> IF.
Variable get_full_room_desc : IF -> string.
Variable process_action : IF -> string -> IF * (gset string * string * option Fail).
Variable self_player : nat.
Variable gi : GameInstance.
Implicit Types st : @state IF.

Abbreviation consistent := (@consistent IF self_player gi).
Abbreviation well_logged := (well_logged gi).
Abbreviation reachable :=
  (@reachable IF BasicIFInterpreter get_full_room_desc process_action
     self_player gi).

Lemma concat_record_event (a : Log.action) (turns : Log.turns) :
  concat (record_event a turns) = concat turns ++ [a].
Proof.
  unfold record_event. destruct (reverse turns) as [| current earlier] eqn:E.
  - rewrite <- (reverse_involutive turns), E. reflexivity.
  - rewrite <- (reverse_involutive turns), E, reverse_cons, !concat_app.
    cbn. rewrite !app_nil_r, app_assoc. reflexivity.
Qed.

Lemma sum_app (xs ys : list Z) : sum (xs ++ ys) = sum xs + sum ys.
Proof.
  induction xs as [| x xs IH]; cbn [app]; [reflexivity |].
  rewrite !sum_cons, IH. lia.
Qed.

Lemma goal_scores_snoc (events : list Log.action) (a : Log.action) :
  goal_scores (events ++ [a]) =
  goal_scores events + default 0 (Reading.as_goal_score a).
Proof.
  unfold goal_scores. rewrite omap_app, sum_app. cbn [omap list_omap].
  destruct (Reading.as_goal_score a) as [g |]; cbn [from_option id];
    [change (sum [g]) with (0 + g) | change (sum []) with 0]; lia.
Qed.

Lemma consistent_log_to_self (a : Log.action) st :
  consistent st ->
  well_logged a ->
  Reading.as_goal_score a = None ->
  consistent (log_to_self a st).
Proof.
  intros [] Hlogged Hnone. constructor; state_simpl; try assumption.
  - rewrite concat_record_event. apply Forall_app. split; [assumption |].
    constructor; [exact Hlogged | constructor].
  - rewrite concat_record_event, goal_scores_snoc, Hnone.
    cbn [from_option]. lia.
  - rewrite concat_record_event, omap_app. cbn [omap list_omap].
    rewrite Hnone, app_nil_r. assumption.
Qed.

Lemma consistent_add_message (role content : string) st :
  consistent st -> consistent (add_message role content st).
Proof. intros []. constructor; state_simpl; assumption. Qed.

Lemma consistent_next_turn st :
  consistent st -> consistent (log_next_turn st).
Proof.
  intros []. constructor; state_simpl; try assumption;
    rewrite concat_app; cbn [concat]; rewrite !app_nil_r; assumption.
Qed.

Lemma consistent_setup :
  consistent (_on_setup BasicIFInterpreter self_player gi).
Proof.
  constructor; state_simpl; try reflexivity.
  - left. split; reflexivity.
  - constructor.
  - cbn. lia.
  - discriminate.
  - constructor.
Qed.

Lemma consistent_validate (p : nat) (utterance : string) st :
  consistent st ->
  consistent (snd (_validate_player_response p utterance st)).
Proof.
  intros Hst. unfold _validate_player_response.
  assert (Hset : forall c, category c ->
            consistent (set_invalid_format c (set_success false st))).
  { intros c Hc. destruct Hst. constructor; state_simpl; try assumption.
    right. split; [exact Hc | reflexivity]. }
  repeat (match goal with |- context [if ?b then _ else _] => destruct b end);
    cbn [snd]; try exact Hst; apply Hset; [left | right]; reflexivity.
Qed.

Lemma consistent_parse (p : nat) (utterance : string) (r : string * bool)
    st st' :
  consistent st ->
  _on_parse_response p utterance st = inr (r, st') ->
  consistent st'.
Proof.
  intros Hst. unfold _on_parse_response, bind, get, modify, ret, raise.
  destruct (String.eqb (if_variant st) "plan").
  - destruct (split next_actions_marker utterance !! 1%nat); [| discriminate].
    intros [= _ <-]. destruct Hst. constructor; state_simpl; assumption.
  - intros [= _ <-]. exact Hst.
Qed.

Lemma flag_category st :
  consistent st -> invalid_format st <> "" -> category (invalid_format st).
Proof.
  intros Hst Hset. destruct (kept_flag _ _ _ Hst) as [[] | []];
    [congruence | assumption].
Qed.

Lemma consistent_proceed st :
  consistent st -> consistent (snd (_does_game_proceed st)).
Proof.
  intros Hst. unfold _does_game_proceed.
  destruct (truthy (invalid_format st)) eqn:Hflag; cbn [snd].
  { apply consistent_log_to_self; [exact Hst | | reflexivity].
    apply (flag_category st Hst), truthy_true, Hflag. }
  case_bool_decide as Hgoals; cbn [snd].
  { apply consistent_log_to_self; [| | reflexivity].
    - destruct Hst. constructor; state_simpl; try assumption.
      intros _. exact Hgoals.
    - cbn [Reach.well_logged]. state_simpl.
      rewrite Hgoals, <- (kept_required _ _ _ Hst). reflexivity. }
  case_bool_decide as Hturns; cbn [snd]; [| exact Hst].
  apply consistent_log_to_self; [exact Hst | | reflexivity].
  cbn [Reach.well_logged]. rewrite (kept_instance _ _ _ Hst). reflexivity.
Qed.

Lemma proceeds_unchanged st st1 :
  _does_game_proceed st = (true, st1) ->
  st1 = st /\ invalid_format st = "" /\
  goals_achieved st <> goals_required st /\
  Z.of_nat (length (turns st)) < max_turns (game_instance st).
Proof.
  unfold _does_game_proceed.
  destruct (truthy (invalid_format st)) eqn:Hflag; [discriminate |].
  case_bool_decide as Hgoals; [discriminate |].
  case_bool_decide as Hturns; [discriminate |].
  intros [= <-]. apply truthy_false in Hflag.
  repeat split; try assumption. lia.
Qed.

Lemma consistent_after_turn (turn_idx : nat) st st' :
  consistent st ->
  _on_after_turn process_action turn_idx st = inr (tt, st') ->
  consistent st'.
Proof.
  intros Hst. unfold _on_after_turn, bind, get, modify.
  pose proof (consistent_proceed st Hst) as Hst1.
  destruct (_does_game_proceed st) as [proceed st1] eqn:Hdgp.
  cbn [snd] in Hst1. destruct proceed; [| intros [= <-]; exact Hst1].
  apply proceeds_unchanged in Hdgp.
  destruct Hdgp as (-> & Hflag & Hgoals & Hturns). clear Hst1.
  destruct (last (messages (recorder st))) as [[role last_action] |];
    [| discriminate].
  destruct (process_action _ _) as [world [[goals response] fail]].
  intros [= <-]. destruct Hst.
  assert (Hsuccess : success st = true)
    by (destruct kept_flag0 as [[] | [[] ]]; congruence).
  assert (Hfinished : finished st = false).
  { destruct (finished st); [| reflexivity].
    exfalso. apply Hgoals, kept_finished0. reflexivity. }
  rewrite kept_instance0 in Hturns.
  destruct fail as [fl |]; constructor; state_simpl; try assumption;
    rewrite ?concat_record_event, ?goal_scores_snoc, ?Forall_app,
            ?omap_app, ?length_app, ?Hsuccess;
    cbn [from_option id Reading.as_goal_score length omap list_omap app];
    repeat split; try assumption; try (repeat constructor);
    try congruence; try lia.
Qed.

Lemma consistent_after_game st :
  consistent st -> consistent (_on_after_game st).
Proof.
  intros Hst. apply consistent_log_to_self; [exact Hst | | reflexivity].
  cbn [Reach.well_logged]. destruct (finished st) eqn:Hfin; [| exact I].
  rewrite (kept_finished _ _ _ Hst Hfin), <- (kept_required _ _ _ Hst).
  reflexivity.
Qed.

Lemma consistent_call st st' :
  consistent st ->
  hook_call get_full_room_desc process_action st st' ->
  consistent st'.
Proof.
  intros Hst Hcall. destruct Hcall.
  - apply consistent_add_message. exact Hst.
  - apply consistent_validate. exact Hst.
  - eapply consistent_parse; eassumption.
  - apply consistent_proceed. exact Hst.
  - eapply consistent_after_turn; eassumption.
  - apply consistent_after_game. exact Hst.
  - apply consistent_next_turn. exact Hst.
  - apply consistent_add_message. exact Hst.
  - apply consistent_log_to_self; [exact Hst | exact I | reflexivity].
Qed.

Lemma reachable_consistent st : reachable st -> consistent st.
Proof.
  induction 1 as [| st st' _ IH Hcall].
  - apply consistent_setup.
  - exact (consistent_call st st' IH Hcall).
Qed.

(** X13: in every state the Game Master reaches, [success] is true
    exactly when the format flag is empty, and the flag is empty or one of
    the two categories: only [_validate_player_response] writes the two,
    and it writes them together. *)
Theorem flag_and_success_agree st :
  reachable st ->
  (success st = true <-> invalid_format st = "") /\
  (invalid_format st = "" \/
   invalid_format st = "command_tag_missing" \/
   invalid_format st = "next_actions_missing").
Proof.
  intros Hst. apply reachable_consistent in Hst.
  destruct (kept_flag _ _ _ Hst) as [[Hflag Hs] | [Hc Hs]].
  - split; [split; congruence | left; exact Hflag].
  - split; [| right; exact Hc]. split; [congruence |].
    intros E. destruct Hc as [Hc | Hc]; rewrite Hc in E; discriminate.
Qed.

(** X14: the list [turns] only ever holds [True], one entry for each turn
    in which the game proceeded, and never more than [max_turns] entries:
    a turn is recorded only while no violation is flagged and the budget
    is not spent. *)
Theorem recorded_turns_true_and_bounded st :
  reachable st ->
  Forall (eq true) (turns st) /\
  Z.of_nat (length (turns st)) <= Z.max 0 (max_turns gi).
Proof.
  intros Hst. apply reachable_consistent in Hst.
  split; [exact (kept_turns _ _ _ Hst) | exact (kept_budget _ _ _ Hst)].
Qed.

(** X15: [finished] is set only with every required goal achieved: in a
    reachable state with [finished] the achieved goals are the goals of the
    instance, as many as [goals_required_cnt]. *)
Theorem finished_only_with_all_goals st :
  reachable st ->
  finished st = true ->
  goals_achieved st = list_to_set (goal_state gi) /\
  size (goals_achieved st) = goals_required_cnt st.
Proof.
  intros Hst Hfin. apply reachable_consistent in Hst.
  pose proof (kept_finished _ _ _ Hst Hfin) as Hgoals.
  rewrite (kept_count _ _ _ Hst), Hgoals.
  split; [exact (kept_required _ _ _ Hst) | reflexivity].
Qed.

(** X16: one [goal_status] event is logged for each recorded turn, and
    the goal scores of these events add up to the number of goals achieved
    at that point, also when goals are lost again and a turn's score is
    negative. *)
Theorem logged_goal_scores_add_up st :
  reachable st ->
  length (omap Reading.as_goal_score (concat (log (recorder st)))) =
    length (turns st) /\
  goal_scores (concat (log (recorder st))) =
    Z.of_nat (size (goals_achieved st)).
Proof.
  intros Hst. apply reachable_consistent in Hst.
  split; [exact (kept_statuses _ _ _ Hst) | exact (kept_scores _ _ _ Hst)].
Qed.

(** X17: what the logged events carry.  Every [invalid_format] event names
    one of the two categories, every [turn_limit_reached] event carries
    [max_turns], and every [adventure_finished] event and every
    [game_result] event that reports success lists as many goals as the
    instance requires. *)
Theorem logged_events_carry_their_data st (a : Log.action) :
  reachable st ->
  a ∈ concat (log (recorder st)) ->
  (forall c, a = Log.invalid_format c ->
     c = "command_tag_missing" \/ c = "next_actions_missing") /\
  (forall n, a = Log.turn_limit_reached n -> n = max_turns gi) /\
  (forall goals,
     a = Log.adventure_finished goals \/ a = Log.game_result goals true ->
     length goals = size (list_to_set (goal_state gi) : gset string)).
Proof.
  intros Hst Ha. apply reachable_consistent in Hst.
  pose proof (kept_log _ _ _ Hst) as Hlog.
  rewrite Forall_forall in Hlog. specialize (Hlog a Ha).
  split; [| split].
  - intros c ->. exact Hlog.
  - intros n ->. exact Hlog.
  - intros goals [-> | ->]; exact Hlog.
Qed.

(** X18: the hooks write no [adventure_info] event to the turn records:
    [_on_setup] hands that record to [log_key] (line 72), which keeps it
    apart from the turns.  So [compute_scores], which looks for it among
    the events of the turns (line 226), never returns scores on the turn
    records of the Game Master alone: it raises. *)
Theorem own_log_never_scored st :
  reachable st ->
  Forall (fun a => Reading.as_adventure_info a = None)
         (concat (log (recorder st))) /\
  exists e, Scorer.run (log (recorder st)) = inl e.
Proof.
  intros Hst. apply reachable_consistent in Hst.
  assert (Hno : Forall (fun a => Reading.as_adventure_info a = None)
                       (concat (log (recorder st)))).
  { eapply Forall_impl; [exact (kept_log _ _ _ Hst) |].
    intros [] Ha; try reflexivity. destruct Ha. }
  split; [exact Hno |].
  destruct (Scorer.run (log (recorder st))) as [e | scores] eqn:Hrun;
    [eauto |].
  assert (Hs : Reading.scorable (log (recorder st)) = true)
    by (apply run_scorable; eauto).
  apply latest_none_iff in Hno. unfold Reading.scorable in Hs.
  rewrite andb_true_iff in Hs. destruct Hs as [_ Hs].
  destruct (log (recorder st)); [discriminate |].
  rewrite Hno in Hs. discriminate.
Qed.

End Consistency.

(** ** Responses: validation, parsing, and the input of the interpreter *)

Section Responses.
Import Master.
Context {IF : Type}.
Implicit Types st : @state IF.

Lemma append_cons (c : ascii) (s t : string) :
  (String c s ++ t)%string = String c (s ++ t).
Proof. reflexivity. Qed.

Lemma append_empty_r (s : string) : (s ++ "")%string = s.
Proof.
  induction s as [| c s IH]; [reflexivity |].
  rewrite append_cons, IH. reflexivity.
Qed.

Lemma append_assoc (s t u : string) :
  ((s ++ t) ++ u)%string = (s ++ (t ++ u))%string.
Proof.
  induction s as [| c s IH]; [reflexivity |].
  rewrite !append_cons, IH. reflexivity.
Qed.

Lemma split_from_cons (sep : string) (skip : nat) (cur s : string) :
  exists piece pieces, split_from sep skip cur s = piece :: pieces.
Proof.
  revert skip cur. induction s as [| c s IH]; intros skip cur; cbn [split_from].
  - eauto.
  - destruct skip as [| k]; [| apply IH].
    destruct (String.prefix sep (String c s)); [eauto | apply IH].
Qed.

Lemma contains_cons (sep : string) (c : ascii) (s : string) :
  contains sep (String c s) =
  String.prefix sep (String c s) || contains sep s.
Proof. reflexivity. Qed.

(** A separator that occurs leaves a second piece. *)
Lemma split_second_piece (sep s cur : string) :
  sep <> "" ->
  contains sep s = true ->
  exists piece, split_from sep 0 cur s !! 1%nat = Some piece.
Proof.
  intros Hsep. revert cur. induction s as [| c s IH]; intros cur Hin.
  - destruct sep; [congruence | discriminate].
  - rewrite contains_cons in Hin. cbn [split_from].
    destruct (String.prefix sep (String c s)).
    + destruct (split_from_cons sep (String.length sep - 1) "" s)
        as (piece & pieces & ->).
      exists piece. reflexivity.
    + apply IH. exact Hin.
Qed.

(** A separator that does not occur leaves the text in one piece. *)
Lemma split_one_piece (sep s cur : string) :
  contains sep s = false ->
  split_from sep 0 cur s = [(cur ++ s)%string].
Proof.
  revert cur. induction s as [| c s IH]; intros cur Hout.
  - cbn [split_from]. rewrite append_empty_r. reflexivity.
  - rewrite contains_cons in Hout. apply orb_false_iff in Hout as [Hhere Hlater].
    cbn [split_from]. rewrite Hhere, (IH _ Hlater), append_assoc. reflexivity.
Qed.

Lemma prefix_newline (c : ascii) (s : string) :
  String.prefix newline (String c s) = Ascii.eqb c "010".
Proof.
  unfold newline. cbn [String.prefix].
  destruct (ascii_dec "010" c) as [<- | Hc].
  - destruct s; reflexivity.
  - symmetry. apply Ascii.eqb_neq. congruence.
Qed.

(** Up to the first line break. *)
Lemma split_newline_first (line rest cur : string) :
  contains newline line = false ->
  split_from newline 0 cur (line ++ newline ++ rest) =
  (cur ++ line)%string :: split_from newline 0 "" rest.
Proof.
  revert cur. induction line as [| c line IH]; intros cur Hout.
  - rewrite append_empty_r.
    change ("" ++ newline ++ rest)%string with (String "010" rest).
    cbn [split_from]. rewrite prefix_newline. reflexivity.
  - rewrite contains_cons in Hout. apply orb_false_iff in Hout as [Hhere Hlater].
    rewrite append_cons. cbn [split_from].
    rewrite prefix_newline in *. rewrite Hhere, (IH _ Hlater), append_assoc.
    reflexivity.
Qed.

Lemma next_actions_marker_nonempty : next_actions_marker <> "".
Proof. discriminate. Qed.

Lemma parse_without_plan st (p : nat) (utterance : string) :
  String.eqb (if_variant st) "plan" = false ->
  _on_parse_response p utterance st = inr ((utterance, true), st).
Proof.
  intros Hv. unfold _on_parse_response, bind, get, ret. rewrite Hv.
  reflexivity.
Qed.

Lemma parse_with_plan st (p : nat) (utterance : string) :
  String.eqb (if_variant st) "plan" = true ->
  _on_parse_response p utterance st =
  match split next_actions_marker utterance !! 1%nat with
  | Some new_plan =>
      inr ((utterance, true),
           set_plan_history (plan_history st ++ [new_plan]) st)
  | None => inl IndexError
  end.
Proof.
  intros Hv. unfold _on_parse_response, bind, get, ret, modify, raise.
  rewrite Hv. destruct (split next_actions_marker utterance !! 1%nat);
    reflexivity.
Qed.

(** A response of the player that passes validation leaves the Game
    Master as it is, and in the "plan" variant it holds the plan marker. *)
Lemma valid_response_marked st st1 (utterance : string) :
  _validate_player_response (player st) utterance st = (true, st1) ->
  st1 = st /\
  (if_variant st = "plan" ->
   contains next_actions_marker utterance = true).
Proof.
  unfold _validate_player_response. rewrite decide_True by reflexivity.
  destruct (startswith utterance ">"); cbn [negb]; [| discriminate].
  destruct (String.eqb_spec (if_variant st) "plan") as [Hplan | Hother].
  - destruct (contains next_actions_marker utterance); cbn [negb];
      [| discriminate].
    intros [= <-]. auto.
  - intros [= <-]. split; [reflexivity | contradiction].
Qed.

(** X19: a response of the player that passes validation is parsed without
    an exception.  Validation leaves the Game Master as it is; parsing
    returns the utterance unchanged with the request to log it; outside the
    "plan" variant nothing else changes, and in the "plan" variant the text
    after the first plan marker, up to the next one, is appended to the
    plan history. *)
Theorem validated_response_parses st st1 (utterance : string) :
  _validate_player_response (player st) utterance st = (true, st1) ->
  st1 = st /\
  exists st',
    _on_parse_response (player st) utterance st1 =
      inr ((utterance, true), st') /\
    (if_variant st <> "plan" -> st' = st) /\
    (if_variant st = "plan" ->
       exists new_plan,
         split next_actions_marker utterance !! 1%nat = Some new_plan /\
         st' = set_plan_history (plan_history st ++ [new_plan]) st).
Proof.
  unfold _validate_player_response. rewrite decide_True by reflexivity.
  destruct (startswith utterance ">"); cbn [negb]; [| discriminate].
  destruct (String.eqb_spec (if_variant st) "plan") as [Hplan | Hother].
  - destruct (contains next_actions_marker utterance) eqn:Hin; cbn [negb];
      [| discriminate].
    intros [= <-]. split; [reflexivity |].
    destruct (split_second_piece next_actions_marker utterance ""
                next_actions_marker_nonempty Hin) as [new_plan Hplan1].
    fold (split next_actions_marker utterance) in Hplan1.
    eexists. rewrite parse_with_plan, Hplan1
      by (apply String.eqb_eq; exact Hplan).
    split; [reflexivity |]. split; [congruence |]. eauto.
  - intros [= <-]. split; [reflexivity |]. exists st.
    rewrite parse_without_plan by (apply String.eqb_neq; exact Hother).
    split; [reflexivity |]. split; [reflexivity | congruence].
Qed.

(** X20: [_on_parse_response] raises exactly in the "plan" variant on an
    utterance without the plan marker, and then [IndexError], whichever
    player the response is from; in every other case it returns the
    utterance unchanged with the request to log it. *)
Theorem parse_response_index_error st (p : nat) (utterance : string) :
  (_on_parse_response p utterance st = inl IndexError <->
   if_variant st = "plan" /\
   contains next_actions_marker utterance = false) /\
  ((exists st', _on_parse_response p utterance st =
                  inr ((utterance, true), st')) \/
   _on_parse_response p utterance st = inl IndexError).
Proof.
  destruct (String.eqb_spec (if_variant st) "plan") as [Hplan | Hother].
  - rewrite parse_with_plan by (apply String.eqb_eq; exact Hplan).
    destruct (contains next_actions_marker utterance) eqn:Hin.
    + destruct (split_second_piece next_actions_marker utterance ""
                  next_actions_marker_nonempty Hin) as [new_plan Hplan1].
      fold (split next_actions_marker utterance) in Hplan1.
      rewrite Hplan1. split; [| eauto].
      split; [discriminate | intros [_ [=]]].
    + unfold split. rewrite (split_one_piece _ _ _ Hin). cbn [lookup].
      split; [| right; reflexivity]. split; [auto | reflexivity].
  - rewrite parse_without_plan by (apply String.eqb_neq; exact Hother).
    split; [| eauto]. split; [discriminate | intros [? _]; contradiction].
Qed.

(** X21: what reaches the interpreter (line 164) is the first line of the
    player's message after its first character, without the white space
    around it: whatever follows the first line break is dropped, and so is
    the plan of the "plan" variant, whose marker begins with a line break.
    An empty message gives the empty input. *)
Theorem if_input_is_first_line (c : ascii) (line rest : string) :
  contains newline line = false ->
  if_input_of (String c line) = strip line /\
  if_input_of (String c (line ++ newline ++ rest)) = strip line /\
  if_input_of (String c (line ++ next_actions_marker ++ rest)) = strip line /\
  if_input_of "" = "".
Proof.
  intros Hline. unfold if_input_of, split. cbn [tail].
  rewrite (split_one_piece _ _ _ Hline).
  unfold next_actions_marker. rewrite append_assoc.
  rewrite !(split_newline_first _ _ _ Hline).
  repeat split; reflexivity.
Qed.

(** X22: a stop is logged at every call.  When [_does_game_proceed]
    returns false it appends one event to the log, the violation, the
    finish or the turn limit; asked again it returns false again and
    appends the same event once more. *)
Theorem stop_is_logged_at_each_call st :
  fst (_does_game_proceed st) = false ->
  exists a,
    (a = Log.invalid_format (invalid_format st) \/
     a = Log.adventure_finished (elements (goals_achieved st)) \/
     a = Log.turn_limit_reached (max_turns (game_instance st))) /\
    concat (log (recorder (snd (_does_game_proceed st)))) =
      concat (log (recorder st)) ++ [a] /\
    fst (_does_game_proceed (snd (_does_game_proceed st))) = false /\
    concat (log (recorder
              (snd (_does_game_proceed (snd (_does_game_proceed st)))))) =
      concat (log (recorder st)) ++ [a; a].
Proof.
  unfold _does_game_proceed at 1 2 4 6.
  destruct (truthy (invalid_format st)) eqn:Hflag; cbn [fst snd].
  { intros _. eexists. split; [left; reflexivity |].
    unfold _does_game_proceed. state_simpl. rewrite Hflag. state_simpl.
    rewrite !concat_record_event, <- app_assoc. auto. }
  case_bool_decide as Hgoals; cbn [fst snd].
  { intros _. eexists. split; [right; left; reflexivity |].
    unfold _does_game_proceed. state_simpl.
    rewrite Hflag, bool_decide_eq_true_2 by exact Hgoals. state_simpl.
    rewrite !concat_record_event, <- app_assoc. auto. }
  case_bool_decide as Hturns; cbn [fst snd]; [| discriminate].
  intros _. eexists. split; [right; right; reflexivity |].
  unfold _does_game_proceed. state_simpl.
  rewrite Hflag, bool_decide_eq_false_2, bool_decide_eq_true_2
    by assumption.
  state_simpl. rewrite !concat_record_event, <- app_assoc. auto.
Qed.

End Responses.

(** ** A whole episode *)

Section Episode.
Import Master Reach.
Context {IF : Type}.
Variable BasicIFInterpreter : GameInstance -> IF.
Variable get_full_room_desc : IF -> string.
Variable process_action : IF -> string -> IF * (gset string * string * option Fail).
Variable respond : list (string * string) -> string.
Variable self_player : nat.
Variable gi : GameInstance.
Implicit Types st : @state IF.

Abbreviation reachable :=
  (@reachable IF BasicIFInterpreter get_full_room_desc process_action
     self_player gi).

Lemma snoc_nonempty {A} (l : list A) (x : A) : l ++ [x] <> [].
Proof. destruct l; discriminate. Qed.

(** An event goes to the last turn of the log. *)
Lemma record_event_snoc (a : Log.action) (earlier : Log.turns)
    (current : list Log.action) :
  record_event a (earlier ++ [current]) = earlier ++ [current ++ [a]].
Proof.
  unfold record_event. rewrite reverse_app. cbn [reverse app].
  change (reverse [current]) with [current]. cbn [app].
  rewrite reverse_involutive. reflexivity.
Qed.

(** The answer of [_does_game_proceed] depends on four attributes only. *)
Lemma proceeds_alike st st' :
  _does_game_proceed st = (true, st) ->
  invalid_format st' = "" ->
  goals_achieved st' = goals_achieved st ->
  goals_required st' = goals_required st ->
  turns st' = turns st ->
  game_instance st' = game_instance st ->
  _does_game_proceed st' = (true, st').
Proof.
  intros Hdgp Hflag Hachieved Hrequired Hturns Hinstance.
  apply proceeds_unchanged in Hdgp. destruct Hdgp as (_ & _ & Hgoals & Hlt).
  apply does_game_proceed_goes_on; [exact Hflag | congruence |].
  rewrite Hturns, Hinstance. exact Hlt.
Qed.

(** What a stop logs: one event, which is an [invalid_format] event exactly
    when the flag is set, and never a [goal_status]. *)
Lemma stop_event st :
  fst (_does_game_proceed st) = false ->
  exists a,
    log (recorder (snd (_does_game_proceed st))) =
      record_event a (log (recorder st)) /\
    invalid_format (snd (_does_game_proceed st)) = invalid_format st /\
    Reading.is_goal_status a = false /\
    (invalid_format st <> "" -> Reading.is_invalid_format a = true) /\
    (invalid_format st = "" -> Reading.is_invalid_format a = false).
Proof.
  unfold _does_game_proceed.
  destruct (truthy (invalid_format st)) eqn:Hflag; cbn [fst snd].
  { intros _. eexists. state_simpl. repeat split; try reflexivity.
    intros Hnone. apply truthy_true in Hflag. contradiction. }
  apply truthy_false in Hflag.
  case_bool_decide as Hgoals; cbn [fst snd].
  { intros _. eexists. state_simpl. repeat split; try reflexivity.
    intros Hset. contradiction. }
  case_bool_decide as Hturns; cbn [fst snd]; [| discriminate].
  intros _. eexists. state_simpl. repeat split; try reflexivity.
  intros Hset. contradiction.
Qed.

(** Prompting the player never raises: a response that fails validation
    is not parsed, and one that passes has the marker that parsing needs.
    It writes nothing to the log and leaves goals and turns alone. *)
Lemma prompt_player_steps st :
  reachable st ->
  exists st',
    prompt_player respond st = inr (tt, st') /\
    reachable st' /\
    (messages (recorder st) <> [] -> messages (recorder st') <> []) /\
    turns st' = turns st /\
    goals_achieved st' = goals_achieved st /\
    goals_required st' = goals_required st /\
    game_instance st' = game_instance st /\
    log (recorder st') = log (recorder st).
Proof.
  intros Hst. unfold prompt_player. unfold bind at 1. unfold get at 1.
  set (utterance := respond (messages (recorder st))).
  pose proof (call_validate get_full_room_desc process_action
                (player st) utterance st) as Hcall.
  destruct (_validate_player_response (player st) utterance st)
    as [valid st1] eqn:Hvalid.
  cbn [snd] in Hcall. rewrite bind_modify.
  assert (Hst1 : reachable st1) by (eapply reach_call; eassumption).
  destruct valid.
  - destruct (valid_response_marked st st1 utterance Hvalid) as [-> Hmarked].
    destruct (String.eqb_spec (if_variant st) "plan") as [Hplan | Hother].
    + destruct (split_second_piece next_actions_marker utterance ""
                  next_actions_marker_nonempty (Hmarked Hplan))
        as [new_plan Hplan1].
      fold (split next_actions_marker utterance) in Hplan1.
      assert (Hparse : _on_parse_response (player st) utterance st =
                inr ((utterance, true),
                     set_plan_history (plan_history st ++ [new_plan]) st)).
      { rewrite parse_with_plan, Hplan1 by (apply String.eqb_eq; exact Hplan).
        reflexivity. }
      unfold bind. rewrite Hparse. eexists. split; [reflexivity |].
      split; [| state_simpl; repeat split; intros _; apply snoc_nonempty].
      eapply reach_call; [| apply call_add_message].
      eapply reach_call; [exact Hst |]. eapply call_parse. exact Hparse.
    + assert (Hparse : _on_parse_response (player st) utterance st =
                inr ((utterance, true), st))
        by (apply parse_without_plan, String.eqb_neq; exact Hother).
      unfold bind. rewrite Hparse. eexists. split; [reflexivity |].
      split; [| state_simpl; repeat split; intros _; apply snoc_nonempty].
      eapply reach_call; [exact Hst | apply call_add_message].
  - exists st1. split; [reflexivity |]. split; [exact Hst1 |].
    revert Hvalid. unfold _validate_player_response.
    repeat (match goal with |- context [if ?b then _ else _] => destruct b end);
      intros [= <-]; state_simpl; repeat split; auto.
Qed.

(** After a turn with the flag set: the violation is logged and nothing
    else happens. *)
Lemma after_turn_violated (turn_idx : nat) st :
  invalid_format st <> "" ->
  _on_after_turn process_action turn_idx st =
  inr (tt, log_to_self (Log.invalid_format (invalid_format st)) st).
Proof.
  intros Hset. unfold _on_after_turn, bind, get, modify.
  rewrite (does_game_proceed_flag_set st Hset). reflexivity.
Qed.

(** After a turn in which the game proceeds: the hook does not raise on a
    history that is not empty; the events it logs go to the turn in
    progress, a [goal_status] among them and no [invalid_format]; the flag
    stays as it is and one more turn is recorded. *)
Lemma after_turn_recorded (turn_idx : nat) st (earlier : Log.turns)
    (current : list Log.action) :
  _does_game_proceed st = (true, st) ->
  messages (recorder st) <> [] ->
  log (recorder st) = earlier ++ [current] ->
  exists st' events,
    _on_after_turn process_action turn_idx st = inr (tt, st') /\
    log (recorder st') = earlier ++ [current ++ events] /\
    existsb Reading.is_goal_status events = true /\
    existsb Reading.is_invalid_format events = false /\
    invalid_format st' = invalid_format st /\
    messages (recorder st') <> [] /\
    length (turns st') = S (length (turns st)).
Proof.
  intros Hdgp Hmessages Hlog. unfold _on_after_turn, bind, get, modify.
  rewrite Hdgp.
  destruct (last (messages (recorder st))) as [[role last_action] |] eqn:Hl.
  2:{ apply last_None in Hl. contradiction. }
  destruct (process_action _ _) as [world [[goals response] fail]].
  destruct fail as [fl |]; eexists.
  - exists [Log.action_fail (phase fl) (fail_type fl); Log.other "action_fail";
            Log.goal_status (elements goals)
              (Z.of_nat (size goals) - Z.of_nat (size (goals_achieved st)));
            Log.other "goal_status"].
    split; [reflexivity |]. state_simpl.
    rewrite Hlog, !record_event_snoc, <- !app_assoc, length_app.
    repeat split; try reflexivity; [apply snoc_nonempty | cbn [length]; lia].
  - exists [Log.goal_status (elements goals)
              (Z.of_nat (size goals) - Z.of_nat (size (goals_achieved st)));
            Log.other "goal_status"].
    split; [reflexivity |]. state_simpl.
    rewrite Hlog, !record_event_snoc, <- !app_assoc, length_app.
    repeat split; try reflexivity; [apply snoc_nonempty | cbn [length]; lia].
Qed.

(** The log when the loop stops at the head of a turn: the stop and the
    result go to the last turn. *)
Lemma stopped_log st :
  reachable st ->
  fst (_does_game_proceed st) = false ->
  log (recorder st) <> [] ->
  (invalid_format st = "" ->
   forallb (existsb Reading.is_goal_status) (log (recorder st)) = true /\
   existsb Reading.is_invalid_format (concat (log (recorder st))) = false /\
   length (log (recorder st)) = length (turns st)) ->
  (invalid_format st <> "" ->
   exists earlier current,
     log (recorder st) = earlier ++ [current] /\
     existsb Reading.is_goal_status current = false /\
     length earlier = length (turns st) /\
     Z.of_nat (length (turns st)) < max_turns gi) ->
  existsb Reading.is_invalid_format
    (concat (log (recorder (_on_after_game (snd (_does_game_proceed st)))))) =
    negb (forallb (existsb Reading.is_goal_status)
            (log (recorder (_on_after_game (snd (_does_game_proceed st)))))) /\
  (1 <= length (log (recorder (_on_after_game (snd (_does_game_proceed st))))))%nat /\
  Z.of_nat (length (log (recorder (_on_after_game (snd (_does_game_proceed st))))))
    <= max_turns gi.
Proof.
  intros Hst Hstop Hsome Hclean Hviolated.
  destruct (stop_event st Hstop) as (a & Hlog & Hflag & Hstatus & Hset & Hnone).
  pose proof (kept_budget _ _ _ (reachable_consistent _ _ _ _ _ st Hst))
    as Hbudget.
  unfold _on_after_game. state_simpl. rewrite Hlog. clear Hlog.
  destruct (decide (invalid_format st = "")) as [Hempty | Hflagged].
  - destruct (Hclean Hempty) as (Hall & Hno & Hlength).
    destruct (exists_last Hsome) as (earlier & current & Hsplit).
    rewrite Hsplit in *. rewrite !record_event_snoc.
    rewrite forallb_app, concat_app in *. rewrite !length_app in *.
    cbn [forallb concat length] in *. rewrite !app_nil_r in *.
    rewrite !existsb_app in *. cbn [existsb].
    rewrite (Hnone Hempty), Hstatus.
    apply andb_true_iff in Hall as [-> Hcurrent].
    rewrite andb_true_r in Hcurrent. rewrite Hcurrent.
    apply orb_false_iff in Hno as [-> ->].
    split; [reflexivity | lia].
  - destruct (Hviolated Hflagged)
      as (earlier & current & Hsplit & Hnot & Hlength & Hlt).
    rewrite Hsplit, !record_event_snoc.
    rewrite forallb_app, concat_app, !length_app.
    cbn [forallb concat length]. rewrite !app_nil_r.
    rewrite !existsb_app. cbn [existsb].
    rewrite (Hset Hflagged), Hstatus, Hnot.
    cbn [orb]. rewrite !orb_true_r, !andb_false_r.
    split; [reflexivity | lia].
Qed.

(** The loop, from any state it passes through at the head of a turn: it
    ends within the budget of turns, with the result logged last; and
    unless it stops before any turn is opened, the log then has at most
    [max_turns] turns and holds an [invalid_format] event exactly when one
    of its turns holds no [goal_status] event. *)
Lemma turn_loop_ends (budget turn_idx : nat) st :
  reachable st ->
  messages (recorder st) <> [] ->
  (invalid_format st = "" ->
   forallb (existsb Reading.is_goal_status) (log (recorder st)) = true /\
   existsb Reading.is_invalid_format (concat (log (recorder st))) = false /\
   length (log (recorder st)) = length (turns st)) ->
  (invalid_format st <> "" ->
   exists earlier current,
     log (recorder st) = earlier ++ [current] /\
     existsb Reading.is_goal_status current = false /\
     length earlier = length (turns st) /\
     Z.of_nat (length (turns st)) < max_turns gi) ->
  (fst (_does_game_proceed st) = false \/
   (Z.to_nat (max_turns gi) - length (turns st) < budget)%nat) ->
  exists st',
    turn_loop process_action respond budget turn_idx st = inr (tt, st') /\
    reachable st' /\
    last (concat (log (recorder st'))) =
      Some (Log.game_result (elements (goals_achieved st')) (finished st')) /\
    ((log (recorder st) = [] -> fst (_does_game_proceed st) = true) ->
     existsb Reading.is_invalid_format (concat (log (recorder st'))) =
       negb (forallb (existsb Reading.is_goal_status) (log (recorder st'))) /\
     (1 <= length (log (recorder st')))%nat /\
     Z.of_nat (length (log (recorder st'))) <= max_turns gi).
Proof.
  revert turn_idx st. induction budget as [| budget IH];
    intros turn_idx st Hst Hmessages Hclean Hviolated Hbudget.
  all: destruct (fst (_does_game_proceed st)) eqn:Hproceed.
  all: try (rewrite (turn_loop_stops process_action respond _ turn_idx st)
              by exact Hproceed;
            eexists; split; [reflexivity |]; split;
            [ eapply reach_call; [| apply call_after_game];
              eapply reach_call; [exact Hst | apply call_proceed] |];
            split;
            [ unfold _on_after_game; state_simpl;
              rewrite concat_record_event, last_snoc; reflexivity |];
            intros Hfirst; apply stopped_log; try assumption;
            intros Hnil; specialize (Hfirst Hnil); discriminate).
  - destruct Hbudget as [Hstop | Hlt]; [discriminate | lia].
  - destruct Hbudget as [Hstop | Hlt]; [discriminate |].
    destruct (_does_game_proceed st) as [proceed st1] eqn:Hdgp.
    cbn [fst] in Hproceed. subst proceed.
    apply proceeds_unchanged in Hdgp as Hgoes.
    destruct Hgoes as (-> & Hflag & _ & Hturns).
    rewrite (kept_instance _ _ _ (reachable_consistent _ _ _ _ _ st Hst))
      in Hturns.
    destruct (Hclean Hflag) as (Hall & Hno & Hlength).
    cbn [turn_loop]. unfold bind at 1. unfold get at 1. rewrite Hdgp.
    rewrite !bind_modify.
    assert (Hnext : reachable (log_next_turn st))
      by (eapply reach_call; [exact Hst | apply call_next_turn]).
    destruct (prompt_player_steps _ Hnext)
      as (st2 & Hprompt & Hst2 & Hmessages2 & Hturns2 & Hachieved2 &
          Hrequired2 & Hinstance2 & Hlog2).
    revert Hturns2 Hachieved2 Hrequired2 Hinstance2 Hlog2 Hmessages2.
    state_simpl. intros Hturns2 Hachieved2 Hrequired2 Hinstance2 Hlog2 Hmessages2.
    unfold bind at 1. rewrite Hprompt.
    assert (Hthen : exists st3,
              _on_after_turn process_action turn_idx st2 = inr (tt, st3) /\
              messages (recorder st3) <> [] /\
              log (recorder st3) <> [] /\
              (invalid_format st3 = "" ->
               forallb (existsb Reading.is_goal_status) (log (recorder st3))
                 = true /\
               existsb Reading.is_invalid_format (concat (log (recorder st3)))
                 = false /\
               length (log (recorder st3)) = length (turns st3)) /\
              (invalid_format st3 <> "" ->
               exists earlier current,
                 log (recorder st3) = earlier ++ [current] /\
                 existsb Reading.is_goal_status current = false /\
                 length earlier = length (turns st3) /\
                 Z.of_nat (length (turns st3)) < max_turns gi) /\
              (fst (_does_game_proceed st3) = false \/
               (Z.to_nat (max_turns gi) - length (turns st3) < budget)%nat)).
    { destruct (decide (invalid_format st2 = "")) as [Hempty | Hflagged].
      - assert (Hdgp2 : _does_game_proceed st2 = (true, st2))
          by (apply (proceeds_alike st st2); assumption).
        destruct (after_turn_recorded turn_idx st2 (log (recorder st)) []
                    Hdgp2 (Hmessages2 Hmessages) Hlog2)
          as (st3 & events & Hafter & Hlog3 & Hstatus & Hnone & Hflag3 &
              Hmessages3 & Hturns3).
        exists st3. split; [exact Hafter |]. split; [exact Hmessages3 |].
        rewrite Hlog3, Hflag3. split; [apply snoc_nonempty |].
        split; [| split].
        + intros _. rewrite forallb_app, concat_app, existsb_app, length_app.
          cbn [forallb concat app length].
          rewrite app_nil_r, Hall, Hno, Hstatus, Hnone, Hturns3, Hturns2.
          repeat split; try reflexivity. lia.
        + intros Hne. contradiction.
        + right. rewrite Hturns3, Hturns2. lia.
      - exists (log_to_self (Log.invalid_format (invalid_format st2)) st2).
        split; [apply after_turn_violated; exact Hflagged |]. state_simpl.
        rewrite Hlog2, record_event_snoc.
        split; [exact (Hmessages2 Hmessages) |].
        split; [apply snoc_nonempty |]. split; [| split].
        + intros Hempty. contradiction.
        + intros _. exists (log (recorder st)). eexists.
          rewrite Hturns2. repeat split; assumption.
        + left. rewrite does_game_proceed_flag_set; [reflexivity |].
          state_simpl. exact Hflagged. }
    destruct Hthen as (st3 & Hafter & Hmessages3 & Hlog3 & Hclean3 &
                       Hviolated3 & Hbudget3).
    unfold bind at 1. rewrite Hafter.
    assert (Hst3 : reachable st3).
    { eapply reach_call; [exact Hst2 |].
      apply (call_after_turn get_full_room_desc process_action turn_idx).
      exact Hafter. }
    destruct (IH (S turn_idx) st3 Hst3 Hmessages3 Hclean3 Hviolated3 Hbudget3)
      as (st' & Hloop & Hst' & Hlast & Hrel).
    exists st'. split; [exact Hloop |]. split; [exact Hst' |].
    split; [exact Hlast |]. intros _. apply Hrel.
    intros Hnil. contradiction.
Qed.

Lemma opening_proceeds :
  goal_state gi <> [] ->
  0 < max_turns gi ->
  fst (_does_game_proceed
         (_on_before_game get_full_room_desc
            (_on_setup BasicIFInterpreter self_player gi))) = true.
Proof.
  intros Hgoals Hmax. rewrite does_game_proceed_goes_on; [reflexivity | ..].
  - reflexivity.
  - apply goals_required_nonempty. exact Hgoals.
  - cbn. lia.
Qed.

(** X23: an episode always comes to its end.  Whatever the interpreter
    answers and whatever the player responds, playing an instance raises
    no exception and returns the log of a Game Master that the hooks
    reach; the last event of that log is the [game_result] event of
    [_on_after_game], with the goals achieved and the finish at the end;
    and the log has at least one turn and at most [max_turns] turns, or one
    turn when [max_turns] is not positive: the turn that then holds the
    stop and the result. *)
Theorem episode_ends_with_game_result :
  exists st,
    reachable st /\
    play BasicIFInterpreter get_full_room_desc process_action respond
         self_player gi = inr (log (recorder st)) /\
    last (concat (log (recorder st))) =
      Some (Log.game_result (elements (goals_achieved st)) (finished st)) /\
    (1 <= length (log (recorder st)))%nat /\
    Z.of_nat (length (log (recorder st))) <= Z.max 1 (max_turns gi).
Proof.
  unfold play.
  set (st0 := _on_before_game get_full_room_desc
                (_on_setup BasicIFInterpreter self_player gi)).
  assert (Hst0 : reachable st0).
  { eapply reach_call; [apply reach_setup | apply call_before_game]. }
  destruct (fst (_does_game_proceed st0)) eqn:Hproceed.
  - destruct (turn_loop_ends (S (Z.to_nat (max_turns gi))) 0 st0 Hst0)
      as (st & Hloop & Hst & Hlast & Hrel).
    + discriminate.
    + intros _. repeat split; reflexivity.
    + intros Hset. destruct Hset. reflexivity.
    + right. cbn [st0]. state_simpl. cbn [length]. lia.
    + destruct (Hrel (fun _ => Hproceed)) as (_ & Hone & Hmax).
      exists st. rewrite Hloop. repeat split; try assumption. lia.
  - rewrite (turn_loop_stops process_action respond _ 0 st0 Hproceed).
    destruct (stop_event st0 Hproceed) as (a & Hlog & _).
    exists (_on_after_game (snd (_does_game_proceed st0))).
    split; [| split; [reflexivity |]].
    + eapply reach_call; [| apply call_after_game].
      eapply reach_call; [exact Hst0 | apply call_proceed].
    + unfold _on_after_game. state_simpl. rewrite Hlog.
      split; [rewrite concat_record_event, last_snoc; reflexivity |].
      change (log (recorder st0)) with (@nil (list Log.action)).
      change (record_event a []) with ([] ++ [[a]]).
      rewrite record_event_snoc. cbn [app length]. lia.
Qed.

(** X24: the episodes that cannot be scored for a missing goal score are
    the aborted ones.  In a game with a goal to reach and a positive turn
    budget, whatever the interpreter answers and whatever the player
    responds, scoring the log of the episode raises [KeyError] on
    ["goal_score"] exactly when the log holds an [invalid_format] event,
    that is when the episode was stopped for a format violation, at
    whichever turn: the turn of the violation then has no [goal_status]
    event, and every turn of every other episode has one. *)
Theorem aborted_episodes_lack_goal_score :
  goal_state gi <> [] ->
  0 < max_turns gi ->
  exists log,
    play BasicIFInterpreter get_full_room_desc process_action respond
         self_player gi = inr log /\
    (Scorer.run log = inl (KeyError "goal_score") <->
     Exists (fun a => Reading.is_invalid_format a = true) (concat log)) /\
    (forallb (existsb Reading.is_goal_status) log = true <->
     Forall (fun a => Reading.is_invalid_format a = false) (concat log)).
Proof.
  intros Hgoals Hmax. unfold play.
  set (st0 := _on_before_game get_full_room_desc
                (_on_setup BasicIFInterpreter self_player gi)).
  assert (Hst0 : reachable st0).
  { eapply reach_call; [apply reach_setup | apply call_before_game]. }
  destruct (turn_loop_ends (S (Z.to_nat (max_turns gi))) 0 st0 Hst0)
    as (st & Hloop & _ & _ & Hrel).
  - discriminate.
  - intros _. repeat split; reflexivity.
  - intros Hset. destruct Hset. reflexivity.
  - right. cbn [st0]. state_simpl. cbn [length]. lia.
  - destruct (Hrel (fun _ => opening_proceeds Hgoals Hmax)) as (Hiff & _).
    exists (log (recorder st)). rewrite Hloop. split; [reflexivity |].
    rewrite key_error_iff_unstatused.
    rewrite <- (existsb_Exists_iff Reading.is_invalid_format).
    rewrite <- (forallb_Forall_iff Reading.is_invalid_format).
    rewrite Hiff.
    destruct (forallb (existsb Reading.is_goal_status) (log (recorder st)));
      cbn [negb]; split; split; congruence.
Qed.

(** X25: an episode keeps to its turn budget.  In a game with a goal to
    reach and a positive turn budget, whatever the interpreter answers and
    whatever the player responds, the log of the episode has at least one
    turn and at most [max_turns] turns. *)
Theorem episode_within_turn_budget :
  goal_state gi <> [] ->
  0 < max_turns gi ->
  exists log,
    play BasicIFInterpreter get_full_room_desc process_action respond
         self_player gi = inr log /\
    (1 <= length log)%nat /\
    Z.of_nat (length log) <= max_turns gi.
Proof.
  intros Hgoals Hmax. unfold play.
  set (st0 := _on_before_game get_full_room_desc
                (_on_setup BasicIFInterpreter self_player gi)).
  assert (Hst0 : reachable st0).
  { eapply reach_call; [apply reach_setup | apply call_before_game]. }
  destruct (turn_loop_ends (S (Z.to_nat (max_turns gi))) 0 st0 Hst0)
    as (st & Hloop & _ & _ & Hrel).
  - discriminate.
  - intros _. repeat split; reflexivity.
  - intros Hset. destruct Hset. reflexivity.
  - right. cbn [st0]. state_simpl. cbn [length]. lia.
  - destruct (Hrel (fun _ => opening_proceeds Hgoals Hmax)) as (_ & Hbounds).
    exists (log (recorder st)). rewrite Hloop. split; [reflexivity | exact Hbounds].
Qed.

End Episode.

(** * The further properties at concrete logs and games *)

Section ScorerAtLogs.
Import Log Reading Scorer Examples.

Lemma zero_division_error_witness :
  run exhausted_at_par_log = inl ZeroDivisionError <->
  forallb (existsb is_goal_status) exhausted_at_par_log = true /\
  (exhausted_at_par_log = [] \/
   exists info,
     latest as_adventure_info (concat exhausted_at_par_log) = Some info /\
     (max_turns info = optimal_turns info \/ goal_count info = 0)).
Proof. exact (zero_division_error exhausted_at_par_log eq_refl). Defined.

Lemma scoring_outcomes_witness :
  (scorable finished_log = true <->
   exists scores, run finished_log = inr scores) /\
  ((exists scores, run finished_log = inr scores) \/
   run finished_log = inl (KeyError "goal_score") \/
   run finished_log = inl (KeyError "optimal_turns") \/
   run finished_log = inl ZeroDivisionError).
Proof. exact (scoring_outcomes finished_log eq_refl). Defined.

Lemma request_totals_witness :
  exists scores parsed violated per_turn,
    run violation_log = inr scores /\
    logged_episode scores METRIC_REQUEST_COUNT =
      Some (VInt (Z.of_nat (length violation_log))) /\
    logged_episode scores METRIC_REQUEST_COUNT_PARSED = Some (VInt parsed) /\
    logged_episode scores METRIC_REQUEST_COUNT_VIOLATED = Some (VInt violated) /\
    0 <= parsed /\ 0 <= violated /\
    parsed + violated = Z.of_nat (length violation_log) /\
    logged_episode scores METRIC_REQUEST_SUCCESS =
      Some (VFloat (PrimFloat.div
                      (float_of_Z parsed)
                      (float_of_Z (Z.of_nat (length violation_log))))) /\
    length per_turn = length violation_log /\
    (forall k p, per_turn !! k = Some p ->
       logged_turn scores k METRIC_REQUEST_COUNT_PARSED = Some (VInt p)) /\
    parsed = sum per_turn.
Proof. exact (request_totals violation_log eq_refl eq_refl). Defined.

Lemma failure_totals_witness :
  exists scores,
    run finished_log = inr scores /\
    (forall k turn, finished_log !! k = Some turn ->
       logged_turn scores k (flag_name "parsing") =
         Some (VInt (flag turn "parsing"))) /\
    logged_episode scores (flag_name "parsing") =
      Some (VInt (sum (map (fun turn => flag turn "parsing") finished_log))).
Proof.
  exact (failure_totals finished_log "parsing" eq_refl (or_introl eq_refl)).
Defined.

Lemma terminal_flags_witness :
  exists scores,
    run exhausted_log = inr scores /\
    logged_episode scores "turn_limit_loss" =
      Some (VInt (Z.b2z (existsb is_turn_limit_reached
                           (concat exhausted_log)))) /\
    logged_episode scores METRIC_ABORTED =
      Some (VInt (Z.b2z (negb (String.eqb
                                 (marker_after "" (concat exhausted_log))
                                 "")))) /\
    logged_episode scores METRIC_SUCCESS =
      Some (VInt (Z.b2z (snd (default ([], false)
                                 (latest as_game_result
                                    (concat exhausted_log)))))) /\
    logged_episode scores METRIC_LOSE =
      Some (VInt (1 - Z.b2z (snd (default ([], false)
                                     (latest as_game_result
                                        (concat exhausted_log)))))).
Proof. exact (terminal_flags exhausted_log eq_refl). Defined.

Lemma goal_score_of_last_goal_status_witness :
  exists scores,
    run violation_log = inr scores /\
    logged_turn scores 1 "goal_score" = Some (VInt 0).
Proof.
  exact (goal_score_of_last_goal_status violation_log 1
           [Log.invalid_format "next_actions_missing"] [] ["A"] 0
           eq_refl eq_refl eq_refl).
Defined.

Lemma finished_episode_par_scores_witness :
  exists scores ratio achieved,
    run finished_log = inr scores /\
    logged_episode scores "turns_over_par" =
      Some (VInt (Z.of_nat (length finished_log) - optimal_turns info_10_6_4)) /\
    ratio =
      PrimFloat.sub 1
        (PrimFloat.div
           (float_of_Z (Z.of_nat (length finished_log)
                        - optimal_turns info_10_6_4))
           (float_of_Z (max_turns info_10_6_4 - optimal_turns info_10_6_4))) /\
    achieved =
      PrimFloat.div (float_of_Z (Z.of_nat (length ["A"; "B"; "C"])))
                    (float_of_Z (goal_count info_10_6_4)) /\
    logged_episode scores "turn_ratio" = Some (VFloat ratio) /\
    logged_episode scores "achieved_goal_ratio" = Some (VFloat achieved) /\
    logged_episode scores BENCH_SCORE =
      Some (VFloat (PrimFloat.mul achieved ratio)).
Proof.
  exact (finished_episode_par_scores finished_log info_10_6_4 ["A"; "B"; "C"]
           eq_refl eq_refl eq_refl eq_refl).
Defined.

Lemma no_score_logged_twice_witness :
  exists scores,
    run finished_log = inr scores /\
    NoDup (map fst (turn_scores_log scores)) /\
    NoDup (map fst (episode_scores_log scores)).
Proof. exact (no_score_logged_twice finished_log eq_refl). Defined.

Lemma rescoring_keeps_readings_witness :
  exists s1 s2,
    compute_scores violation_log no_scores = inr (tt, s1) /\
    compute_scores violation_log s1 = inr (tt, s2) /\
    (forall name, logged_episode s2 name = logged_episode s1 name) /\
    (forall k name, logged_turn s2 k name = logged_turn s1 k name).
Proof.
  destruct (compute_scores violation_log no_scores) as [e | [[] s1]] eqn:H1.
  - exfalso. vm_compute in H1. discriminate.
  - destruct (rescoring_keeps_readings violation_log s1 H1)
      as (s2 & H2 & Hepisode & Hturn).
    exists s1, s2. auto.
Defined.

End ScorerAtLogs.

Section GameMasterAtGames.
Import Master Reach Examples.

Lemma opened_reachable :
  reachable still_world still_room Won.winning_action 0 one_goal_game
    Won.opened.
Proof. eapply reach_call; [apply reach_setup | apply call_before_game]. Qed.

Lemma violated_reachable :
  reachable still_world still_room Won.winning_action 0 one_goal_game
    Won.violated.
Proof. eapply reach_call; [apply opened_reachable | apply call_validate]. Qed.

Lemma won_reachable :
  reachable still_world still_room Won.winning_action 0 one_goal_game
    Won.won.
Proof.
  eapply reach_call; [| apply call_proceed].
  eapply reach_call; [apply opened_reachable |].
  apply (call_after_turn still_room Won.winning_action 0).
  reflexivity.
Qed.

Lemma flag_and_success_agree_witness :
  (success Won.violated = true <-> invalid_format Won.violated = "") /\
  (invalid_format Won.violated = "" \/
   invalid_format Won.violated = "command_tag_missing" \/
   invalid_format Won.violated = "next_actions_missing").
Proof.
  exact (flag_and_success_agree still_world still_room Won.winning_action
           0%nat one_goal_game Won.violated violated_reachable).
Defined.

Lemma recorded_turns_true_and_bounded_witness :
  Forall (eq true) (turns Won.won) /\
  Z.of_nat (length (turns Won.won)) <= Z.max 0 (max_turns one_goal_game).
Proof.
  exact (recorded_turns_true_and_bounded still_world still_room
           Won.winning_action 0%nat one_goal_game Won.won won_reachable).
Defined.

Lemma finished_only_with_all_goals_witness :
  goals_achieved Won.won = list_to_set (goal_state one_goal_game) /\
  size (goals_achieved Won.won) = goals_required_cnt Won.won.
Proof.
  apply (finished_only_with_all_goals still_world still_room
           Won.winning_action 0%nat one_goal_game Won.won won_reachable).
  reflexivity.
Defined.

Lemma logged_goal_scores_add_up_witness :
  length (omap Reading.as_goal_score (concat (log (recorder Won.won)))) =
    length (turns Won.won) /\
  goal_scores (concat (log (recorder Won.won))) =
    Z.of_nat (size (goals_achieved Won.won)).
Proof.
  exact (logged_goal_scores_add_up still_world still_room Won.winning_action
           0%nat one_goal_game Won.won won_reachable).
Defined.

Lemma logged_events_carry_their_data_witness :
  (forall c, Log.adventure_finished ["A"] = Log.invalid_format c ->
     c = "command_tag_missing" \/ c = "next_actions_missing") /\
  (forall n, Log.adventure_finished ["A"] = Log.turn_limit_reached n ->
     n = max_turns one_goal_game) /\
  (forall goals,
     Log.adventure_finished ["A"] = Log.adventure_finished goals \/
     Log.adventure_finished ["A"] = Log.game_result goals true ->
     length goals = size (list_to_set (goal_state one_goal_game) : gset string)).
Proof.
  apply (logged_events_carry_their_data still_world still_room
           Won.winning_action 0%nat one_goal_game Won.won
           (Log.adventure_finished ["A"]) won_reachable).
  apply list_elem_of_In. vm_compute. auto.
Defined.

Lemma own_log_never_scored_witness :
  Forall (fun a => Reading.as_adventure_info a = None)
         (concat (log (recorder Won.won))) /\
  exists e, Scorer.run (log (recorder Won.won)) = inl e.
Proof.
  exact (own_log_never_scored still_world still_room Won.winning_action
           0%nat one_goal_game Won.won won_reachable).
Defined.

Lemma validated_response_parses_witness :
  Won.opened = Won.opened /\
  exists st',
    _on_parse_response (player Won.opened) "> take apple" Won.opened =
      inr (("> take apple", true), st') /\
    (if_variant Won.opened <> "plan" -> st' = Won.opened) /\
    (if_variant Won.opened = "plan" ->
       exists new_plan,
         split next_actions_marker "> take apple" !! 1%nat = Some new_plan /\
         st' = set_plan_history (plan_history Won.opened ++ [new_plan])
                 Won.opened).
Proof.
  exact (validated_response_parses Won.opened Won.opened "> take apple"
           eq_refl).
Defined.

Lemma if_input_is_first_line_witness :
  if_input_of (String ">" " take apple ") = strip " take apple " /\
  if_input_of (String ">" (" take apple " ++ newline ++ "and look")) =
    strip " take apple " /\
  if_input_of (String ">" (" take apple " ++ next_actions_marker ++ "and look")) =
    strip " take apple " /\
  if_input_of "" = "".
Proof.
  exact (if_input_is_first_line ">" " take apple " "and look" eq_refl).
Defined.

Lemma aborted_episodes_lack_goal_score_witness :
  exists log,
    play still_world still_room still_action unmarked_player 0 one_goal_game
      = inr log /\
    (Scorer.run log = inl (KeyError "goal_score") <->
     Exists (fun a => Reading.is_invalid_format a = true) (concat log)) /\
    (forallb (existsb Reading.is_goal_status) log = true <->
     Forall (fun a => Reading.is_invalid_format a = false) (concat log)).
Proof.
  apply (aborted_episodes_lack_goal_score still_world still_room still_action
           unmarked_player 0%nat one_goal_game);
    [discriminate | reflexivity].
Defined.

Lemma episode_within_turn_budget_witness :
  exists log,
    play still_world still_room still_action unmarked_player 0 one_goal_game
      = inr log /\
    (1 <= length log)%nat /\
    Z.of_nat (length log) <= max_turns one_goal_game.
Proof.
  apply (episode_within_turn_budget still_world still_room still_action
           unmarked_player 0%nat one_goal_game);
    [discriminate | reflexivity].
Defined.

Lemma stop_is_logged_at_each_call_witness :
  exists a,
    (a = Log.invalid_format (invalid_format Won.violated) \/
     a = Log.adventure_finished (elements (goals_achieved Won.violated)) \/
     a = Log.turn_limit_reached (max_turns (game_instance Won.violated))) /\
    concat (log (recorder (snd (_does_game_proceed Won.violated)))) =
      concat (log (recorder Won.violated)) ++ [a] /\
    fst (_does_game_proceed (snd (_does_game_proceed Won.violated))) = false /\
    concat (log (recorder
              (snd (_does_game_proceed
                      (snd (_does_game_proceed Won.violated)))))) =
      concat (log (recorder Won.violated)) ++ [a; a].
Proof. exact (stop_is_logged_at_each_call Won.violated eq_refl). Defined.

End GameMasterAtGames.
